(** * BrainstormAI: the session scheduler, its pacing policy and its two
      generation stages

    A shallow embedding of [src/services/orchestrator.py],
    [src/services/agent_reply.py], [src/services/agent_decision.py] and
    [src/utils/common.py].

    Conventions.
    - A Python [str] is a list of Unicode code points ([N]); ASCII literals
      are written [u "..."].
    - Clock readings and durations ([float] seconds) are exact rationals.
    - Python [int]s are [Z].
    - A coroutine is a function of the outcomes of its awaits: the items its
      generation stream delivers, and the index of the suspension point at
      which a cancellation request is delivered to the task. *)

From Stdlib Require Import List Bool Arith ZArith NArith QArith Lia Lqa.
From Stdlib Require Import String Ascii.
Import ListNotations.

Set Implicit Arguments.

(* ================================================================== *)
(** * Python strings *)
(* ================================================================== *)

Module PyStr.

Definition str := list N.

(** ASCII literal to code points. *)
Definition u (s : string) : str :=
  List.map N_of_ascii (list_ascii_of_string s).

Definition eqb (a b : str) : bool :=
  if list_eq_dec N.eq_dec a b then true else false.

Lemma eqb_eq a b : eqb a b = true <-> a = b.
Proof.
  unfold eqb. destruct (list_eq_dec N.eq_dec a b); split; congruence.
Qed.

(** Truthiness of a string: [if s:]. *)
Definition truthy (s : str) : bool :=
  match s with [] => false | _ :: _ => true end.

(** [str.isspace] on one code point (the code points Python strips). *)
Definition is_space (c : N) : bool :=
  ((9 <=? c) && (c <=? 13) || (28 <=? c) && (c <=? 32)
   || (c =? 133) || (c =? 160) || (c =? 5760)
   || (8192 <=? c) && (c <=? 8202)
   || (c =? 8232) || (c =? 8233) || (c =? 8239) || (c =? 8287)
   || (c =? 12288))%N.

(** [s.lstrip()] *)
Fixpoint lstrip (s : str) : str :=
  match s with
  | [] => []
  | c :: r => if is_space c then lstrip r else s
  end.

(** [s.rstrip()] *)
Definition rstrip (s : str) : str := rev (lstrip (rev s)).

(** [s.strip()] *)
Definition strip (s : str) : str := rstrip (lstrip s).

(** [c.lower()] on one code point; the case mapping covers the ASCII
    letters, other code points are left as they are. *)
Definition lower_char (c : N) : N :=
  if ((65 <=? c) && (c <=? 90))%N then (c + 32)%N else c.

(** [s.lower()] *)
Definition lower (s : str) : str := List.map lower_char s.

(** [s.startswith(p)] *)
Fixpoint startswith (s p : str) : bool :=
  match p, s with
  | [], _ => true
  | _ :: _, [] => false
  | a :: p', b :: s' => (a =? b)%N && startswith s' p'
  end.

(** [needle in hay] *)
Fixpoint contains (hay needle : str) : bool :=
  startswith hay needle ||
  match hay with
  | [] => false
  | _ :: hay' => contains hay' needle
  end.

(** [s[n:]] and [s[:n]] for [n >= 0] *)
Definition drop (n : nat) (s : str) : str := skipn n s.
Definition take (n : nat) (s : str) : str := firstn n s.

(** [x in l] for a container of strings *)
Definition mem (x : str) (l : list str) : bool := existsb (eqb x) l.

Lemma mem_In x l : mem x l = true <-> In x l.
Proof.
  unfold mem. rewrite existsb_exists. split.
  - intros [y [Hy He]]. apply eqb_eq in He. subst. assumption.
  - intros H. exists x. split; [assumption | now apply eqb_eq].
Qed.

(** Every code point of [s] is white space. *)
Definition blank (s : str) : bool := forallb is_space s.

Lemma startswith_spec s p : startswith s p = true <-> exists r, s = p ++ r.
Proof.
  revert s. induction p as [|a p IH]; intros s; simpl.
  - split; [intros _; now exists s | intros _; destruct s; reflexivity].
  - destruct s as [|b s].
    + split; [discriminate | intros [r Hr]; discriminate].
    + split.
      * intros H. apply andb_true_iff in H. destruct H as [H1 H2].
        apply N.eqb_eq in H1. apply IH in H2. destruct H2 as [r ->].
        subst. now exists r.
      * intros [r Hr]. injection Hr as -> ->. apply andb_true_iff.
        split; [apply N.eqb_refl | apply IH; now exists r].
Qed.

Lemma lstrip_nil_blank s : lstrip s = [] <-> blank s = true.
Proof.
  induction s as [|c s IH]; simpl.
  - tauto.
  - destruct (is_space c); simpl; [exact IH | split; discriminate].
Qed.

Lemma blank_app a b : blank (a ++ b) = blank a && blank b.
Proof. unfold blank. apply forallb_app. Qed.

Lemma blank_rev a : blank (rev a) = blank a.
Proof.
  induction a as [|c a IH]; simpl; [reflexivity|].
  rewrite blank_app, IH. simpl. rewrite andb_true_r. apply andb_comm.
Qed.

Lemma lstrip_blank s : blank s = true -> lstrip s = [].
Proof. apply lstrip_nil_blank. Qed.

(** [not s.strip()] holds exactly for the blank strings. *)
Lemma strip_nil_blank s : strip s = [] <-> blank s = true.
Proof.
  unfold strip, rstrip. split.
  - intros H.
    assert (Hl : lstrip (rev (lstrip s)) = []).
    { destruct (lstrip (rev (lstrip s))); [reflexivity|].
      apply (f_equal (@List.length N)) in H. rewrite length_rev in H. discriminate. }
    apply lstrip_nil_blank in Hl. rewrite blank_rev in Hl.
    clear H. induction s as [|c s IH]; simpl in *; [reflexivity|].
    destruct (is_space c) eqn:E; simpl.
    + now apply IH.
    + simpl in Hl. rewrite E in Hl. discriminate.
  - intros H. rewrite (lstrip_blank _ H). reflexivity.
Qed.

(** A non-blank string strips on the left to a string that starts with a
    code point that is not white space. *)
Lemma lstrip_head s c r : lstrip s = c :: r -> is_space c = false.
Proof.
  induction s as [|a s IH]; simpl; [discriminate|].
  destruct (is_space a) eqn:E; [exact IH|].
  intros H. injection H as <- _. exact E.
Qed.

Lemma lstrip_idem s : lstrip (lstrip s) = lstrip s.
Proof.
  destruct (lstrip s) as [|c r] eqn:E; [reflexivity|].
  simpl. now rewrite (lstrip_head _ E).
Qed.


Lemma lstrip_app_blank a b : blank a = true -> lstrip (a ++ b) = lstrip b.
Proof.
  induction a as [|x a IH]; simpl; [reflexivity|].
  destruct (is_space x); simpl; [exact IH | discriminate].
Qed.

End PyStr.

Import PyStr.

(* ================================================================== *)
(** * Exceptions and results of awaited calls *)
(* ================================================================== *)

(** An exception is either asyncio's [CancelledError] (a [BaseException],
    which [except Exception] does not catch) or an [Exception], of which
    the code only looks at [str(exc)]. *)
Inductive exn :=
| CancelledError
| Error (text : str).

Inductive result (A : Type) :=
| Ok (a : A)
| Raise (e : exn).
Arguments Ok {A} a.
Arguments Raise {A} e.

(* ================================================================== *)
(** * src/utils/common.py *)
(* ================================================================== *)

Module Common.

(** [is_transient_timeout_error(exc)], on [str(exc)]. *)
Definition is_transient_timeout_error (text : str) : bool :=
  let text := lower text in
  contains text (u "timeout")
  || contains text (u "deadline exceeded")
  || contains text (u "awaiting headers").

End Common.

(* ================================================================== *)
(** * src/domain/schemas.py *)
(* ================================================================== *)

Inductive AgentAction := SILENT | REPLY_USER | REPLY_AI | COMMENT.

Definition AgentAction_eqb (a b : AgentAction) : bool :=
  match a, b with
  | SILENT, SILENT | REPLY_USER, REPLY_USER
  | REPLY_AI, REPLY_AI | COMMENT, COMMENT => true
  | _, _ => false
  end.

Record AgentDecision := {
  action : AgentAction;
  reason : option str;
  target_message_id : option str;
  target_author_name : option str;
  stance : option str;
  key_points : option str;
  confidence : option Q
}.

(** [AgentDecision(action=AgentAction.SILENT)] *)
Definition silent_decision : AgentDecision :=
  {| action := SILENT; reason := None; target_message_id := None;
     target_author_name := None; stance := None; key_points := None;
     confidence := None |}.

Record AgentInfo := {
  id : str;
  nickname : str;
  persona : str;
  style : str;
  model_name : option str
}.

(** [x or ""] for an optional string *)
Definition or_empty (x : option str) : str :=
  match x with Some s => s | None => [] end.

(** Boolean comparisons of rationals. *)
Definition Qltb (x y : Q) : bool := negb (Qle_bool y x).

Lemma Qltb_lt x y : Qltb x y = true <-> x < y.
Proof.
  unfold Qltb. rewrite negb_true_iff. split.
  - intros H. apply Qnot_le_lt. intros Hle.
    apply Qle_bool_iff in Hle. congruence.
  - intros H. destruct (Qle_bool y x) eqn:E; [|reflexivity].
    apply Qle_bool_iff in E. exfalso. apply (Qlt_not_le _ _ H E).
Qed.

Lemma Qltb_ge x y : Qltb x y = false <-> y <= x.
Proof.
  unfold Qltb. rewrite negb_false_iff. apply Qle_bool_iff.
Qed.

(* ================================================================== *)
(** * src/services/agent_decision.py *)
(* ================================================================== *)

Module AgentDecisionStage.

(** What one [agent.ainvoke] under the semaphore comes back with. *)
Inductive invoke_outcome :=
| Structured (d : AgentDecision)
    (** [result["structured_response"]] is an [AgentDecision] *)
| NoStructured
    (** the response has no [AgentDecision]: the code raises
        [ValueError("Missing structured_response for AgentDecision")] *)
| InvokeRaises (e : exn).

(** The collaborators of one call of [decide_agent_action]. *)
Record Env := {
  invoke : nat -> invoke_outcome;
    (** outcome of the call made in attempt [0, 1, 2] *)
  sleep_cancelled : nat -> bool
    (** whether the task is cancelled during the back-off of an attempt *)
}.

(** What the call did: the attempts it made and the back-offs it slept. *)
Record Log := {
  attempts_made : list nat;
  slept : list Q
}.


Definition log_attempt (a : nat) (l : Log) : Log :=
  {| attempts_made := attempts_made l ++ [a]; slept := slept l |}.

Definition log_sleep (d : Q) (l : Log) : Log :=
  {| attempts_made := attempts_made l; slept := slept l ++ [d] |}.

Definition max_attempts : nat := 3.

Definition missing_structured : str :=
  u "Missing structured_response for AgentDecision".

(** [delay_seconds = 0.8 * (attempt + 1)] *)
Definition delay_seconds (attempt : nat) : Q :=
  (8 # 10) * inject_Z (Z.of_nat (attempt + 1)).

Section Run.
Variable env : Env.

(** The [for attempt in range(max_attempts)] loop; [remaining] counts the
    iterations left, [decision] is the variable of that name. *)
Fixpoint attempts_loop (remaining attempt : nat) (decision : AgentDecision)
         (l : Log) : result AgentDecision * Log :=
  match remaining with
  | O => (Ok decision, l)
  | S remaining' =>
      let l := log_attempt attempt l in
      let on_exception (text : str) :=
        if Common.is_transient_timeout_error text
           && (attempt <? max_attempts - 1)%nat
        then
          let l := log_sleep (delay_seconds attempt) l in
          if sleep_cancelled env attempt then (Raise CancelledError, l)
          else attempts_loop remaining' (S attempt) decision l
        else (Ok decision, l) in
      match invoke env attempt with
      | Structured d => (Ok d, l)
      | NoStructured => on_exception missing_structured
      | InvokeRaises CancelledError => (Raise CancelledError, l)
      | InvokeRaises (Error text) => on_exception text
      end
  end.


End Run.

(** The failure text of an attempt, when it fails with an [Exception]. *)
Definition failure_text (o : invoke_outcome) : option str :=
  match o with
  | Structured _ => None
  | NoStructured => Some missing_structured
  | InvokeRaises CancelledError => None
  | InvokeRaises (Error text) => Some text
  end.

(** The attempt fails with a classified transient timeout. *)
Definition timed_out (o : invoke_outcome) : bool :=
  match failure_text o with
  | Some text => Common.is_transient_timeout_error text
  | None => false
  end.

End AgentDecisionStage.

(* ================================================================== *)
(** * src/services/agent_reply.py *)
(* ================================================================== *)

Module AgentReplyStage.

(** ** The mention filter *)

(** The four punctuation marks of the set literal: [,] [U+FF0C] [:] [U+FF1A]. *)
Definition mention_punctuation : list str :=
  [ [44%N]; [65292%N]; [58%N]; [65306%N] ].

(** [expected = f"@{target_name}"] *)
Definition expected_mention (target_name : str) : str := 64%N :: target_name.

Definition _consume_leading_duplicate_mention
           (buffered_text target_name : str) : bool * str :=
  let trimmed := lstrip buffered_text in
  if negb (truthy trimmed) then (false, [])
  else
    let expected := expected_mention target_name in
    if startswith expected trimmed
       && (List.length trimmed <? List.length expected)%nat
    then (false, [])
    else if startswith trimmed expected then
      let remainder := lstrip (drop (List.length expected) trimmed) in
      let remainder :=
        if mem (take 1 remainder) mention_punctuation
        then lstrip (drop 1 remainder)
        else remainder in
      (true, remainder)
    else (true, buffered_text).

(** ** Events, effects and the state of one run *)

(** The events this stage and the orchestrator hand to the output sink
    ([emit(event_type, data)]), with the payload fields the properties
    below speak about. *)
Inductive event :=
| message_started (message_id agent_id : str)
| message_delta (message_id token : str)
| message_cancelled (message_id content : str)
| error_event (message_id error : str)
| message_completed (message_id content : str)
| status_event (agent_id : str) (act : AgentAction)
| runtime_started
| session_ended (end_reason : str).

(** What a run does to the outside, in order: the events whose [emit]
    returned, the [agent.astream] calls it opened and the back-offs it
    slept. *)
Inductive effect :=
| Emitted (e : event)
| StreamOpened (attempt : nat)
| Slept (seconds : Q).

(** One item delivered by [async for item in agent.astream(...)]: the text
    [_extract_token_text] finds in it (possibly empty), or an [Exception]
    raised by the stream. A stream that ends normally is the end of the
    list. *)
Inductive stream_item :=
| Token (text : str)
| Fails (text : str).

(** The collaborators of one run of [generate_agent_reply]. Every [await]
    of the run is a suspension point; they are numbered from 0 in the order
    the run reaches them. [cancel_at = Some k] delivers [CancelledError] at
    suspension point [k]; the sink itself never raises (the WebSocket
    handler swallows every [Exception]). *)
Record Env := {
  streams : nat -> list stream_item;
  cancel_at : option nat
}.

(** The local variables of [generate_agent_reply] that change, the flag set
    by [mark_output_started], and the effects so far. *)
Record rstate := {
  effects : list effect;
  awaits : nat;
  output_started : bool;
  full_content : str;
  mention_guard_resolved : bool;
  mention_guard_buffer : str
}.

Definition initial_rstate : rstate :=
  {| effects := []; awaits := 0; output_started := false;
     full_content := []; mention_guard_resolved := false;
     mention_guard_buffer := [] |}.

Definition M (A : Type) : Type := rstate -> result A * rstate.

Definition ret {A} (a : A) : M A := fun st => (Ok a, st).

Definition bind {A B} (m : M A) (k : A -> M B) : M B :=
  fun st =>
    match m st with
    | (Ok a, st') => k a st'
    | (Raise e, st') => (Raise e, st')
    end.

Definition raise {A} (e : exn) : M A := fun st => (Raise e, st).

Notation "x <- m ;; k" := (bind m (fun x => k))
  (at level 61, m at next level, right associativity).
Notation "m ;; k" := (bind m (fun _ => k))
  (at level 61, right associativity).

Definition get : M rstate := fun st => (Ok st, st).

Definition modify (f : rstate -> rstate) : M unit := fun st => (Ok tt, f st).

Definition record_effect (x : effect) (st : rstate) : rstate :=
  {| effects := effects st ++ [x]; awaits := awaits st;
     output_started := output_started st; full_content := full_content st;
     mention_guard_resolved := mention_guard_resolved st;
     mention_guard_buffer := mention_guard_buffer st |}.

Definition count_await (st : rstate) : rstate :=
  {| effects := effects st; awaits := S (awaits st);
     output_started := output_started st; full_content := full_content st;
     mention_guard_resolved := mention_guard_resolved st;
     mention_guard_buffer := mention_guard_buffer st |}.

Definition set_output_started (st : rstate) : rstate :=
  {| effects := effects st; awaits := awaits st;
     output_started := true; full_content := full_content st;
     mention_guard_resolved := mention_guard_resolved st;
     mention_guard_buffer := mention_guard_buffer st |}.

Definition set_full_content (s : str) (st : rstate) : rstate :=
  {| effects := effects st; awaits := awaits st;
     output_started := output_started st; full_content := s;
     mention_guard_resolved := mention_guard_resolved st;
     mention_guard_buffer := mention_guard_buffer st |}.

Definition set_guard (resolved : bool) (buffer : str) (st : rstate) : rstate :=
  {| effects := effects st; awaits := awaits st;
     output_started := output_started st; full_content := full_content st;
     mention_guard_resolved := resolved;
     mention_guard_buffer := buffer |}.

Definition cancel_here (c : option nat) (k : nat) : bool :=
  match c with
  | Some j => (j =? k)%nat
  | None => false
  end.

Section Run.
Variable env : Env.
Variable message_id : str.
Variable info : AgentInfo.

(** A suspension point: the task is resumed, or [CancelledError] is thrown
    into it. *)
Definition suspend : M unit :=
  fun st =>
    if cancel_here (cancel_at env) (awaits st)
    then (Raise CancelledError, count_await st)
    else (Ok tt, count_await st).

(** [await emit(...)] *)
Definition emit (e : event) : M unit :=
  suspend ;; modify (record_effect (Emitted e)).

(** [await asyncio.sleep(seconds)] *)
Definition sleep (seconds : Q) : M unit :=
  suspend ;; modify (record_effect (Slept seconds)).

Definition mark_output_started : M unit := modify set_output_started.

(** Lines 174-184: the token (or what the filter left of the buffer) goes
    out. *)
Definition forward (token_to_emit : str) : M unit :=
  mark_output_started ;;
  if truthy token_to_emit then
    modify (fun st => set_full_content (full_content st ++ token_to_emit) st) ;;
    emit (message_delta message_id token_to_emit)
  else ret tt.

(** Lines 163-184: the body of the [async for] for one non-empty token. *)
Definition process_token (mention_target_name token : str) : M unit :=
  st <- get ;;
  if negb (mention_guard_resolved st) && truthy mention_target_name then
    let buffer := mention_guard_buffer st ++ token in
    let '(resolved, token_to_emit) :=
      _consume_leading_duplicate_mention buffer mention_target_name in
    modify (set_guard resolved buffer) ;;
    if negb resolved then ret tt else forward token_to_emit
  else forward token.

(** Lines 156-184: the [async for] over one stream. Awaiting the next item
    is a suspension point. *)
Fixpoint consume_stream (mention_target_name : str)
         (items : list stream_item) : M unit :=
  match items with
  | [] => suspend
  | Fails text :: _ => suspend ;; raise (Error text)
  | Token token :: rest =>
      suspend ;;
      (if truthy token then process_token mention_target_name token
       else ret tt) ;;
      consume_stream mention_target_name rest
  end.

(** Lines 185-197: the stream ended before the filter resolved. *)
Definition flush_guard : M unit :=
  st <- get ;;
  let buffer := mention_guard_buffer st in
  if negb (mention_guard_resolved st) && truthy buffer then
    mark_output_started ;;
    modify (fun st => set_full_content (full_content st ++ buffer) st) ;;
    emit (message_delta message_id buffer) ;;
    modify (set_guard true buffer)
  else ret tt.

Definition max_attempts : nat := 2.

(** [no_output_yet = not full_content.strip()] *)
Definition no_output_yet (st : rstate) : bool :=
  negb (truthy (strip (full_content st))).

(** Lines 154-214: [for attempt in range(max_attempts)] with its inner
    [try]/[except Exception]. *)
Fixpoint attempts_loop (mention_target_name : str)
         (remaining attempt : nat) : M unit :=
  match remaining with
  | O => ret tt
  | S remaining' =>
      fun st =>
        match (modify (record_effect (StreamOpened attempt)) ;;
               consume_stream mention_target_name (streams env attempt) ;;
               flush_guard) st with
        | (Ok tt, st') => (Ok tt, st')
        | (Raise CancelledError, st') => (Raise CancelledError, st')
        | (Raise (Error text), st') =>
            if Common.is_transient_timeout_error text
               && no_output_yet st'
               && (attempt <? max_attempts - 1)%nat
            then (sleep 1 ;;
                  attempts_loop mention_target_name remaining' (S attempt)) st'
            else (Raise (Error text), st')
        end
  end.

(** Lines 128-132 *)
Definition mention_target (decision : AgentDecision) : str :=
  if AgentAction_eqb (action decision) REPLY_AI
     && truthy (or_empty (target_author_name decision))
  then or_empty (target_author_name decision)
  else [].

Definition mention_prefix_of (mention_target_name : str) : str :=
  if truthy mention_target_name
  then 64%N :: mention_target_name ++ [32%N]
  else [].

(** Lines 114-150: everything before the outer [try]. *)
Definition preamble (decision : AgentDecision) : M unit :=
  emit (message_started message_id (id info)) ;;
  let mention_target_name := mention_target decision in
  let mention_prefix := mention_prefix_of mention_target_name in
  modify (set_full_content mention_prefix) ;;
  (if truthy mention_prefix then
     mark_output_started ;;
     emit (message_delta message_id mention_prefix)
   else ret tt) ;;
  modify (set_guard (negb (truthy mention_target_name)) []).

(** Lines 152-214: the body of the outer [try]. *)
Definition streaming (decision : AgentDecision) : M unit :=
  attempts_loop (mention_target decision) max_attempts 0.

(** Lines 215-235: the two handlers of the outer [try] and the [return]. *)
Definition handlers (r : result unit * rstate) : result (str * str) * rstate :=
  match r with
  | (Ok tt, st) => (Ok (message_id, full_content st), st)
  | (Raise CancelledError, st) =>
      (emit (message_cancelled message_id (full_content st)) ;;
       raise CancelledError) st
  | (Raise (Error text), st) =>
      (emit (error_event message_id text) ;;
       st' <- get ;;
       ret (message_id, full_content st')) st
  end.

Definition generate_agent_reply (decision : AgentDecision)
  : result (str * str) * rstate :=
  match preamble decision initial_rstate with
  | (Ok tt, st) => handlers (streaming decision st)
  | (Raise e, st) => (Raise e, st)
  end.

End Run.

(** The tokens of the [message_delta] events among the effects. *)
Fixpoint deltas (l : list effect) : list str :=
  match l with
  | [] => []
  | Emitted (message_delta _ tok) :: r => tok :: deltas r
  | _ :: r => deltas r
  end.

(** The contents of the [message_cancelled] events among the effects. *)
Fixpoint cancelled_events (l : list effect) : list str :=
  match l with
  | [] => []
  | Emitted (message_cancelled _ c) :: r => c :: cancelled_events r
  | _ :: r => cancelled_events r
  end.

(** The texts of the [error] events among the effects. *)
Fixpoint error_events (l : list effect) : list str :=
  match l with
  | [] => []
  | Emitted (error_event _ c) :: r => c :: error_events r
  | _ :: r => error_events r
  end.

(** The attempts for which [agent.astream] was called. *)
Fixpoint stream_calls (l : list effect) : list nat :=
  match l with
  | [] => []
  | StreamOpened a :: r => a :: stream_calls r
  | _ :: r => stream_calls r
  end.

(** The events among the effects. *)
Fixpoint events_of (l : list effect) : list event :=
  match l with
  | [] => []
  | Emitted e :: r => e :: events_of r
  | _ :: r => events_of r
  end.

End AgentReplyStage.

(* ================================================================== *)
(** * src/services/orchestrator.py *)
(* ================================================================== *)

Module Orchestrator.

Import AgentReplyStage.

(** [settings.session] *)
Record SessionConfig := {
  agent_cooldown_seconds : Q;
  global_speak_interval_seconds : Q;
  silence_end_seconds : Z;
  max_total_ai_messages : Z;
  pause_timeout_seconds : Z
}.

Record ChatMessage := {
  m_id : str;
  m_author_type : str;
  m_author_id : option str;
  m_author_name : str;
  m_content : str;
  m_target_message_id : option str;
  m_target_author_name : option str
}.

Record AgentState := {
  info : AgentInfo;
  last_spoke_at : Q;
  last_seen_message_version : Z
}.

(** The fields of the orchestrator the scheduler reads and writes.
    [_generation_tasks] holds the indices of the agents whose generation
    task is in flight; [emitted] is what went through [self.emit]. *)
Record SessionOrchestrator := {
  agents : list AgentState;
  messages : list ChatMessage;
  _message_version : Z;
  _runtime_started : bool;
  _ended : bool;
  _end_reason : option str;
  _pending_decisions : Z;
  _started_at : Q;
  _last_activity_at : Q;
  _last_global_speak_at : Q;
  _total_ai_messages : Z;
  _recent_key_points : list str;
  _generation_paused : bool;
  _paused_since : option Q;
  _generation_tasks : list nat;
  emitted : list event
}.

(** [SessionOrchestrator(session_id=..., topic=...)] followed by
    [add_agent] for each profile. *)
Definition new_orchestrator (infos : list AgentInfo) : SessionOrchestrator :=
  {| agents := List.map (fun i => {| info := i; last_spoke_at := 0;
                                     last_seen_message_version := 0 |}) infos;
     messages := []; _message_version := 0; _runtime_started := false;
     _ended := false; _end_reason := None; _pending_decisions := 0;
     _started_at := 0; _last_activity_at := 0; _last_global_speak_at := 0;
     _total_ai_messages := 0; _recent_key_points := [];
     _generation_paused := false; _paused_since := None;
     _generation_tasks := []; emitted := [] |}.

(** Field updates. *)
Definition with_agents v (o : SessionOrchestrator) :=
  {| agents := v; messages := messages o;
     _message_version := _message_version o;
     _runtime_started := _runtime_started o; _ended := _ended o;
     _end_reason := _end_reason o;
     _pending_decisions := _pending_decisions o;
     _started_at := _started_at o; _last_activity_at := _last_activity_at o;
     _last_global_speak_at := _last_global_speak_at o;
     _total_ai_messages := _total_ai_messages o;
     _recent_key_points := _recent_key_points o;
     _generation_paused := _generation_paused o;
     _paused_since := _paused_since o;
     _generation_tasks := _generation_tasks o; emitted := emitted o |}.

Definition with_log msgs version (o : SessionOrchestrator) :=
  {| agents := agents o; messages := msgs; _message_version := version;
     _runtime_started := _runtime_started o; _ended := _ended o;
     _end_reason := _end_reason o;
     _pending_decisions := _pending_decisions o;
     _started_at := _started_at o; _last_activity_at := _last_activity_at o;
     _last_global_speak_at := _last_global_speak_at o;
     _total_ai_messages := _total_ai_messages o;
     _recent_key_points := _recent_key_points o;
     _generation_paused := _generation_paused o;
     _paused_since := _paused_since o;
     _generation_tasks := _generation_tasks o; emitted := emitted o |}.

Definition with_started started t0 (o : SessionOrchestrator) :=
  {| agents := agents o; messages := messages o;
     _message_version := _message_version o;
     _runtime_started := started; _ended := _ended o;
     _end_reason := _end_reason o;
     _pending_decisions := _pending_decisions o;
     _started_at := t0; _last_activity_at := _last_activity_at o;
     _last_global_speak_at := _last_global_speak_at o;
     _total_ai_messages := _total_ai_messages o;
     _recent_key_points := _recent_key_points o;
     _generation_paused := _generation_paused o;
     _paused_since := _paused_since o;
     _generation_tasks := _generation_tasks o; emitted := emitted o |}.

Definition with_ended ended why (o : SessionOrchestrator) :=
  {| agents := agents o; messages := messages o;
     _message_version := _message_version o;
     _runtime_started := _runtime_started o; _ended := ended;
     _end_reason := why;
     _pending_decisions := _pending_decisions o;
     _started_at := _started_at o; _last_activity_at := _last_activity_at o;
     _last_global_speak_at := _last_global_speak_at o;
     _total_ai_messages := _total_ai_messages o;
     _recent_key_points := _recent_key_points o;
     _generation_paused := _generation_paused o;
     _paused_since := _paused_since o;
     _generation_tasks := _generation_tasks o; emitted := emitted o |}.

Definition with_pending v (o : SessionOrchestrator) :=
  {| agents := agents o; messages := messages o;
     _message_version := _message_version o;
     _runtime_started := _runtime_started o; _ended := _ended o;
     _end_reason := _end_reason o;
     _pending_decisions := v;
     _started_at := _started_at o; _last_activity_at := _last_activity_at o;
     _last_global_speak_at := _last_global_speak_at o;
     _total_ai_messages := _total_ai_messages o;
     _recent_key_points := _recent_key_points o;
     _generation_paused := _generation_paused o;
     _paused_since := _paused_since o;
     _generation_tasks := _generation_tasks o; emitted := emitted o |}.

Definition with_last_activity v (o : SessionOrchestrator) :=
  {| agents := agents o; messages := messages o;
     _message_version := _message_version o;
     _runtime_started := _runtime_started o; _ended := _ended o;
     _end_reason := _end_reason o;
     _pending_decisions := _pending_decisions o;
     _started_at := _started_at o; _last_activity_at := v;
     _last_global_speak_at := _last_global_speak_at o;
     _total_ai_messages := _total_ai_messages o;
     _recent_key_points := _recent_key_points o;
     _generation_paused := _generation_paused o;
     _paused_since := _paused_since o;
     _generation_tasks := _generation_tasks o; emitted := emitted o |}.

Definition with_pacing last_global recent (o : SessionOrchestrator) :=
  {| agents := agents o; messages := messages o;
     _message_version := _message_version o;
     _runtime_started := _runtime_started o; _ended := _ended o;
     _end_reason := _end_reason o;
     _pending_decisions := _pending_decisions o;
     _started_at := _started_at o; _last_activity_at := _last_activity_at o;
     _last_global_speak_at := last_global;
     _total_ai_messages := _total_ai_messages o;
     _recent_key_points := recent;
     _generation_paused := _generation_paused o;
     _paused_since := _paused_since o;
     _generation_tasks := _generation_tasks o; emitted := emitted o |}.

Definition with_total v (o : SessionOrchestrator) :=
  {| agents := agents o; messages := messages o;
     _message_version := _message_version o;
     _runtime_started := _runtime_started o; _ended := _ended o;
     _end_reason := _end_reason o;
     _pending_decisions := _pending_decisions o;
     _started_at := _started_at o; _last_activity_at := _last_activity_at o;
     _last_global_speak_at := _last_global_speak_at o;
     _total_ai_messages := v;
     _recent_key_points := _recent_key_points o;
     _generation_paused := _generation_paused o;
     _paused_since := _paused_since o;
     _generation_tasks := _generation_tasks o; emitted := emitted o |}.

Definition with_pause paused since (o : SessionOrchestrator) :=
  {| agents := agents o; messages := messages o;
     _message_version := _message_version o;
     _runtime_started := _runtime_started o; _ended := _ended o;
     _end_reason := _end_reason o;
     _pending_decisions := _pending_decisions o;
     _started_at := _started_at o; _last_activity_at := _last_activity_at o;
     _last_global_speak_at := _last_global_speak_at o;
     _total_ai_messages := _total_ai_messages o;
     _recent_key_points := _recent_key_points o;
     _generation_paused := paused;
     _paused_since := since;
     _generation_tasks := _generation_tasks o; emitted := emitted o |}.

Definition with_generation_tasks v (o : SessionOrchestrator) :=
  {| agents := agents o; messages := messages o;
     _message_version := _message_version o;
     _runtime_started := _runtime_started o; _ended := _ended o;
     _end_reason := _end_reason o;
     _pending_decisions := _pending_decisions o;
     _started_at := _started_at o; _last_activity_at := _last_activity_at o;
     _last_global_speak_at := _last_global_speak_at o;
     _total_ai_messages := _total_ai_messages o;
     _recent_key_points := _recent_key_points o;
     _generation_paused := _generation_paused o;
     _paused_since := _paused_since o;
     _generation_tasks := v; emitted := emitted o |}.

Definition with_emitted v (o : SessionOrchestrator) :=
  {| agents := agents o; messages := messages o;
     _message_version := _message_version o;
     _runtime_started := _runtime_started o; _ended := _ended o;
     _end_reason := _end_reason o;
     _pending_decisions := _pending_decisions o;
     _started_at := _started_at o; _last_activity_at := _last_activity_at o;
     _last_global_speak_at := _last_global_speak_at o;
     _total_ai_messages := _total_ai_messages o;
     _recent_key_points := _recent_key_points o;
     _generation_paused := _generation_paused o;
     _paused_since := _paused_since o;
     _generation_tasks := _generation_tasks o; emitted := v |}.

(** [self.emit(event_type, data)] *)
Definition emit_event (e : event) (o : SessionOrchestrator) :=
  with_emitted (emitted o ++ [e]) o.

(** [add_message] *)
Definition add_message (msg : ChatMessage) (self : SessionOrchestrator) :=
  with_log (messages self ++ [msg]) (_message_version self + 1)%Z self.

(** [deque(maxlen=8).append(x)] *)
Definition deque_maxlen : nat := 8.

Definition deque_append (x : str) (d : list str) : list str :=
  let d' := d ++ [x] in
  skipn (List.length d' - deque_maxlen) d'.

(** [(decision.key_points or "").strip().lower()] *)
Definition normalized_key_points (decision : AgentDecision) : str :=
  lower (strip (or_empty (key_points decision))).

(** [_approve_speech]; [now] is the reading of [time.time()]. *)
Definition _approve_speech (cfg : SessionConfig) (now : Q)
           (agent_state : AgentState) (decision : AgentDecision)
           (self : SessionOrchestrator) : bool * SessionOrchestrator :=
  if Qltb (now - last_spoke_at agent_state) (agent_cooldown_seconds cfg)
  then (false, self)
  else if Qltb 0 (global_speak_interval_seconds cfg)
          && Qltb (now - _last_global_speak_at self)
                  (global_speak_interval_seconds cfg)
  then (false, self)
  else if (0 <? max_total_ai_messages cfg)%Z
          && (max_total_ai_messages cfg <=? _total_ai_messages self)%Z
  then (false, self)
  else
    let key_points := normalized_key_points decision in
    if truthy key_points && mem key_points (_recent_key_points self)
    then (false, self)
    else
      (true,
       with_pacing now
         (if truthy key_points
          then deque_append key_points (_recent_key_points self)
          else _recent_key_points self)
         self).

(** [stop(force)], as far as the orchestrator's own fields go. Which tasks
    it cancels shows in the outcomes of those tasks. *)
Definition stop (force : bool) (now : Q) (self : SessionOrchestrator) :=
  if force then
    with_pause true
      (match _paused_since self with
       | None => Some now
       | Some t => Some t
       end) self
  else self.

(** [shutdown(reason, emit_event)] *)
Definition shutdown (why : str) (emit_ev : bool) (now : Q)
           (self : SessionOrchestrator) : SessionOrchestrator :=
  if _ended self then self
  else
    let self := with_ended true (Some why) self in
    let self := stop true now self in
    if emit_ev then emit_event (session_ended why) self else self.

(** [start_runtime], the part that writes the orchestrator's fields. *)
Definition start_runtime (now : Q) (self : SessionOrchestrator) :=
  if _runtime_started self || _ended self then self
  else
    emit_event runtime_started
      (with_last_activity now (with_started true now self)).

(** One tick of [_monitor_lifecycle], after its [asyncio.sleep(1.0)]:
    the new state, and whether the loop returned. *)
Definition monitor_tick (cfg : SessionConfig) (now : Q)
           (self : SessionOrchestrator) : SessionOrchestrator * bool :=
  if (0 <? max_total_ai_messages cfg)%Z
     && (max_total_ai_messages cfg <=? _total_ai_messages self)%Z
  then (shutdown (u "max_total_ai_messages") true now self, true)
  else if _generation_paused self then
    if (0 <? pause_timeout_seconds cfg)%Z then
      match _paused_since self with
      | Some since =>
          let paused_for := now - since in
          if Qle_bool (inject_Z (pause_timeout_seconds cfg)) paused_for
          then (shutdown (u "pause_timeout") true now self, true)
          else (self, false)
      | None => (self, false)
      end
    else (self, false)
  else
    let is_silent :=
      Qle_bool (inject_Z (silence_end_seconds cfg))
               (now - _last_activity_at self) in
    if is_silent
       && negb (match _generation_tasks self with [] => false | _ => true end)
       && (_pending_decisions self =? 0)%Z
    then (shutdown (u "silence_timeout") true now self, true)
    else (self, false).

(** [agent_state.last_spoke_at = ...] and
    [agent_state.last_seen_message_version = ...] on the agent at index [i]
    of [self.agents]. *)
Fixpoint update_nth {A} (i : nat) (f : A -> A) (l : list A) : list A :=
  match l, i with
  | [], _ => []
  | x :: r, O => f x :: r
  | x :: r, S i' => x :: update_nth i' f r
  end.

Definition set_last_spoke_at (t : Q) (a : AgentState) : AgentState :=
  {| info := info a; last_spoke_at := t;
     last_seen_message_version := last_seen_message_version a |}.

Definition set_last_seen (v : Z) (a : AgentState) : AgentState :=
  {| info := info a; last_spoke_at := last_spoke_at a;
     last_seen_message_version := v |}.

(** [_generate_reply] for the agent at index [i]: the reply stage runs to
    its end under [env]; when it returns, the message is appended at clock
    reading [now]. An exception of the stage leaves through the [await] of
    line 342, before anything is written. *)
Definition _generate_reply (env : AgentReplyStage.Env) (message_id : str)
           (now : Q) (i : nat) (agent_state : AgentState)
           (decision : AgentDecision) (self : SessionOrchestrator)
  : result str * SessionOrchestrator :=
  let '(r, st) :=
    generate_agent_reply env message_id (info agent_state) decision in
  let self := with_emitted (emitted self ++ events_of (effects st)) self in
  match r with
  | Raise e => (Raise e, self)
  | Ok (message_id, content) =>
      let self :=
        add_message
          {| m_id := message_id; m_author_type := u "ai";
             m_author_id := Some (id (info agent_state));
             m_author_name := nickname (info agent_state);
             m_content := content;
             m_target_message_id := target_message_id decision;
             m_target_author_name := target_author_name decision |} self in
      let self := with_last_activity now self in
      let self := with_total (_total_ai_messages self + 1)%Z self in
      let self :=
        with_agents (update_nth i (set_last_spoke_at now) (agents self)) self in
      let self := emit_event (message_completed message_id content) self in
      (Ok message_id, self)
  end.

(** [_wait_for_new_message], from the moment the wait is over:
    [timed_out] says that [asyncio.wait_for] raised [TimeoutError]. *)
Definition _wait_for_new_message (timed_out : bool) (i : nat)
           (self : SessionOrchestrator) : bool * SessionOrchestrator :=
  if timed_out then (false, self)
  else if _ended self then (false, self)
  else
    (true,
     with_agents
       (update_nth i (set_last_seen (_message_version self)) (agents self))
       self).

End Orchestrator.

(* ================================================================== *)
(** * The scheduler: workers, monitor and callers interleaved *)
(* ================================================================== *)

Module Scheduler.

Import AgentReplyStage Orchestrator.

(** Where the loop of [_agent_worker] stands. [Generating] remembers the
    clock reading of the approval that started the generation. *)
Inductive pc :=
| NotStarted
| Idle
| Deciding
| Decided (decision : AgentDecision)
| Generating (decision : AgentDecision) (approved_at : Q)
| Exited.

(** The orchestrator, one program point per agent worker, and three
    records of the history: the approvals granted (agent index, clock
    reading), those among them whose generation appended its message, and
    the latest clock reading. *)
Record System := {
  orch : SessionOrchestrator;
  workers : list pc;
  approvals : list (nat * Q);
  spoken : list (nat * Q);
  clock : Q
}.

Definition initial (infos : list AgentInfo) : System :=
  {| orch := new_orchestrator infos;
     workers := List.map (fun _ => NotStarted) infos;
     approvals := []; spoken := []; clock := 0 |}.

(** The code between two suspension points runs without interleaving; a
    label is one such piece, with what its awaits came back with. *)
Inductive label :=
| StartRuntime (now : Q)
    (** [start_runtime], from [handle_new_message] *)
| UserTurn (now : Q)
    (** lines 116-120 for a user message: resume, [stop(force=False)] *)
| AddMessage (msg : ChatMessage) (now : Q)
    (** lines 121-122 *)
| Stop (force : bool) (now : Q)
| Shutdown (why : str) (emit_ev : bool) (now : Q)
| MonitorTick (now : Q)
| WorkerWait (i : nat) (timed_out : bool)
    (** lines 166-183: the wait is over; up to the start of the decision *)
| WorkerDecided (i : nat) (r : result AgentDecision)
    (** lines 207-229: the decision task is done *)
| WorkerApprove (i : nat) (now : Q)
    (** lines 231-240 *)
| WorkerGenerated (i : nat) (env : AgentReplyStage.Env) (message_id : str)
                  (now : Q)
    (** lines 241-247: the generation task is done *).

Definition set_orch (o : SessionOrchestrator) (s : System) : System :=
  {| orch := o; workers := workers s; approvals := approvals s;
     spoken := spoken s; clock := clock s |}.

Definition set_worker (i : nat) (p : pc) (s : System) : System :=
  {| orch := orch s; workers := update_nth i (fun _ => p) (workers s);
     approvals := approvals s; spoken := spoken s; clock := clock s |}.

Definition set_workers (w : list pc) (s : System) : System :=
  {| orch := orch s; workers := w; approvals := approvals s;
     spoken := spoken s; clock := clock s |}.

Definition set_clock (t : Q) (s : System) : System :=
  {| orch := orch s; workers := workers s; approvals := approvals s;
     spoken := spoken s; clock := t |}.

Definition log_approval (i : nat) (t : Q) (s : System) : System :=
  {| orch := orch s; workers := workers s;
     approvals := approvals s ++ [(i, t)];
     spoken := spoken s; clock := clock s |}.

Definition log_spoken (i : nat) (t : Q) (s : System) : System :=
  {| orch := orch s; workers := workers s; approvals := approvals s;
     spoken := spoken s ++ [(i, t)]; clock := clock s |}.

(** The [finally] of lines 215-218. *)
Definition decision_finally (o : SessionOrchestrator) : SessionOrchestrator :=
  with_pending (Z.max 0 (_pending_decisions o - 1)) o.

(** The workers and the tasks they await are cancelled and awaited by
    [shutdown]: a deciding worker runs its [finally], every loop ends. The
    events of reply runs interrupted here are not recorded. *)
Definition workers_cancelled (s : System) : System :=
  let o :=
    fold_left
      (fun o p => match p with Deciding => decision_finally o | _ => o end)
      (workers s) (orch s) in
  set_workers (List.map (fun _ => Exited) (workers s))
    (set_orch (with_generation_tasks [] o) s).

Definition start_workers (s : System) : System :=
  set_workers (List.map (fun _ => Idle) (workers s)) s.

Definition remove_task (i : nat) (l : list nat) : list nat :=
  filter (fun j => negb (j =? i)%nat) l.

Section Step.
Variable cfg : SessionConfig.

(** A piece that reads the clock: readings never go back. *)
Definition at_time (now : Q) (s : System) (k : System -> option System)
  : option System :=
  if Qle_bool (clock s) now then k (set_clock now s) else None.

Definition step (l : label) (s : System) : option System :=
  let o := orch s in
  match l with
  | StartRuntime now =>
      at_time now s (fun s =>
        if _runtime_started o || _ended o then Some s
        else Some (start_workers (set_orch (start_runtime now o) s)))
  | UserTurn now =>
      at_time now s (fun s =>
        Some (set_orch (stop false now (with_pause false None o)) s))
  | AddMessage msg now =>
      at_time now s (fun s =>
        Some (set_orch (with_last_activity now (add_message msg o)) s))
  | Stop force now =>
      at_time now s (fun s => Some (set_orch (stop force now o) s))
  | Shutdown why emit_ev now =>
      at_time now s (fun s =>
        if _ended o then Some s
        else Some (workers_cancelled
                     (set_orch (shutdown why emit_ev now o) s)))
  | MonitorTick now =>
      if _runtime_started o && negb (_ended o) then
        at_time now s (fun s =>
          let '(o', returned) := monitor_tick cfg now o in
          if returned then Some (workers_cancelled (set_orch o' s))
          else Some (set_orch o' s))
      else None
  | WorkerWait i timed_out =>
      match nth_error (workers s) i, nth_error (agents o) i with
      | Some Idle, Some a =>
          if negb timed_out
             && negb (_ended o
                      || (last_seen_message_version a <? _message_version o)%Z)
          then None
          else
            let '(has_new, o') := _wait_for_new_message timed_out i o in
            if _ended o' then Some (set_worker i Exited (set_orch o' s))
            else if negb has_new then Some (set_orch o' s)
            else if _generation_paused o' then Some (set_orch o' s)
            else
              Some (set_worker i Deciding
                      (set_orch
                         (with_pending (_pending_decisions o' + 1)%Z o') s))
      | _, _ => None
      end
  | WorkerDecided i r =>
      match nth_error (workers s) i, nth_error (agents o) i with
      | Some Deciding, Some a =>
          let o := decision_finally o in
          match r with
          | Raise CancelledError => Some (set_worker i Idle (set_orch o s))
          | Raise (Error _) =>
              Some (set_worker i (Decided silent_decision)
                      (set_orch
                         (emit_event (status_event (id (info a)) SILENT) o) s))
          | Ok decision =>
              Some (set_worker i (Decided decision)
                      (set_orch
                         (emit_event
                            (status_event (id (info a)) (action decision)) o)
                         s))
          end
      | _, _ => None
      end
  | WorkerApprove i now =>
      match nth_error (workers s) i, nth_error (agents o) i with
      | Some (Decided decision), Some a =>
          at_time now s (fun s =>
            if AgentAction_eqb (action decision) SILENT
            then Some (set_worker i Idle s)
            else if _generation_paused o then Some (set_worker i Idle s)
            else
              let '(ok, o') := _approve_speech cfg now a decision o in
              if negb ok then Some (set_worker i Idle (set_orch o' s))
              else
                Some (log_approval i now
                        (set_worker i (Generating decision now)
                           (set_orch
                              (with_generation_tasks
                                 (i :: _generation_tasks o') o') s))))
      | _, _ => None
      end
  | WorkerGenerated i env message_id now =>
      match nth_error (workers s) i, nth_error (agents o) i with
      | Some (Generating decision approved_at), Some a =>
          at_time now s (fun s =>
            let '(r, o') := _generate_reply env message_id now i a decision o in
            let o' :=
              with_generation_tasks (remove_task i (_generation_tasks o')) o' in
            match r with
            | Ok _ =>
                Some (log_spoken i approved_at
                        (set_worker i Idle (set_orch o' s)))
            | Raise CancelledError => Some (set_worker i Idle (set_orch o' s))
            | Raise (Error _) => Some (set_worker i Exited (set_orch o' s))
            end)
      | _, _ => None
      end
  end.

Fixpoint exec (ls : list label) (s : System) : option System :=
  match ls with
  | [] => Some s
  | l :: rest =>
      match step l s with
      | Some s' => exec rest s'
      | None => None
      end
  end.

(** The states the scheduler reaches from a fresh orchestrator. *)
Inductive reachable (infos : list AgentInfo) : System -> Prop :=
| reach_initial : reachable infos (initial infos)
| reach_step s l s' :
    reachable infos s -> step l s = Some s' -> reachable infos s'.

End Step.

(** [handle_new_message(msg)], piece by piece. *)
Definition handle_new_message (msg : ChatMessage) (now : Q) : list label :=
  StartRuntime now
  :: (if PyStr.eqb (m_author_type msg) (u "user") then [UserTurn now] else [])
  ++ [AddMessage msg now].

End Scheduler.

(* ================================================================== *)
(** * Properties of the decision stage *)
(* ================================================================== *)

Section DecisionStageProperties.

Import AgentDecisionStage.








End DecisionStageProperties.

(* ================================================================== *)
(** * Properties of the pacing policy *)
(* ================================================================== *)

Section PacingProperties.

Import Orchestrator.

Lemma deque_append_length x d :
  (List.length (deque_append x d) <= deque_maxlen)%nat.
Proof.
  unfold deque_append. rewrite length_skipn, length_app. simpl.
  unfold deque_maxlen. lia.
Qed.



Lemma deque_append_In x y d :
  In y (deque_append x d) -> y = x \/ In y d.
Proof.
  unfold deque_append. intros H.
  assert (Hin : In y (d ++ [x])).
  { rewrite <- (firstn_skipn (List.length (d ++ [x]) - deque_maxlen) (d ++ [x])).
    apply in_or_app. now right. }
  apply in_app_or in Hin. destruct Hin as [Hin | [-> | []]]; auto.
Qed.

(** The three pacing conditions that do not look at the key points. *)
Definition cooldown_active (cfg : SessionConfig) (now : Q) (a : AgentState)
  : Prop :=
  now - last_spoke_at a < agent_cooldown_seconds cfg.

Definition global_interval_active (cfg : SessionConfig) (now : Q)
           (self : SessionOrchestrator) : Prop :=
  0 < global_speak_interval_seconds cfg
  /\ now - _last_global_speak_at self < global_speak_interval_seconds cfg.

Definition cap_reached (cfg : SessionConfig) (self : SessionOrchestrator)
  : Prop :=
  (0 < max_total_ai_messages cfg
   /\ max_total_ai_messages cfg <= _total_ai_messages self)%Z.

Lemma cooldown_active_iff cfg now a :
  Qltb (now - last_spoke_at a) (agent_cooldown_seconds cfg) = true
  <-> cooldown_active cfg now a.
Proof. apply Qltb_lt. Qed.

Lemma global_interval_active_iff cfg now self :
  Qltb 0 (global_speak_interval_seconds cfg)
  && Qltb (now - _last_global_speak_at self)
          (global_speak_interval_seconds cfg) = true
  <-> global_interval_active cfg now self.
Proof.
  unfold global_interval_active.
  rewrite andb_true_iff, !Qltb_lt. tauto.
Qed.

Lemma cap_reached_iff cfg self :
  (0 <? max_total_ai_messages cfg)%Z
  && (max_total_ai_messages cfg <=? _total_ai_messages self)%Z = true
  <-> cap_reached cfg self.
Proof.
  unfold cap_reached. rewrite andb_true_iff, Z.ltb_lt, Z.leb_le. tauto.
Qed.

Lemma truthy_false s : truthy s = false <-> s = [].
Proof. destruct s; simpl; split; congruence. Qed.

Lemma truthy_true s : truthy s = true <-> s <> [].
Proof. destruct s; simpl; split; congruence. Qed.

(** What [_approve_speech] returns, case by case. *)
Lemma approve_speech_cases cfg now a d self :
  let kp := normalized_key_points d in
  (( cooldown_active cfg now a \/ global_interval_active cfg now self
     \/ cap_reached cfg self \/ (kp <> [] /\ In kp (_recent_key_points self)))
   /\ _approve_speech cfg now a d self = (false, self))
  \/
  (~ cooldown_active cfg now a /\ ~ global_interval_active cfg now self
   /\ ~ cap_reached cfg self
   /\ ~ (kp <> [] /\ In kp (_recent_key_points self))
   /\ _approve_speech cfg now a d self =
      (true,
       with_pacing now
         (if truthy kp then deque_append kp (_recent_key_points self)
          else _recent_key_points self) self)).
Proof.
  intros kp. unfold _approve_speech. fold kp.
  destruct (Qltb (now - last_spoke_at a) (agent_cooldown_seconds cfg)) eqn:E1.
  { left. split; [|reflexivity]. left. now apply cooldown_active_iff. }
  destruct (Qltb 0 (global_speak_interval_seconds cfg)
            && Qltb (now - _last_global_speak_at self)
                    (global_speak_interval_seconds cfg)) eqn:E2.
  { left. split; [|reflexivity]. right; left.
    now apply global_interval_active_iff. }
  destruct ((0 <? max_total_ai_messages cfg)%Z
            && (max_total_ai_messages cfg <=? _total_ai_messages self)%Z)
    eqn:E3.
  { left. split; [|reflexivity]. right; right; left.
    now apply cap_reached_iff. }
  destruct (truthy kp && mem kp (_recent_key_points self)) eqn:E4.
  { left. split; [|reflexivity]. right; right; right.
    apply andb_true_iff in E4. destruct E4 as [E4 E5].
    split; [now apply truthy_true | now apply mem_In]. }
  right.
  split. { rewrite <- cooldown_active_iff. congruence. }
  split. { rewrite <- global_interval_active_iff. congruence. }
  split. { rewrite <- cap_reached_iff. congruence. }
  split; [|reflexivity].
  intros [Hne Hin]. apply truthy_true in Hne. apply mem_In in Hin.
  rewrite Hne, Hin in E4. discriminate.
Qed.

(** [settings.session] with the defaults of [SessionConfig]. *)
Definition default_config : SessionConfig :=
  {| agent_cooldown_seconds := 2; global_speak_interval_seconds := 3;
     silence_end_seconds := 15; max_total_ai_messages := 50;
     pause_timeout_seconds := 600 |}.

Definition agent_alice : AgentInfo :=
  {| id := u "a1"; nickname := u "Alice"; persona := u "curious";
     style := u "brief"; model_name := None |}.

Definition alice_state : AgentState :=
  {| info := agent_alice; last_spoke_at := 0;
     last_seen_message_version := 0 |}.

(** A comment without key points. *)
Definition comment_decision : AgentDecision :=
  {| action := COMMENT; reason := None; target_message_id := None;
     target_author_name := None; stance := None; key_points := None;
     confidence := None |}.

(** A comment with key points ["Pricing First"]. *)
Definition pricing_decision : AgentDecision :=
  {| action := COMMENT; reason := None; target_message_id := None;
     target_author_name := None; stance := None;
     key_points := Some (u " Pricing First ");
     confidence := None |}.




(** A decision without key points, or whose key points are blank,
    normalizes to the empty string. *)
Lemma normalized_key_points_absent d :
  key_points d = None -> normalized_key_points d = [].
Proof. unfold normalized_key_points. intros ->. reflexivity. Qed.

(** C10. For a decision whose key-point string is absent, or empty after
    trimming and lowercasing, [_approve_speech] rejects exactly on the
    three other conditions, never because of the buffer, whatever the
    buffer holds; it leaves the buffer as it is; and the same decision is
    approved again whenever the three other conditions let it through. *)
Theorem approve_speech_without_key_points cfg now a d self :
  key_points d = None \/ normalized_key_points d = [] ->
  let ok := fst (_approve_speech cfg now a d self) in
  let self' := snd (_approve_speech cfg now a d self) in
  (ok = false <->
     now - last_spoke_at a < agent_cooldown_seconds cfg
     \/ (0 < global_speak_interval_seconds cfg
         /\ now - _last_global_speak_at self
            < global_speak_interval_seconds cfg)
     \/ (0 < max_total_ai_messages cfg
         /\ max_total_ai_messages cfg <= _total_ai_messages self)%Z)
  /\ _recent_key_points self' = _recent_key_points self
  /\ (forall now' a',
        ~ now' - last_spoke_at a' < agent_cooldown_seconds cfg ->
        ~ (0 < global_speak_interval_seconds cfg
           /\ now' - _last_global_speak_at self'
              < global_speak_interval_seconds cfg) ->
        ~ (0 < max_total_ai_messages cfg
           /\ max_total_ai_messages cfg <= _total_ai_messages self')%Z ->
        fst (_approve_speech cfg now' a' d self') = true
        /\ _recent_key_points (snd (_approve_speech cfg now' a' d self'))
           = _recent_key_points self).
Proof.
  intros Hd ok self'.
  assert (Hkp : normalized_key_points d = []).
  { destruct Hd as [Hd|Hd]; [now apply normalized_key_points_absent | exact Hd]. }
  assert (Hrecent : _recent_key_points self' = _recent_key_points self).
  { subst self'.
    destruct (approve_speech_cases cfg now a d self)
      as [[_ ->] | (_ & _ & _ & _ & ->)]; [reflexivity|].
    rewrite Hkp. reflexivity. }
  split; [|split; [exact Hrecent|]].
  - subst ok.
    destruct (approve_speech_cases cfg now a d self)
      as [[Hc ->] | (H1 & H2 & H3 & H4 & ->)]; cbn [fst snd].
    + split; [intros _|reflexivity].
      destruct Hc as [H | [H | [H | [H _]]]]; auto.
      rewrite Hkp in H. now elim H.
    + split; [discriminate|].
      unfold cooldown_active, global_interval_active, cap_reached in *.
      tauto.
  - intros now' a' H1 H2 H3.
    destruct (approve_speech_cases cfg now' a' d self')
      as [[Hc ->] | (_ & _ & _ & _ & ->)]; cbn [fst snd].
    + exfalso.
      unfold cooldown_active, global_interval_active, cap_reached in *.
      destruct Hc as [H | [H | [H | [H _]]]]; auto.
    + rewrite Hkp. cbn. auto.
Qed.

(** A decision whose key points are blank. *)
Definition blank_key_points_decision : AgentDecision :=
  {| action := COMMENT; reason := None; target_message_id := None;
     target_author_name := None; stance := None;
     key_points := Some (u "   ");
     confidence := None |}.

Lemma approve_speech_without_key_points_witness :
  let r := _approve_speech default_config 10 alice_state
             blank_key_points_decision (new_orchestrator [agent_alice]) in
  fst r = true
  /\ _recent_key_points (snd r)
     = _recent_key_points (new_orchestrator [agent_alice]).
Proof.
  assert (Hd : key_points blank_key_points_decision = None
               \/ normalized_key_points blank_key_points_decision = [])
    by (right; vm_compute; reflexivity).
  destruct (approve_speech_without_key_points default_config 10 alice_state
              blank_key_points_decision (new_orchestrator [agent_alice]) Hd)
    as (_ & Hkeep & _).
  split; [vm_compute; reflexivity | exact Hkeep].
Defined.

End PacingProperties.

(* ================================================================== *)
(** * Properties of the reply stage *)
(* ================================================================== *)

Section ReplyStageProperties.

Import AgentReplyStage.

Variable env : AgentReplyStage.Env.
Variable message_id : str.
Variable info : AgentInfo.

Lemma bind_inv {A B} (m : M A) (k : A -> M B) st r st' :
  bind m k st = (r, st') ->
  (exists a st1, m st = (Ok a, st1) /\ k a st1 = (r, st'))
  \/ (exists e, m st = (Raise e, st') /\ r = Raise e).
Proof.
  unfold bind. destruct (m st) as [[a|e] st1]; intros H.
  - left. now exists a, st1.
  - right. exists e. injection H as <- <-. split; reflexivity.
Qed.

Lemma suspend_inv st r st' :
  suspend env st = (r, st') ->
  st' = count_await st
  /\ ((cancel_at env = Some (awaits st) /\ r = Raise CancelledError)
      \/ (cancel_at env <> Some (awaits st) /\ r = Ok tt)).
Proof.
  unfold suspend, cancel_here. intros H.
  destruct (cancel_at env) as [j|].
  - destruct (Nat.eqb_spec j (awaits st)) as [Heq|Hne];
      injection H as <- <-; split; try reflexivity.
    + left. split; [congruence | reflexivity].
    + right. split; [congruence | reflexivity].
  - injection H as <- <-. split; [reflexivity|]. right. split; [discriminate | reflexivity].
Qed.

Lemma emit_inv e st r st' :
  emit env e st = (r, st') ->
  (cancel_at env = Some (awaits st) /\ r = Raise CancelledError
   /\ st' = count_await st)
  \/ (cancel_at env <> Some (awaits st) /\ r = Ok tt
      /\ st' = record_effect (Emitted e) (count_await st)).
Proof.
  unfold emit. intros H. apply bind_inv in H.
  destruct H as [([] & st1 & H1 & H2) | (x & H1 & ->)];
    apply suspend_inv in H1; destruct H1 as [-> [[Hc Hr] | [Hc Hr]]];
    try discriminate.
  - right. injection H2 as <- <-. auto.
  - left. injection Hr as ->. auto.
Qed.

Lemma cancelled_events_app a b :
  cancelled_events (a ++ b) = cancelled_events a ++ cancelled_events b.
Proof.
  induction a as [|x a IH]; simpl; [reflexivity|].
  destruct x as [[]| |]; simpl; rewrite ?IH; reflexivity.
Qed.

Lemma error_events_app a b :
  error_events (a ++ b) = error_events a ++ error_events b.
Proof.
  induction a as [|x a IH]; simpl; [reflexivity|].
  destruct x as [[]| |]; simpl; rewrite ?IH; reflexivity.
Qed.

Lemma stream_calls_app a b :
  stream_calls (a ++ b) = stream_calls a ++ stream_calls b.
Proof.
  induction a as [|x a IH]; simpl; [reflexivity|].
  destruct x as [[]| |]; simpl; rewrite ?IH; reflexivity.
Qed.

Lemma deltas_app a b : deltas (a ++ b) = deltas a ++ deltas b.
Proof.
  induction a as [|x a IH]; simpl; [reflexivity|].
  destruct x as [[]| |]; simpl; rewrite ?IH; reflexivity.
Qed.

Lemma events_of_app a b : events_of (a ++ b) = events_of a ++ events_of b.
Proof.
  induction a as [|x a IH]; simpl; [reflexivity|].
  destruct x; simpl; rewrite ?IH; reflexivity.
Qed.

(** Effects that are neither a [message_cancelled] nor an [error] event. *)
Definition quiet (new : list effect) : Prop :=
  cancelled_events new = [] /\ error_events new = [].

(** Quiet effects that do not open a stream either. *)
Definition plain (new : list effect) : Prop :=
  quiet new /\ stream_calls new = [].

Definition closed (P : list effect -> Prop) : Prop :=
  P [] /\ forall a b, P a -> P b -> P (a ++ b).

Lemma quiet_closed : closed quiet.
Proof.
  split; [split; reflexivity|].
  intros a b [A1 A2] [B1 B2]. unfold quiet.
  rewrite cancelled_events_app, error_events_app, A1, A2, B1, B2.
  split; reflexivity.
Qed.

Lemma plain_closed : closed plain.
Proof.
  split; [split; [apply quiet_closed | reflexivity]|].
  intros a b [A1 A2] [B1 B2]. split; [now apply quiet_closed|].
  now rewrite stream_calls_app, A2, B2.
Qed.

(** The text accumulated is the text that went out as deltas. *)
Definition content_forwarded (st : rstate) : Prop :=
  full_content st = List.concat (deltas (effects st)).

Definition cancelled {A} (r : result A) : Prop :=
  match r with
  | Raise CancelledError => True
  | _ => False
  end.

(** What the pieces of the reply stage guarantee: suspension points are
    only counted up; the effects only grow, by effects in [P]; a
    cancellation comes from a suspension point of the piece; and unless the
    piece is cancelled, the text accumulated stays the text forwarded. *)
Definition Sound (P : list effect -> Prop) {A} (m : M A) : Prop :=
  forall st r st', m st = (r, st') ->
    (awaits st <= awaits st')%nat
    /\ (exists new, effects st' = effects st ++ new /\ P new)
    /\ (cancelled r ->
        exists k, cancel_at env = Some k
                  /\ (awaits st <= k < awaits st')%nat)
    /\ (content_forwarded st -> ~ cancelled r -> content_forwarded st').

Lemma Sound_weaken (P Q : list effect -> Prop) {A} (m : M A) :
  (forall l, P l -> Q l) -> Sound P m -> Sound Q m.
Proof.
  intros HPQ Hm st r st' H.
  destruct (Hm _ _ _ H) as (A1 & (n & A2 & A2') & A3 & A4).
  split; [assumption|]. split; [exists n; auto|]. split; assumption.
Qed.

Section Closure.
Variable P : list effect -> Prop.
Hypothesis P_closed : closed P.

Lemma Sound_pure {A} (r0 : result A) :
  ~ cancelled r0 -> Sound P (fun st => (r0, st)).
Proof.
  intros Hr st r st' H. injection H as <- <-.
  split; [lia|].
  split; [exists []; rewrite app_nil_r; split; [reflexivity | apply P_closed]|].
  split; [intros Hc; now elim Hr | auto].
Qed.

Lemma Sound_ret {A} (a : A) : Sound P (ret a).
Proof. apply Sound_pure. intros []. Qed.

Lemma Sound_raise_error {A} text : Sound P (@raise A (Error text)).
Proof. apply Sound_pure. intros []. Qed.

Lemma Sound_get : Sound P get.
Proof.
  intros st r st' H. injection H as <- <-.
  split; [lia|].
  split; [exists []; rewrite app_nil_r; split; [reflexivity | apply P_closed]|].
  split; [intros [] | auto].
Qed.

Lemma Sound_bind {A B} (m : M A) (k : A -> M B) :
  Sound P m -> (forall a, Sound P (k a)) -> Sound P (bind m k).
Proof.
  intros Hm Hk st r st' H.
  apply bind_inv in H. destruct H as [(a & st1 & H1 & H2) | (e & H1 & ->)].
  - destruct (Hm _ _ _ H1) as (A1 & (n1 & A2 & A2') & _ & A4).
    destruct (Hk a _ _ _ H2) as (B1 & (n2 & B2 & B2') & B3 & B4).
    split; [lia|].
    split.
    { exists (n1 ++ n2). rewrite B2, A2, app_assoc.
      split; [reflexivity | now apply P_closed]. }
    split.
    + intros Hr. destruct (B3 Hr) as (j & Hj & Hlt).
      exists j. split; [assumption | lia].
    + intros Hc Hr. apply B4; [|assumption].
      apply A4; [assumption | intros []].
  - destruct (Hm _ _ _ H1) as (A1 & A2 & A3 & A4).
    split; [assumption|]. split; [assumption|].
    split; [intros Hr; apply A3; destruct e; exact Hr|].
    intros Hc Hr. apply A4; [assumption|]. destruct e; exact Hr.
Qed.

(** A write to the local variables that leaves the effects, the count of
    suspension points and the text accumulated alone. *)
Definition silent_write (f : rstate -> rstate) : Prop :=
  forall st, effects (f st) = effects st /\ awaits (f st) = awaits st
             /\ full_content (f st) = full_content st.

Lemma Sound_modify f : silent_write f -> Sound P (modify f).
Proof.
  intros Hf st r st' H. injection H as <- <-.
  destruct (Hf st) as (E1 & E2 & E3).
  split; [lia|].
  split; [exists []; rewrite app_nil_r; split; [assumption | apply P_closed]|].
  split; [intros []|].
  unfold content_forwarded. now rewrite E1, E3.
Qed.

Lemma Sound_suspend : Sound P (suspend env).
Proof.
  intros st r st' H. apply suspend_inv in H.
  destruct H as [-> [[Hc ->] | [Hc ->]]]; cbn.
  - split; [lia|].
    split; [exists []; rewrite app_nil_r; split; [reflexivity | apply P_closed]|].
    split; [|intros _ Hr; now elim Hr].
    intros _. exists (awaits st). split; [assumption | lia].
  - split; [lia|].
    split; [exists []; rewrite app_nil_r; split; [reflexivity | apply P_closed]|].
    split; [intros [] | auto].
Qed.

End Closure.

Lemma silent_set_output_started : silent_write set_output_started.
Proof. intros st. repeat split. Qed.

Lemma silent_set_guard b s : silent_write (set_guard b s).
Proof. intros st. repeat split. Qed.

Lemma plain_single x :
  cancelled_events [x] = [] -> error_events [x] = [] ->
  stream_calls [x] = [] -> plain [x].
Proof. intros. repeat split; assumption. Qed.

Lemma Sound_sleep q : Sound plain (sleep env q).
Proof.
  intros st r st' H. unfold sleep in H.
  apply bind_inv in H. destruct H as [([] & st1 & H1 & H2) | (e & H1 & ->)].
  - destruct (Sound_suspend plain_closed _ H1) as (A1 & (n1 & A2 & A2') & _ & A4).
    injection H2 as <- <-. cbn.
    split; [lia|].
    split.
    { exists (n1 ++ [Slept q]). rewrite A2, app_assoc.
      split; [reflexivity|].
      apply plain_closed; [assumption | now apply plain_single]. }
    split; [intros []|].
    intros Hc _. unfold content_forwarded in *. cbn.
    rewrite deltas_app. cbn. rewrite app_nil_r.
    apply A4; [assumption | intros []].
  - destruct (Sound_suspend plain_closed _ H1) as (A1 & A2 & A3 & A4).
    split; [assumption|]. split; [assumption|].
    split; [intros Hr; apply A3; destruct e; exact Hr|].
    intros Hc Hr. apply A4; [assumption | destruct e; exact Hr].
Qed.

(** Appending text and sending it as a delta: lines 176-184, 188-196. *)
Lemma Sound_append_emit tok :
  Sound plain
    (modify (fun st => set_full_content (full_content st ++ tok) st) ;;
     emit env (message_delta message_id tok)).
Proof.
  intros st r st' H. apply bind_inv in H.
  destruct H as [([] & st1 & H1 & H2) | (e & H1 & ->)]; [|discriminate].
  injection H1 as <-. apply emit_inv in H2.
  destruct H2 as [(Hc & -> & ->) | (Hc & -> & ->)]; cbn.
  - split; [lia|].
    split; [exists []; rewrite app_nil_r; split; [reflexivity | apply plain_closed]|].
    split; [|intros _ Hr; now elim Hr].
    intros _. exists (awaits st). split; [assumption | lia].
  - split; [lia|].
    split; [eexists; split; [reflexivity | now apply plain_single]|].
    split; [intros []|].
    unfold content_forwarded. cbn. intros -> _.
    rewrite deltas_app, concat_app. cbn. now rewrite app_nil_r.
Qed.

Lemma Sound_forward tok : Sound plain (forward env message_id tok).
Proof.
  unfold forward. apply Sound_bind; [apply plain_closed | |intros _].
  - apply Sound_modify; [apply plain_closed | apply silent_set_output_started].
  - destruct (truthy tok); [apply Sound_append_emit|].
    apply Sound_ret, plain_closed.
Qed.

Lemma Sound_process_token name tok :
  Sound plain (process_token env message_id name tok).
Proof.
  unfold process_token.
  apply Sound_bind; [apply plain_closed | apply Sound_get, plain_closed |].
  intros st0.
  destruct (negb (mention_guard_resolved st0) && truthy name);
    [|apply Sound_forward].
  destruct (_consume_leading_duplicate_mention _ _) as [resolved out].
  apply Sound_bind; [apply plain_closed | |intros _].
  - apply Sound_modify; [apply plain_closed | apply silent_set_guard].
  - destruct (negb resolved); [apply Sound_ret, plain_closed|].
    apply Sound_forward.
Qed.

Lemma Sound_consume_stream name items :
  Sound plain (consume_stream env message_id name items).
Proof.
  induction items as [|[tok|text] rest IH]; cbn [consume_stream].
  - apply Sound_suspend, plain_closed.
  - apply Sound_bind; [apply plain_closed | apply Sound_suspend, plain_closed |].
    intros _.
    apply Sound_bind; [apply plain_closed | |intros _; exact IH].
    destruct (truthy tok);
      [apply Sound_process_token | apply Sound_ret, plain_closed].
  - apply Sound_bind; [apply plain_closed | apply Sound_suspend, plain_closed |].
    intros _. apply Sound_raise_error, plain_closed.
Qed.

Lemma Sound_flush_guard : Sound plain (flush_guard env message_id).
Proof.
  unfold flush_guard.
  apply Sound_bind; [apply plain_closed | apply Sound_get, plain_closed |].
  intros st0. cbv zeta.
  destruct (negb (mention_guard_resolved st0)
            && truthy (mention_guard_buffer st0));
    [|apply Sound_ret, plain_closed].
  apply Sound_bind; [apply plain_closed | |intros _].
  { apply Sound_modify; [apply plain_closed | apply silent_set_output_started]. }
  pose proof (Sound_append_emit (mention_guard_buffer st0)) as Hae.
  intros st r st' H.
  apply bind_inv in H. destruct H as [([] & st1 & H1 & H2) | (e & H1 & ->)];
    [|discriminate].
  apply bind_inv in H2. destruct H2 as [([] & st2 & H2 & H3) | (e & H2 & ->)].
  - assert (Hboth :
      (modify (fun st => set_full_content
                           (full_content st ++ mention_guard_buffer st0) st) ;;
       emit env (message_delta message_id (mention_guard_buffer st0))) st
      = (Ok tt, st2)).
    { unfold bind. rewrite H1. exact H2. }
    destruct (Hae _ _ _ Hboth) as (A1 & (n & A2 & A2') & A3 & A4).
    injection H3 as <- <-. cbn.
    split; [assumption|]. split; [exists n; auto|].
    split; [intros []|].
    intros Hc _. unfold content_forwarded in *. cbn.
    apply A4; [assumption | intros []].
  - assert (Hboth :
      (modify (fun st => set_full_content
                           (full_content st ++ mention_guard_buffer st0) st) ;;
       emit env (message_delta message_id (mention_guard_buffer st0))) st
      = (Raise e, st')).
    { unfold bind. rewrite H1. exact H2. }
    destruct (Hae _ _ _ Hboth) as (A1 & A2 & A3 & A4).
    split; [assumption|]. split; [assumption|].
    split; [intros Hr; apply A3; destruct e; exact Hr|].
    intros Hc Hr. apply A4; [assumption | destruct e; exact Hr].
Qed.

(** One attempt: lines 156-198. *)
Definition attempt_body (name : str) (attempt : nat) : M unit :=
  modify (record_effect (StreamOpened attempt)) ;;
  consume_stream env message_id name (streams env attempt) ;;
  flush_guard env message_id.

Lemma attempts_loop_unfold name remaining attempt st :
  attempts_loop env message_id name (S remaining) attempt st =
  match attempt_body name attempt st with
  | (Ok tt, st') => (Ok tt, st')
  | (Raise CancelledError, st') => (Raise CancelledError, st')
  | (Raise (Error text), st') =>
      if Common.is_transient_timeout_error text
         && no_output_yet st'
         && (attempt <? max_attempts - 1)%nat
      then (sleep env 1 ;;
            attempts_loop env message_id name remaining (S attempt)) st'
      else (Raise (Error text), st')
  end.
Proof. reflexivity. Qed.

(** The first [Exception] a stream raises, if it raises one. *)
Fixpoint first_failure (items : list stream_item) : option str :=
  match items with
  | [] => None
  | Fails text :: _ => Some text
  | Token _ :: rest => first_failure rest
  end.

Lemma Ok_not_Error {A} (m : M A) :
  (forall st r st', m st = (r, st') -> forall text, r <> Raise (Error text)) ->
  forall st st' text, m st <> (Raise (Error text), st').
Proof. intros H st st' text E. exact (H _ _ _ E text eq_refl). Qed.

Lemma emit_no_error e st st' text :
  emit env e st <> (Raise (Error text), st').
Proof.
  intros H. apply emit_inv in H.
  destruct H as [(_ & H & _) | (_ & H & _)]; discriminate.
Qed.

Lemma forward_no_error tok st st' text :
  forward env message_id tok st <> (Raise (Error text), st').
Proof.
  unfold forward. intros H.
  apply bind_inv in H. destruct H as [([] & st1 & H1 & H2) | (e & H1 & _)];
    [|discriminate].
  destruct (truthy tok); [|discriminate].
  apply bind_inv in H2. destruct H2 as [([] & st2 & H2 & H3) | (e & H2 & _)];
    [|discriminate].
  now apply emit_no_error in H3.
Qed.

Lemma process_token_no_error name tok st st' text :
  process_token env message_id name tok st <> (Raise (Error text), st').
Proof.
  unfold process_token. intros H.
  apply bind_inv in H. destruct H as [(st0 & st1 & H1 & H2) | (e & H1 & _)];
    [|discriminate].
  destruct (negb (mention_guard_resolved st0) && truthy name);
    [|now apply forward_no_error in H2].
  destruct (_consume_leading_duplicate_mention _ _) as [resolved out].
  apply bind_inv in H2. destruct H2 as [([] & st2 & H2 & H3) | (e & H2 & _)];
    [|discriminate].
  destruct (negb resolved); [discriminate|].
  now apply forward_no_error in H3.
Qed.

Lemma flush_guard_no_error st st' text :
  flush_guard env message_id st <> (Raise (Error text), st').
Proof.
  unfold flush_guard. intros H.
  apply bind_inv in H. destruct H as [(st0 & st1 & H1 & H2) | (e & H1 & _)];
    [|discriminate].
  cbv zeta in H2.
  destruct (negb (mention_guard_resolved st0)
            && truthy (mention_guard_buffer st0)); [|discriminate].
  apply bind_inv in H2. destruct H2 as [([] & st2 & H2 & H3) | (e & H2 & _)];
    [|discriminate].
  apply bind_inv in H3. destruct H3 as [([] & st3 & H3 & H4) | (e & H3 & _)];
    [|discriminate].
  apply bind_inv in H4. destruct H4 as [([] & st4 & H4 & H5) | (e & H4 & E)].
  - discriminate.
  - injection E as <-. now apply emit_no_error in H4.
Qed.

(** A stream raises the first [Exception] among its items. *)
Lemma consume_stream_error name items st st' text :
  consume_stream env message_id name items st = (Raise (Error text), st') ->
  first_failure items = Some text.
Proof.
  revert st. induction items as [|[tok|t] rest IH]; intros st H;
    cbn [consume_stream] in H.
  - apply suspend_inv in H. destruct H as [_ [[_ H] | [_ H]]]; discriminate.
  - apply bind_inv in H. destruct H as [([] & st1 & H1 & H2) | (e & H1 & E)].
    + apply bind_inv in H2.
      destruct H2 as [([] & st2 & H2 & H3) | (e & H2 & E)].
      * cbn. exact (IH _ H3).
      * injection E as <-. destruct (truthy tok); [|discriminate].
        now apply process_token_no_error in H2.
    + injection E as <-. apply suspend_inv in H1.
      destruct H1 as [_ [[_ H] | [_ H]]]; discriminate.
  - apply bind_inv in H. destruct H as [([] & st1 & H1 & H2) | (e & H1 & E)].
    + injection H2 as <- _. reflexivity.
    + injection E as <-. apply suspend_inv in H1.
      destruct H1 as [_ [[_ H] | [_ H]]]; discriminate.
Qed.

Lemma attempt_body_spec name attempt st r st' :
  attempt_body name attempt st = (r, st') ->
  (awaits st <= awaits st')%nat
  /\ (exists new,
        effects st' = effects st ++ StreamOpened attempt :: new /\ plain new)
  /\ (cancelled r ->
      exists k, cancel_at env = Some k /\ (awaits st <= k < awaits st')%nat)
  /\ (content_forwarded st -> ~ cancelled r -> content_forwarded st')
  /\ (forall text, r = Raise (Error text) ->
      first_failure (streams env attempt) = Some text).
Proof.
  unfold attempt_body. intros H.
  apply bind_inv in H. destruct H as [([] & st0 & H0 & H) | (e & H0 & _)];
    [|discriminate].
  injection H0 as <-.
  assert (Hs : Sound plain
                 (consume_stream env message_id name (streams env attempt) ;;
                  flush_guard env message_id)).
  { apply Sound_bind; [apply plain_closed | apply Sound_consume_stream |].
    intros _. apply Sound_flush_guard. }
  destruct (Hs _ _ _ H) as (A1 & (n & A2 & A2') & A3 & A4).
  cbn in A1, A2, A3.
  split; [assumption|].
  split; [exists n; rewrite A2, <- app_assoc; split; [reflexivity | assumption]|].
  split; [assumption|].
  split.
  - intros Hc Hr. apply A4; [|assumption].
    unfold content_forwarded in *. cbn. rewrite deltas_app. cbn.
    now rewrite app_nil_r.
  - intros text ->.
    apply bind_inv in H. destruct H as [([] & st1 & H1 & H2) | (e & H1 & E)].
    + now apply flush_guard_no_error in H2.
    + injection E as <-. exact (consume_stream_error _ _ _ H1).
Qed.

(** The streaming section, [max_attempts = 2]: either one stream is opened,
    or the first one raised a classified timeout while the text accumulated
    was blank, the back-off was slept and a second stream is opened. *)
Lemma attempts_loop_spec name st r st' :
  attempts_loop env message_id name max_attempts 0 st = (r, st') ->
  (awaits st <= awaits st')%nat
  /\ (cancelled r ->
      exists k, cancel_at env = Some k /\ (awaits st <= k < awaits st')%nat)
  /\ (content_forwarded st -> ~ cancelled r -> content_forwarded st')
  /\ ((exists new,
         effects st' = effects st ++ StreamOpened 0 :: new /\ plain new)
      \/ (exists n1 n2 text st1,
            effects st' = effects st ++ StreamOpened 0 :: n1
                          ++ Slept 1 :: StreamOpened 1 :: n2
            /\ plain n1 /\ plain n2
            /\ effects st1 = effects st ++ StreamOpened 0 :: n1
            /\ (content_forwarded st -> content_forwarded st1)
            /\ first_failure (streams env 0) = Some text
            /\ Common.is_transient_timeout_error text = true
            /\ no_output_yet st1 = true)).
Proof.
  unfold max_attempts. rewrite attempts_loop_unfold. intros H.
  destruct (attempt_body name 0 st) as [[[]|[|text]] st1] eqn:E1.
  - injection H as <- <-.
    destruct (attempt_body_spec _ _ _ E1) as (A1 & A2 & A3 & A4 & _).
    split; [assumption|]. split; [assumption|]. split; [assumption|].
    left. assumption.
  - injection H as <- <-.
    destruct (attempt_body_spec _ _ _ E1) as (A1 & A2 & A3 & A4 & _).
    split; [assumption|]. split; [assumption|]. split; [assumption|].
    left. assumption.
  - destruct (attempt_body_spec _ _ _ E1)
      as (A1 & (n1 & A2 & A2') & A3 & A4 & A5).
    specialize (A5 text eq_refl).
    destruct (Common.is_transient_timeout_error text) eqn:Et; cbn [andb] in H.
    2:{ injection H as <- <-.
        split; [assumption|]. split; [intros []|]. split; [assumption|].
        left. now exists n1. }
    destruct (no_output_yet st1) eqn:En; cbn [andb] in H.
    2:{ injection H as <- <-.
        split; [assumption|]. split; [intros []|]. split; [assumption|].
        left. now exists n1. }
    unfold max_attempts in H. cbn [Nat.sub Nat.ltb Nat.leb] in H.
    apply bind_inv in H. destruct H as [([] & st2 & H2 & H3) | (e & H2 & ->)].
    + destruct (Sound_sleep _ _ H2) as (B1 & (m & B2 & B2') & _ & B4).
      assert (Hm : m = [Slept 1]).
      { unfold sleep in H2. apply bind_inv in H2.
        destruct H2 as [([] & st3 & H4 & H5) | (e & H4 & E)]; [|discriminate].
        apply suspend_inv in H4. destruct H4 as [-> _].
        injection H5 as <-. cbn in B2.
        now apply app_inv_head in B2. }
      subst m.
      rewrite attempts_loop_unfold in H3.
      destruct (attempt_body name 1 st2) as [[[]|[|text2]] st3] eqn:E3;
        destruct (attempt_body_spec _ _ _ E3)
          as (C1 & (n2 & C2 & C2') & C3 & C4 & _).
      * injection H3 as <- <-.
        split; [lia|]. split; [intros []|].
        split.
        { intros Hc Hr. apply C4; [|intros []].
          apply B4; [|intros []]. apply A4; [assumption | intros []]. }
        right. exists n1, n2, text, st1.
        split.
        { rewrite C2, B2, A2. rewrite <- !app_assoc. reflexivity. }
        repeat split; try assumption; try apply A2'; try apply C2'.
        intros Hc. apply A4; [assumption | intros []].
      * injection H3 as <- <-.
        split; [lia|].
        split.
        { intros _. destruct (C3 I) as (k & Hk & Hlt).
          exists k. split; [assumption | lia]. }
        split; [intros _ Hr; now elim Hr|].
        right. exists n1, n2, text, st1.
        split.
        { rewrite C2, B2, A2. rewrite <- !app_assoc. reflexivity. }
        repeat split; try assumption; try apply A2'; try apply C2'.
        intros Hc. apply A4; [assumption | intros []].
      * assert (H3' : (Raise (Error text2), st3) = (r, st')).
        { destruct (Common.is_transient_timeout_error text2 && no_output_yet st3);
            exact H3. }
        injection H3' as <- <-.
        split; [lia|]. split; [intros []|].
        split.
        { intros Hc Hr. apply C4; [|intros []].
          apply B4; [|intros []]. apply A4; [assumption | intros []]. }
        right. exists n1, n2, text, st1.
        split.
        { rewrite C2, B2, A2. rewrite <- !app_assoc. reflexivity. }
        repeat split; try assumption; try apply A2'; try apply C2'.
        intros Hc. apply A4; [assumption | intros []].
    + destruct (Sound_sleep _ _ H2) as (B1 & (m & B2 & B2') & B3 & B4).
      assert (Hm : m = []).
      { unfold sleep in H2. apply bind_inv in H2.
        destruct H2 as [([] & st3 & H4 & H5) | (e' & H4 & E)]; [discriminate|].
        apply suspend_inv in H4. destruct H4 as [-> _].
        cbn in B2. rewrite <- (app_nil_r (effects st1)) in B2 at 1.
        now apply app_inv_head in B2. }
      subst m. rewrite app_nil_r in B2.
      split; [lia|].
      split.
      { intros Hr. destruct (B3 Hr) as (k & Hk & Hlt).
        exists k. split; [assumption | lia]. }
      split.
      { intros Hc Hr. apply B4; [|assumption].
        apply A4; [assumption | intros []]. }
      left. exists n1. rewrite B2. split; assumption.
Qed.

Lemma mention_prefix_blank name :
  blank (mention_prefix_of name) = true -> mention_prefix_of name = [].
Proof.
  unfold mention_prefix_of. destruct (truthy name); [|reflexivity].
  cbn. discriminate.
Qed.

Lemma blank_concat l :
  blank (List.concat l) = true -> Forall (fun tok => blank tok = true) l.
Proof.
  induction l as [|x l IH]; cbn; intros H; constructor;
    rewrite blank_app in H; apply andb_true_iff in H; destruct H; auto.
Qed.

Lemma no_output_yet_blank st :
  no_output_yet st = true <-> blank (full_content st) = true.
Proof.
  unfold no_output_yet. rewrite negb_true_iff, <- strip_nil_blank.
  destruct (strip (full_content st)); cbn; split; congruence.
Qed.

(** The part of the stage before the [try]: it can only end normally or
    cancelled; it opens no stream and emits no [cancelled] or [error]
    event; when it ends normally the text accumulated is the canonical
    prefix, which went out as a delta if it is not empty. *)
Lemma preamble_spec d r st1 :
  preamble env message_id info d initial_rstate = (r, st1) ->
  plain (effects st1)
  /\ (1 <= awaits st1)%nat
  /\ ((r = Ok tt
       /\ content_forwarded st1
       /\ full_content st1 = mention_prefix_of (mention_target d))
      \/ (r = Raise CancelledError
          /\ exists k, cancel_at env = Some k /\ (k < awaits st1)%nat)).
Proof.
  unfold preamble. intros H.
  apply bind_inv in H. destruct H as [([] & s1 & H1 & H) | (e & H1 & ->)];
    apply emit_inv in H1;
    destruct H1 as [(Hc & Hr & ->) | (Hc & Hr & ->)]; try discriminate.
  2:{ injection Hr as ->. cbn.
      split; [apply plain_closed|]. split; [lia|].
      right. split; [reflexivity|]. exists 0%nat. split; [assumption | lia]. }
  cbv zeta in H.
  apply bind_inv in H. destruct H as [([] & s2 & H2 & H) | (e & H2 & _)];
    [|discriminate].
  injection H2 as <-.
  destruct (truthy (mention_prefix_of (mention_target d))) eqn:Ep.
  - apply bind_inv in H. destruct H as [([] & s3 & H3 & H) | (e & H3 & ->)].
    + apply bind_inv in H3.
      destruct H3 as [([] & s4 & H4 & H5) | (e & H4 & _)]; [|discriminate].
      injection H4 as <-. apply emit_inv in H5.
      destruct H5 as [(_ & Hr5 & _) | (_ & _ & ->)]; [discriminate|].
      injection H as <- <-. cbn.
      split; [now apply (proj2 plain_closed [_] [_]); apply plain_single|].
      split; [lia|]. left. split; [reflexivity|].
      unfold content_forwarded. cbn. rewrite app_nil_r. split; reflexivity.
    + apply bind_inv in H3.
      destruct H3 as [([] & s4 & H4 & H5) | (e' & H4 & _)]; [|discriminate].
      injection H4 as <-. apply emit_inv in H5.
      destruct H5 as [(Hc5 & Hr5 & ->) | (_ & Hr5 & _)]; [|discriminate].
      injection Hr5 as ->. cbn.
      split; [now apply plain_single|]. split; [lia|].
      right. split; [reflexivity|]. exists 1%nat. split; [assumption | lia].
  - apply bind_inv in H. destruct H as [([] & s3 & H3 & H) | (e & H3 & _)];
      [|discriminate].
    injection H3 as <-. injection H as <- <-. cbn.
    split; [now apply plain_single|]. split; [lia|].
    left. split; [reflexivity|].
    apply truthy_false in Ep. unfold content_forwarded. cbn.
    rewrite Ep. split; reflexivity.
Qed.

(** How a run of [generate_agent_reply] ends, by the outcome of its
    preamble and of its streaming section. *)
Lemma generate_agent_reply_cases d :
  (exists st1,
     preamble env message_id info d initial_rstate = (Raise CancelledError, st1)
     /\ generate_agent_reply env message_id info d = (Raise CancelledError, st1))
  \/ (exists st1 r2 st2,
        preamble env message_id info d initial_rstate = (Ok tt, st1)
        /\ streaming env message_id d st1 = (r2, st2)
        /\ match r2 with
           | Ok _ =>
               generate_agent_reply env message_id info d
               = (Ok (message_id, full_content st2), st2)
           | Raise CancelledError =>
               generate_agent_reply env message_id info d
               = (Raise CancelledError,
                  record_effect
                    (Emitted (message_cancelled message_id (full_content st2)))
                    (count_await st2))
           | Raise (Error text) =>
               (cancel_at env = Some (awaits st2)
                /\ generate_agent_reply env message_id info d
                   = (Raise CancelledError, count_await st2))
               \/ (cancel_at env <> Some (awaits st2)
                   /\ generate_agent_reply env message_id info d
                      = (Ok (message_id, full_content st2),
                         record_effect
                           (Emitted (error_event message_id text))
                           (count_await st2)))
           end).
Proof.
  unfold generate_agent_reply.
  destruct (preamble env message_id info d initial_rstate) as [r st1] eqn:Ep.
  destruct (preamble_spec _ Ep)
    as (_ & _ & [(-> & _ & _) | (-> & _)]).
  2:{ left. now exists st1. }
  right. destruct (streaming env message_id d st1) as [r2 st2] eqn:Es.
  exists st1, r2, st2. split; [reflexivity|]. split; [exact Es|].
  destruct r2 as [[]|[|text]]; cbn [handlers].
  - reflexivity.
  - destruct (attempts_loop_spec _ _ Es) as (_ & A & _).
    destruct (A I) as (k & Hk & Hlt).
    unfold bind.
    destruct (emit env (message_cancelled message_id (full_content st2)) st2)
      as [re ste] eqn:Ee.
    apply emit_inv in Ee. destruct Ee as [(Hc & _) | (_ & -> & ->)].
    + rewrite Hk in Hc. injection Hc as ->. lia.
    + reflexivity.
  - unfold bind.
    destruct (emit env (error_event message_id text) st2) as [re ste] eqn:Ee.
    apply emit_inv in Ee. destruct Ee as [(Hc & -> & ->) | (Hc & -> & ->)].
    + left. split; [assumption | reflexivity].
    + right. split; [assumption | reflexivity].
Qed.

End ReplyStageProperties.

Section ReplyStageClaims.

Import AgentReplyStage Orchestrator.

Lemma plain_stream_calls l : plain l -> stream_calls l = [].
Proof. intros [_ H]. exact H. Qed.




(** C6, the claim as it stands fails: the first stream delivers a token of
    white space, which goes out as a delta, then raises a timeout; the
    stage sleeps its back-off and opens a second stream. *)
Definition whitespace_then_timeout : AgentReplyStage.Env :=
  {| streams := fun attempt =>
       match attempt with
       | O => [Token (u " "); Fails (u "Request timeout")]
       | _ => [Token (u "Sure.")]
       end;
     cancel_at := None |}.

Lemma retry_after_forwarded_delta :
  let run := generate_agent_reply whitespace_then_timeout (u "m1")
               agent_alice comment_decision in
  effects (snd run)
  = [ Emitted (message_started (u "m1") (u "a1"));
      StreamOpened 0;
      Emitted (message_delta (u "m1") (u " "));
      Slept 1;
      StreamOpened 1;
      Emitted (message_delta (u "m1") (u "Sure.")) ]
  /\ fst run = Ok (u "m1", u " Sure.").
Proof. vm_compute. split; reflexivity. Qed.

(** C6, amended. The reply stage opens its generation stream at most
    twice. It opens a second one only after the first raised an exception
    classified as a transient timeout while the text accumulated so far
    was empty or white space: there was no canonical mention prefix, and
    every delta forwarded before was white space. (A delta of white space
    does not prevent the retry.) *)
Theorem reply_retry_policy env message_id info d :
  let st := snd (generate_agent_reply env message_id info d) in
  (stream_calls (effects st) = []
   \/ stream_calls (effects st) = [0%nat]
   \/ stream_calls (effects st) = [0%nat; 1%nat])
  /\ (In 1%nat (stream_calls (effects st)) ->
      exists pre post text,
        effects st = pre ++ Slept 1 :: StreamOpened 1 :: post
        /\ stream_calls pre = [0%nat]
        /\ first_failure (streams env 0) = Some text
        /\ Common.is_transient_timeout_error text = true
        /\ mention_prefix_of (mention_target d) = []
        /\ Forall (fun tok => blank tok = true) (deltas pre)).
Proof.
  cbv zeta.
  destruct (generate_agent_reply_cases env message_id info d)
    as [(st1 & Hp & ->) | (st1 & r2 & st2 & Hp & Hs & Hg)]; cbn [snd].
  { destruct (preamble_spec _ _ _ _ Hp) as (Hpl & _).
    rewrite (plain_stream_calls Hpl). split; [now left | intros []]. }
  destruct (preamble_spec _ _ _ _ Hp)
    as (Hpl & _ & [(_ & Hcf & Hfull) | (Hr & _)]); [|discriminate].
  assert (Hend : exists tail,
             effects (snd (generate_agent_reply env message_id info d))
             = effects st2 ++ tail /\ stream_calls tail = []).
  { destruct r2 as [[]|[|text]].
    - rewrite Hg. exists []. now rewrite app_nil_r.
    - rewrite Hg. eexists. split; reflexivity.
    - destruct Hg as [[_ ->] | [_ ->]].
      + exists []. now rewrite app_nil_r.
      + eexists. split; reflexivity. }
  destruct Hend as (tail & -> & Htail).
  destruct (attempts_loop_spec _ _ _ _ Hs) as (_ & _ & _ & Hshape).
  destruct Hshape as [(n & -> & Hn)
                     | (n1 & n2 & text & sr & -> & H1 & H2 & Hsr & Hcr & Hff
                        & Htime & Hno)].
  - rewrite !stream_calls_app, (plain_stream_calls Hpl). cbn.
    rewrite (plain_stream_calls Hn), Htail. cbn.
    split; [right; now left|]. intros [H|[]]. discriminate.
  - rewrite !stream_calls_app, (plain_stream_calls Hpl). cbn.
    rewrite stream_calls_app, (plain_stream_calls H1). cbn.
    rewrite (plain_stream_calls H2), Htail. cbn.
    split; [right; now right|]. intros _.
    exists (effects st1 ++ StreamOpened 0 :: n1), (n2 ++ tail), text.
    assert (Hblank : blank (full_content sr) = true)
      by now apply no_output_yet_blank.
    specialize (Hcr Hcf). unfold content_forwarded in Hcr.
    rewrite Hsr in Hcr.
    split.
    { rewrite <- !app_assoc. cbn. rewrite <- !app_assoc. reflexivity. }
    split.
    { rewrite stream_calls_app, (plain_stream_calls Hpl). cbn.
      now rewrite (plain_stream_calls H1). }
    split; [assumption|]. split; [assumption|].
    rewrite Hcr in Hblank.
    split; [|now apply blank_concat].
    apply mention_prefix_blank. rewrite <- Hfull.
    unfold content_forwarded in Hcf. rewrite Hcf.
    rewrite deltas_app, concat_app, blank_app in Hblank.
    apply andb_true_iff in Hblank. apply Hblank.
Qed.

(** C2, the claim as it stands fails: a cancellation delivered while the
    stage awaits its first [emit] (or before the task ran at all) is
    re-raised without any [cancelled] event. *)
Definition cancelled_at_start : AgentReplyStage.Env :=
  {| streams := fun _ => [Token (u "Hello")]; cancel_at := Some 0%nat |}.









End ReplyStageClaims.

(* ================================================================== *)
(** * Properties of the mention filter *)
(* ================================================================== *)

Section MentionFilterProperties.

Import AgentReplyStage.

(** A run without cancellation whose stream is given item by item. *)
Definition uncancelled : AgentReplyStage.Env :=
  {| streams := fun _ => []; cancel_at := None |}.

(** Lines 150-197 for a stream that delivers the tokens [chunks] and ends:
    the text of the deltas forwarded after the canonical prefix. *)
Definition forwarded (target_name : str) (chunks : list str) : str :=
  let st0 := set_guard (negb (truthy target_name)) [] initial_rstate in
  let run :=
    (consume_stream uncancelled [] target_name (List.map Token chunks) ;;
     flush_guard uncancelled [])%nat st0 in
  List.concat (deltas (effects (snd run))).








Section Uncancelled.
Variable env : AgentReplyStage.Env.
Variable message_id : str.
Hypothesis no_cancel : cancel_at env = None.

Lemma suspend_uncancelled st : suspend env st = (Ok tt, count_await st).
Proof. unfold suspend. now rewrite no_cancel. Qed.

Lemma emit_uncancelled e st :
  emit env e st = (Ok tt, record_effect (Emitted e) (count_await st)).
Proof. unfold emit, bind. now rewrite suspend_uncancelled. Qed.

(** The text that went out as deltas. *)
Definition sent (st : rstate) : str := List.concat (deltas (effects st)).

Lemma forward_uncancelled tok st :
  exists st',
    forward env message_id tok st = (Ok tt, st')
    /\ sent st' = sent st ++ tok
    /\ mention_guard_resolved st' = mention_guard_resolved st
    /\ mention_guard_buffer st' = mention_guard_buffer st.
Proof.
  unfold forward, bind, mark_output_started, modify.
  destruct tok as [|c tok]; cbn [truthy].
  - eexists. split; [reflexivity|]. unfold sent. cbn.
    now rewrite app_nil_r.
  - rewrite emit_uncancelled. eexists. split; [reflexivity|].
    unfold sent. cbn. rewrite deltas_app, concat_app. cbn.
    now rewrite app_nil_r.
Qed.

Lemma consume_stream_resolved name chunks st :
  mention_guard_resolved st = true \/ truthy name = false ->
  exists st',
    consume_stream env message_id name (List.map Token chunks) st = (Ok tt, st')
    /\ sent st' = sent st ++ List.concat chunks
    /\ mention_guard_resolved st' = mention_guard_resolved st
    /\ mention_guard_buffer st' = mention_guard_buffer st.
Proof.
  revert st. induction chunks as [|tok rest IH]; intros st Hres;
    cbn [List.map consume_stream].
  - rewrite suspend_uncancelled. eexists. split; [reflexivity|].
    unfold sent. cbn. now rewrite app_nil_r.
  - unfold bind at 1. rewrite suspend_uncancelled.
    destruct (truthy tok) eqn:Et.
    + unfold bind at 1. unfold process_token, bind at 1, get.
      assert (Hg : negb (mention_guard_resolved (count_await st))
                   && truthy name = false).
      { cbn. destruct Hres as [-> | ->]; [reflexivity | apply andb_false_r]. }
      rewrite Hg.
      destruct (forward_uncancelled tok (count_await st))
        as (st1 & -> & S1 & R1 & B1).
      destruct (IH st1) as (st2 & -> & S2 & R2 & B2).
      { cbn in R1. rewrite R1. exact Hres. }
      exists st2. split; [reflexivity|].
      rewrite S2, S1, R2, R1, B2, B1. cbn. unfold sent. cbn.
      now rewrite <- app_assoc.
    + apply truthy_false in Et. subst tok. unfold bind at 1, ret.
      destruct (IH (count_await st)) as (st2 & -> & S2 & R2 & B2);
        [exact Hres|].
      exists st2. split; [reflexivity|]. now rewrite S2, R2, B2.
Qed.


End Uncancelled.

Lemma flush_guard_uncancelled env message_id st :
  cancel_at env = None ->
  exists st',
    flush_guard env message_id st = (Ok tt, st')
    /\ sent st'
       = if negb (mention_guard_resolved st) && truthy (mention_guard_buffer st)
         then sent st ++ mention_guard_buffer st
         else sent st.
Proof.
  intros Hc. unfold flush_guard, bind at 1, get. cbv zeta.
  destruct (negb (mention_guard_resolved st)
            && truthy (mention_guard_buffer st)).
  - unfold bind, mark_output_started, modify.
    rewrite (emit_uncancelled env Hc).
    eexists. split; [reflexivity|].
    unfold sent. cbn. rewrite deltas_app, concat_app. cbn.
    now rewrite app_nil_r.
  - eexists. split; reflexivity.
Qed.




Definition stream_of (chunks : list str) : AgentReplyStage.Env :=
  {| streams := fun _ => List.map Token chunks; cancel_at := None |}.


End MentionFilterProperties.

(* ================================================================== *)
(** * Properties of the lifecycle monitor *)
(* ================================================================== *)

Section LifecycleProperties.

Import AgentReplyStage Orchestrator.

(** The session has been paused for at least the pause timeout, which is
    positive. *)
Definition pause_timeout_elapsed (cfg : SessionConfig) (now : Q)
           (self : SessionOrchestrator) : Prop :=
  _generation_paused self = true
  /\ (0 < pause_timeout_seconds cfg)%Z
  /\ exists since,
       _paused_since self = Some since
       /\ inject_Z (pause_timeout_seconds cfg) <= now - since.

(** The session is not paused, nothing was appended for the silence
    timeout, no generation is in flight and no decision is pending. *)
Definition silence_timeout_elapsed (cfg : SessionConfig) (now : Q)
           (self : SessionOrchestrator) : Prop :=
  _generation_paused self = false
  /\ inject_Z (silence_end_seconds cfg) <= now - _last_activity_at self
  /\ _generation_tasks self = []
  /\ _pending_decisions self = 0%Z.

(** The tick ended the session with reason [why]. *)
Definition ends_session (why : str) (r : SessionOrchestrator * bool) : Prop :=
  snd r = true
  /\ _ended (fst r) = true
  /\ _end_reason (fst r) = Some why
  /\ exists before, emitted (fst r) = before ++ [session_ended why].

Lemma shutdown_ends why now self :
  _ended self = false ->
  ends_session why (shutdown why true now self, true).
Proof.
  intros H. unfold ends_session, shutdown. rewrite H. cbn.
  repeat split. now exists (emitted self).
Qed.

(** C8. On a tick of the monitor of a session that has not ended, the
    conditions are checked in this order and the first that holds ends the
    session: the cap on agent messages (a positive cap, reached) with
    reason [max_total_ai_messages]; else paused for a positive pause
    timeout, with reason [pause_timeout]; else not paused, silent for the
    silence timeout, no generation in flight and no decision pending, with
    reason [silence_timeout]; when none holds the tick changes nothing and
    the loop goes on. In particular, with a cap of 3, the tick that follows
    the append of the third agent message ends the session with reason
    [max_total_ai_messages]. *)
Theorem monitor_tick_order cfg now self :
  _ended self = false ->
  let r := monitor_tick cfg now self in
  (cap_reached cfg self -> ends_session (u "max_total_ai_messages") r)
  /\ (~ cap_reached cfg self -> pause_timeout_elapsed cfg now self ->
      ends_session (u "pause_timeout") r)
  /\ (~ cap_reached cfg self -> ~ pause_timeout_elapsed cfg now self ->
      silence_timeout_elapsed cfg now self ->
      ends_session (u "silence_timeout") r)
  /\ (~ cap_reached cfg self -> ~ pause_timeout_elapsed cfg now self ->
      ~ silence_timeout_elapsed cfg now self ->
      r = (self, false))
  /\ (forall env message_id t i a d tick,
        max_total_ai_messages cfg = 3%Z ->
        _total_ai_messages self = 2%Z ->
        fst (_generate_reply env message_id t i a d self) = Ok message_id ->
        ends_session (u "max_total_ai_messages")
          (monitor_tick cfg tick
             (snd (_generate_reply env message_id t i a d self)))).
Proof.
  intros Hend. cbv zeta.
  assert (Hcap : forall o tick, _ended o = false -> cap_reached cfg o ->
            ends_session (u "max_total_ai_messages") (monitor_tick cfg tick o)).
  { intros o tick Ho Hc. unfold monitor_tick.
    apply cap_reached_iff in Hc. rewrite Hc. now apply shutdown_ends. }
  split; [now apply Hcap|].
  assert (Hncap : ~ cap_reached cfg self ->
            (0 <? max_total_ai_messages cfg)%Z
            && (max_total_ai_messages cfg <=? _total_ai_messages self)%Z
            = false).
  { intros Hn. rewrite <- cap_reached_iff in Hn.
    now destruct ((0 <? max_total_ai_messages cfg)%Z
                  && (max_total_ai_messages cfg <=? _total_ai_messages self)%Z). }
  split; [|split; [|split]].
  - intros Hn (Hp & Hpos & since & Hs & Hle).
    unfold monitor_tick. rewrite (Hncap Hn), Hp.
    apply Z.ltb_lt in Hpos. rewrite Hpos, Hs.
    apply Qle_bool_iff in Hle. rewrite Hle. now apply shutdown_ends.
  - intros Hn _ (Hp & Hle & Hg & Hd).
    unfold monitor_tick. rewrite (Hncap Hn), Hp.
    apply Qle_bool_iff in Hle. rewrite Hle, Hg, Hd. cbn.
    now apply shutdown_ends.
  - intros Hn Hnp Hns. unfold monitor_tick. rewrite (Hncap Hn).
    destruct (_generation_paused self) eqn:Hp.
    + destruct (0 <? pause_timeout_seconds cfg)%Z eqn:Hpos; [|reflexivity].
      destruct (_paused_since self) as [since|] eqn:Hs; [|reflexivity].
      destruct (Qle_bool (inject_Z (pause_timeout_seconds cfg)) (now - since))
        eqn:Hle; [|reflexivity].
      exfalso. apply Hnp. split; [assumption|].
      split; [now apply Z.ltb_lt|].
      exists since. split; [assumption | now apply Qle_bool_iff].
    + destruct (Qle_bool (inject_Z (silence_end_seconds cfg))
                         (now - _last_activity_at self)) eqn:Hle;
        [|reflexivity].
      destruct (_generation_tasks self) eqn:Hg; [|reflexivity].
      destruct (_pending_decisions self =? 0)%Z eqn:Hd; [|reflexivity].
      exfalso. apply Hns. split; [assumption|].
      split; [now apply Qle_bool_iff|].
      split; [assumption | now apply Z.eqb_eq].
  - intros env message_id t i a d tick Hmax Htot Hok.
    unfold _generate_reply in *.
    destruct (generate_agent_reply env message_id (info a) d)
      as [[[mid content]|e] st]; cbn in Hok; [|discriminate].
    apply Hcap; cbn; [assumption|].
    unfold cap_reached. cbn. rewrite Hmax, Htot. lia.
Qed.

(** The third agent message of a session capped at 3. *)
Definition capped_at_three : SessionConfig :=
  {| agent_cooldown_seconds := 2; global_speak_interval_seconds := 3;
     silence_end_seconds := 15; max_total_ai_messages := 3;
     pause_timeout_seconds := 600 |}.

Definition two_spoken : SessionOrchestrator :=
  with_total 2 (with_started true 1 (new_orchestrator [agent_alice])).

Lemma monitor_tick_order_witness :
  ends_session (u "max_total_ai_messages")
    (monitor_tick capped_at_three 21
       (snd (_generate_reply (stream_of [u "Done."]) (u "m3") 20 0
               alice_state comment_decision two_spoken))).
Proof.
  assert (Hend : _ended two_spoken = false) by reflexivity.
  destruct (monitor_tick_order capped_at_three 0 two_spoken Hend)
    as (_ & _ & _ & _ & H).
  apply H; vm_compute; reflexivity.
Defined.

End LifecycleProperties.

(* ================================================================== *)
(** * Properties of the scheduler *)
(* ================================================================== *)

Section SchedulerProperties.

Import AgentReplyStage Orchestrator Scheduler.

Lemma nth_error_update_nth_eq {A} (f : A -> A) l i :
  nth_error (update_nth i f l) i = option_map f (nth_error l i).
Proof.
  revert i. induction l as [|x l IH]; intros [|i]; cbn; auto.
Qed.

Lemma nth_error_update_nth_neq {A} (f : A -> A) l i j :
  i <> j -> nth_error (update_nth i f l) j = nth_error l j.
Proof.
  revert i j. induction l as [|x l IH]; intros [|i] [|j] H; cbn; auto;
    congruence.
Qed.

Lemma map_update_nth {A B} (g : A -> B) (f : A -> A) l i :
  (forall x, g (f x) = g x) ->
  List.map g (update_nth i f l) = List.map g l.
Proof.
  intros H. revert i. induction l as [|x l IH]; intros [|i]; cbn;
    rewrite ?H, ?IH; reflexivity.
Qed.

Lemma nth_error_map_const {A B} (b : B) (l : list A) i x :
  nth_error (List.map (fun _ => b) l) i = Some x -> x = b.
Proof.
  revert i. induction l as [|y l IH]; intros [|i]; cbn; try discriminate.
  - congruence.
  - apply IH.
Qed.

Definition is_generating (p : pc) : bool :=
  match p with Generating _ _ => true | _ => false end.

(** No worker starts generating between [w] and [w']. *)
Definition no_new_generation (w w' : list pc) : Prop :=
  forall i d t,
    nth_error w' i = Some (Generating d t) ->
    nth_error w i = Some (Generating d t).

Lemma no_new_generation_refl w : no_new_generation w w.
Proof. intros i d t H. exact H. Qed.

Lemma no_new_generation_set w i p :
  is_generating p = false ->
  no_new_generation w (update_nth i (fun _ => p) w).
Proof.
  intros Hp j d t H. destruct (Nat.eq_dec i j) as [->|Hne].
  - rewrite nth_error_update_nth_eq in H.
    destruct (nth_error w j); cbn in H; [|discriminate].
    injection H as ->. discriminate.
  - now rewrite nth_error_update_nth_neq in H.
Qed.

Lemma no_new_generation_const w p :
  is_generating p = false ->
  no_new_generation w (List.map (fun _ => p) w).
Proof.
  intros Hp j d t H. apply nth_error_map_const in H. subst p. discriminate.
Qed.

(** What the pieces do to the agents and to the log. *)
Lemma finally_fold_frame (w : list pc) o :
  let o' := fold_left
              (fun o p => match p with Deciding => decision_finally o | _ => o end)
              w o in
  agents o' = agents o /\ messages o' = messages o
  /\ _message_version o' = _message_version o.
Proof.
  revert o. induction w as [|p w IH]; intros o; cbn; [auto|].
  destruct (IH (match p with Deciding => decision_finally o | _ => o end))
    as (A1 & A2 & A3).
  rewrite A1, A2, A3. destruct p; auto.
Qed.

Lemma shutdown_frame why ev now o :
  agents (shutdown why ev now o) = agents o
  /\ messages (shutdown why ev now o) = messages o
  /\ _message_version (shutdown why ev now o) = _message_version o.
Proof.
  unfold shutdown. destruct (_ended o); [auto|].
  destruct ev; cbn; auto.
Qed.

Lemma monitor_tick_frame cfg now o :
  agents (fst (monitor_tick cfg now o)) = agents o
  /\ messages (fst (monitor_tick cfg now o)) = messages o
  /\ _message_version (fst (monitor_tick cfg now o)) = _message_version o.
Proof.
  unfold monitor_tick.
  repeat match goal with
         | |- context [if ?c then _ else _] => destruct c
         | |- context [match ?c with Some _ => _ | None => _ end] => destruct c
         end; cbn [fst]; auto using shutdown_frame.
Qed.

Lemma start_runtime_frame now o :
  agents (start_runtime now o) = agents o
  /\ messages (start_runtime now o) = messages o
  /\ _message_version (start_runtime now o) = _message_version o.
Proof.
  unfold start_runtime. destruct (_runtime_started o || _ended o); cbn; auto.
Qed.

Lemma stop_frame force now o :
  agents (stop force now o) = agents o
  /\ messages (stop force now o) = messages o
  /\ _message_version (stop force now o) = _message_version o.
Proof. unfold stop. destruct force; cbn; auto. Qed.

Lemma approve_speech_frame cfg now a d o :
  agents (snd (_approve_speech cfg now a d o)) = agents o
  /\ messages (snd (_approve_speech cfg now a d o)) = messages o
  /\ _message_version (snd (_approve_speech cfg now a d o))
     = _message_version o
  /\ (fst (_approve_speech cfg now a d o) = true ->
      ~ cooldown_active cfg now a).
Proof.
  destruct (approve_speech_cases cfg now a d o)
    as [[_ ->] | (H1 & _ & _ & _ & ->)]; cbn; repeat split; auto.
  discriminate.
Qed.

Lemma generate_reply_frame env message_id now i a d o :
  let out := _generate_reply env message_id now i a d o in
  match fst out with
  | Ok _ =>
      agents (snd out) = update_nth i (set_last_spoke_at now) (agents o)
      /\ exists msg,
           messages (snd out) = messages (add_message msg o)
           /\ _message_version (snd out) = _message_version (add_message msg o)
  | Raise _ =>
      agents (snd out) = agents o
      /\ messages (snd out) = messages o
      /\ _message_version (snd out) = _message_version o
  end.
Proof.
  cbv zeta. unfold _generate_reply.
  destruct (generate_agent_reply env message_id (info a) d)
    as [[[mid content]|e] st]; cbn; [|auto].
  split; [reflexivity|]. eexists. split; reflexivity.
Qed.

(** Case analysis on the piece a label runs. *)
Local Ltac break_step H :=
  repeat match type of H with
         | context [match ?x with _ => _ end] => destruct x eqn:?
         end;
  try discriminate.

Definition log_unchanged (o o' : SessionOrchestrator) : Prop :=
  messages o' = messages o /\ _message_version o' = _message_version o.

Definition log_appended (o o' : SessionOrchestrator) : Prop :=
  exists msg,
    messages o' = messages (add_message msg o)
    /\ _message_version o' = _message_version (add_message msg o).

Definition observed (o : SessionOrchestrator) (a a' : AgentState) : Prop :=
  info a' = info a
  /\ (last_seen_message_version a' = last_seen_message_version a
      \/ ((last_seen_message_version a < _message_version o)%Z
          /\ last_seen_message_version a' = _message_version o)).

Lemma Forall2_same {A} (R : A -> A -> Prop) l :
  (forall x, R x x) -> Forall2 R l l.
Proof. intros H. induction l; constructor; auto. Qed.

Lemma Forall2_update_nth {A} (R : A -> A -> Prop) f l i :
  (forall x, R x x) ->
  (forall x, nth_error l i = Some x -> R x (f x)) ->
  Forall2 R l (update_nth i f l).
Proof.
  intros Hr. revert i. induction l as [|x l IH]; intros [|i] H; cbn;
    constructor; auto using Forall2_same.
Qed.

Lemma observed_refl o a : observed o a a.
Proof. split; auto. Qed.

Lemma wait_frame timed_out i o b o' :
  _wait_for_new_message timed_out i o = (b, o') ->
  messages o' = messages o /\ _message_version o' = _message_version o
  /\ _ended o' = _ended o
  /\ (agents o' = agents o
      \/ (timed_out = false /\ _ended o = false
          /\ agents o'
             = update_nth i (set_last_seen (_message_version o)) (agents o))).
Proof.
  unfold _wait_for_new_message. intros H.
  destruct timed_out; [injection H as <- <-; auto|].
  destruct (_ended o) eqn:E; injection H as <- <-; cbn; auto.
  repeat split; auto.
Qed.

Lemma framed o o' :
  agents o' = agents o -> messages o' = messages o ->
  _message_version o' = _message_version o ->
  (log_unchanged o o' \/ log_appended o o')
  /\ Forall2 (observed o) (agents o) (agents o').
Proof.
  intros -> H1 H2. split; [left; split; assumption|].
  apply Forall2_same, observed_refl.
Qed.

Local Ltac frame_facts :=
  repeat match goal with
  | E : monitor_tick ?c ?n ?o = (_, _) |- _ =>
      let F := fresh "F" in
      pose proof (monitor_tick_frame c n o) as F; rewrite E in F;
      cbn [fst] in F; destruct F as (? & ? & ?); clear E
  | E : _approve_speech ?c ?n ?a ?d ?o = (_, _) |- _ =>
      let F := fresh "F" in
      pose proof (approve_speech_frame c n a d o) as F; rewrite E in F;
      cbn [fst snd] in F; destruct F as (? & ? & ? & ?); clear E
  | E : _generate_reply ?e ?m ?n ?i ?a ?d ?o = (_, _) |- _ =>
      let F := fresh "F" in
      pose proof (generate_reply_frame e m n i a d o) as F; cbv zeta in F;
      rewrite E in F; cbn [fst snd] in F; clear E
  | E : _wait_for_new_message ?t ?i ?o = (_, _) |- _ =>
      let F := fresh "F" in
      pose proof (@wait_frame _ _ _ _ _ E) as F;
      destruct F as (? & ? & ? & ?); clear E
  end.

Local Ltac wait_case :=
  let G := fresh "G" in
  let G1 := fresh "G" in
  let x := fresh "x" in
  let Hx := fresh "Hx" in
  match goal with
  | F : agents _ = agents _ \/ _ |- _ => destruct F as [G | (-> & G1 & G)]
  end;
  [ apply framed; cbn; congruence
  | split; [left; split; cbn; congruence|];
    cbn [agents with_pending]; rewrite G;
    apply Forall2_update_nth; [apply observed_refl|];
    intros x Hx; split; [reflexivity|]; right;
    cbn [last_seen_message_version set_last_seen];
    split; [|reflexivity];
    match goal with
    | Ha : nth_error _ _ = Some ?a, Hb : negb false && _ = false |- _ =>
        rewrite Hx in Ha; injection Ha as <-; rewrite G1 in Hb; cbn in Hb;
        apply negb_false_iff in Hb; now apply Z.ltb_lt
    end ].

Lemma step_log cfg l s s' :
  step cfg l s = Some s' ->
  (log_unchanged (orch s) (orch s') \/ log_appended (orch s) (orch s'))
  /\ Forall2 (observed (orch s)) (agents (orch s)) (agents (orch s')).
Proof.
  intros H. destruct l; unfold step, at_time in H; break_step H;
    injection H as <-; cbn [orch set_orch set_worker set_workers set_clock
                            log_approval log_spoken start_workers
                            workers_cancelled workers];
    frame_facts.
  all: try (apply framed; reflexivity).
  all: try (apply framed; cbn; congruence).
  all: try (apply framed; first [apply start_runtime_frame | apply stop_frame]).
  all: try (split; [right; eexists; split; reflexivity
                   | apply Forall2_same, observed_refl]).
  all: try (match goal with
            | |- context [fold_left ?f ?w ?o] =>
                destruct (finally_fold_frame w o) as (? & ? & ?)
            end;
            try match goal with
            | |- context [shutdown ?w ?e ?n ?o] =>
                destruct (shutdown_frame w e n o) as (? & ? & ?)
            end;
            apply framed; cbn; congruence).
  all: try wait_case.
  all: try (destruct F as (Fa & Fm & Fv); apply framed; cbn; congruence).
  all: destruct F as (Fa & msg & Fm & Fv).
  all: split; [right; exists msg; cbn; split; assumption|].
  all: cbn; rewrite Fa; apply Forall2_update_nth; [apply observed_refl|].
  all: intros x Hx; split; [reflexivity | left; reflexivity].
Qed.

Definition last_spoke_times (o : SessionOrchestrator) : list Q :=
  List.map last_spoke_at (agents o).

Inductive transition (cfg : SessionConfig) (s s' : System) : Prop :=
| tr_neutral :
    approvals s' = approvals s -> spoken s' = spoken s ->
    last_spoke_times (orch s') = last_spoke_times (orch s) ->
    no_new_generation (workers s) (workers s') ->
    transition cfg s s'
| tr_approved i d a :
    nth_error (agents (orch s)) i = Some a ->
    ~ cooldown_active cfg (clock s') a ->
    approvals s' = approvals s ++ [(i, clock s')] ->
    spoken s' = spoken s ->
    last_spoke_times (orch s') = last_spoke_times (orch s) ->
    workers s' = update_nth i (fun _ => Generating d (clock s')) (workers s) ->
    transition cfg s s'
| tr_spoke i d t :
    nth_error (workers s) i = Some (Generating d t) ->
    approvals s' = approvals s ->
    spoken s' = spoken s ++ [(i, t)] ->
    agents (orch s')
    = update_nth i (set_last_spoke_at (clock s')) (agents (orch s)) ->
    nth_error (agents (orch s)) i <> None ->
    no_new_generation (workers s) (workers s') ->
    transition cfg s s'.

Local Ltac neutral_case :=
  apply tr_neutral;
  cbn [approvals spoken orch workers set_orch set_worker set_workers
       set_clock log_approval log_spoken start_workers workers_cancelled];
  [ reflexivity
  | reflexivity
  | unfold last_spoke_times;
    try match goal with
        | |- context [fold_left ?f ?w ?o] =>
            destruct (finally_fold_frame w o) as (? & ? & ?)
        end;
    try match goal with
        | |- context [shutdown ?w ?e ?n ?o] =>
            destruct (shutdown_frame w e n o) as (? & ? & ?)
        end;
    try match goal with
        | |- context [start_runtime ?n ?o] =>
            destruct (start_runtime_frame n o) as (? & ? & ?)
        end;
    try match goal with
        | |- context [stop ?f ?n ?o] =>
            destruct (stop_frame f n o) as (? & ? & ?)
        end;
    try match goal with
        | F : agents _ = agents _ \/ _ |- _ =>
            let G := fresh "G" in
            destruct F as [G | (_ & _ & G)];
            [| cbn; rewrite G; rewrite map_update_nth by reflexivity]
        end;
    try match goal with
        | F : agents _ = agents _ /\ _ |- _ => destruct F as (? & ? & ?)
        end;
    cbn; congruence
  | first [ apply no_new_generation_refl
          | apply no_new_generation_set; reflexivity
          | apply no_new_generation_const; reflexivity ] ].

Lemma step_transition cfg l s s' :
  step cfg l s = Some s' ->
  clock s <= clock s' /\ transition cfg s s'.
Proof.
  intros H. destruct l; unfold step, at_time in H; break_step H;
    injection H as <-;
    (split;
     [ cbn [clock set_orch set_worker set_workers set_clock log_approval
            log_spoken start_workers workers_cancelled];
       first [apply Qle_refl | now apply Qle_bool_iff] |]);
    frame_facts.
  all: try (neutral_case; fail).
  - apply (@tr_approved cfg _ _ i decision a); cbn; auto.
    + apply H2. now destruct b.
    + unfold last_spoke_times. cbn. now rewrite H.
  - destruct F as (Fa & _).
    apply (@tr_spoke cfg _ _ i decision approved_at); cbn; auto.
    + congruence.
    + apply no_new_generation_set. reflexivity.
Qed.

Lemma exec_reachable cfg infos ls s s' :
  reachable cfg infos s -> exec cfg ls s = Some s' -> reachable cfg infos s'.
Proof.
  revert s. induction ls as [|l ls IH]; intros s Hr H; cbn in H.
  - injection H as <-. exact Hr.
  - destruct (step cfg l s) as [s1|] eqn:E; [|discriminate].
    apply (IH s1); [|exact H]. exact (@reach_step cfg infos s l s1 Hr E).
Qed.

(** The log invariant: the version counts the messages, and no agent has
    observed a version the log has not reached. *)
Definition log_inv (o : SessionOrchestrator) : Prop :=
  _message_version o = Z.of_nat (List.length (messages o))
  /\ Forall (fun a => (last_seen_message_version a <= _message_version o)%Z)
            (agents o).

Lemma log_inv_initial infos : log_inv (new_orchestrator infos).
Proof.
  split; [reflexivity|]. cbn. induction infos; constructor; cbn; auto; lia.
Qed.

Lemma log_step_version o o' :
  log_unchanged o o' \/ log_appended o o' ->
  (_message_version o <= _message_version o')%Z.
Proof.
  intros [[_ ->] | (msg & _ & ->)]; cbn; lia.
Qed.

Lemma log_inv_step cfg l s s' :
  log_inv (orch s) -> step cfg l s = Some s' -> log_inv (orch s').
Proof.
  intros [Hv Ha] H. destruct (@step_log cfg l s s' H) as [Hlog Hobs].
  pose proof (@log_step_version _ _ Hlog) as Hle.
  split.
  - destruct Hlog as [[-> ->] | (msg & -> & ->)]; [exact Hv|].
    cbn. rewrite length_app, Hv. cbn. lia.
  - revert Ha Hobs. generalize (agents (orch s')).
    induction (agents (orch s)) as [|a rest IH]; intros l' Ha Hobs;
      inversion Hobs; subst; constructor.
    + inversion Ha; subst.
      match goal with Ho : observed _ _ _ |- _ => destruct Ho as [_ [E | [_ E]]] end;
        rewrite E; lia.
    + inversion Ha; subst. now apply IH.
Qed.

Lemma reachable_log_inv cfg infos s :
  reachable cfg infos s -> log_inv (orch s).
Proof.
  induction 1 as [|s l s' _ IH H]; [apply log_inv_initial|].
  exact (@log_inv_step cfg l s s' IH H).
Qed.

(** C9. In every state the scheduler reaches, the version of the log is
    the number of messages appended. A step either leaves the messages and
    the version as they are, or it is an [add_message]: one message more at
    the end and the version one higher; nothing else changes the log, and
    the version never goes back. The version an agent worker last observed
    never goes back either, and never runs ahead of the log. *)
Theorem log_version_monotonic cfg infos s l s' :
  reachable cfg infos s ->
  step cfg l s = Some s' ->
  let o := orch s in
  let o' := orch s' in
  _message_version o = Z.of_nat (List.length (messages o))
  /\ _message_version o' = Z.of_nat (List.length (messages o'))
  /\ ((messages o' = messages o /\ _message_version o' = _message_version o)
      \/ (exists msg,
            messages o' = messages (add_message msg o)
            /\ messages o' = messages o ++ [msg]
            /\ _message_version o' = (_message_version o + 1)%Z
            /\ (_message_version o < _message_version o')%Z))
  /\ (_message_version o <= _message_version o')%Z
  /\ Forall2
       (fun a a' =>
          info a' = info a
          /\ (last_seen_message_version a <= last_seen_message_version a')%Z
          /\ (last_seen_message_version a' <= _message_version o')%Z)
       (agents o) (agents o').
Proof.
  intros Hr H. cbv zeta.
  pose proof (@reachable_log_inv cfg infos s Hr) as [Hv Ha].
  pose proof (@log_inv_step cfg l s s' (conj Hv Ha) H) as [Hv' Ha'].
  destruct (@step_log cfg l s s' H) as [Hlog Hobs].
  pose proof (@log_step_version _ _ Hlog) as Hle.
  split; [exact Hv|]. split; [exact Hv'|].
  split.
  { destruct Hlog as [Hu | (msg & Hm & Hvm)]; [left; exact Hu|].
    right. exists msg. cbn in Hm, Hvm. rewrite Hvm.
    repeat split; try assumption; lia. }
  split; [exact Hle|].
  revert Ha Ha' Hobs. generalize (agents (orch s')).
  induction (agents (orch s)) as [|a rest IH]; intros l' Ha Ha' Hobs;
    inversion Hobs; subst; constructor.
  - inversion Ha; subst. inversion Ha'; subst.
    match goal with
    | Ho : observed _ _ _ |- _ => destruct Ho as [Hi [E | [Hlt E]]]
    end; (split; [exact Hi|]); split; try assumption; rewrite E; lia.
  - inversion Ha; subst. inversion Ha'; subst. now apply IH.
Qed.

Definition hello : ChatMessage :=
  {| m_id := u "u1"; m_author_type := u "user"; m_author_id := None;
     m_author_name := u "user"; m_content := u "Hello";
     m_target_message_id := None; m_target_author_name := None |}.

Lemma log_version_monotonic_witness :
  match step default_config (AddMessage hello 5) (initial [agent_alice]) with
  | Some s' => _message_version (orch s') = 1%Z
  | None => False
  end.
Proof.
  destruct (step default_config (AddMessage hello 5) (initial [agent_alice]))
    as [s'|] eqn:E; [|vm_compute in E; discriminate].
  destruct (@log_version_monotonic default_config [agent_alice]
              (initial [agent_alice]) (AddMessage hello 5) s'
              (reach_initial default_config [agent_alice]) E)
    as (_ & -> & _).
  vm_compute in E. injection E as <-. reflexivity.
Defined.

Lemma last_spoke_times_nth o o' i a' :
  last_spoke_times o' = last_spoke_times o ->
  nth_error (agents o') i = Some a' ->
  exists a, nth_error (agents o) i = Some a
            /\ last_spoke_at a = last_spoke_at a'.
Proof.
  unfold last_spoke_times. intros E H.
  assert (H' : nth_error (List.map last_spoke_at (agents o)) i
               = Some (last_spoke_at a')).
  { rewrite <- E, nth_error_map, H. reflexivity. }
  rewrite nth_error_map in H'.
  destruct (nth_error (agents o) i) as [a|]; [|discriminate].
  exists a. split; [reflexivity|]. cbn in H'. congruence.
Qed.

(** What the history records have to do with the pacing state. *)
Record pacing_inv (cfg : SessionConfig) (s : System) : Prop := {
  approvals_past :
    forall i t, In (i, t) (approvals s) -> t <= clock s;
  last_spoke_past :
    forall i a, nth_error (agents (orch s)) i = Some a ->
                last_spoke_at a <= clock s;
  spoken_recorded :
    forall i t, In (i, t) (spoken s) ->
                exists a, nth_error (agents (orch s)) i = Some a
                          /\ t <= last_spoke_at a;
  spoken_approved :
    forall i t, In (i, t) (spoken s) -> In (i, t) (approvals s);
  generating_latest :
    forall i d t, nth_error (workers s) i = Some (Generating d t) ->
                  t <= clock s
                  /\ In (i, t) (approvals s)
                  /\ forall t2, In (i, t2) (approvals s) -> t2 <= t;
  spacing :
    forall i t1 t2, In (i, t1) (spoken s) -> In (i, t2) (approvals s) ->
                    t1 < t2 -> agent_cooldown_seconds cfg <= t2 - t1
}.

Lemma pacing_inv_initial cfg infos : pacing_inv cfg (initial infos).
Proof.
  constructor; cbn; try contradiction.
  - intros i a H. apply nth_error_In, in_map_iff in H.
    destruct H as (x & <- & _). cbn. apply Qle_refl.
  - intros i d t H. apply nth_error_map_const in H. discriminate.
Qed.

Lemma pacing_inv_step cfg s s' :
  pacing_inv cfg s -> clock s <= clock s' -> transition cfg s s' ->
  pacing_inv cfg s'.
Proof.
  intros [I1 I2 I3 I6 I4 I5] Hclock
         [Ha Hs Hl Hw
         | i d a Hnth Hcool Ha Hs Hl Hw
         | i d t Hgen Ha Hs Hag Hsome Hw].
  - (* nothing approved, nothing spoken *)
    constructor; rewrite ?Ha, ?Hs.
    + intros j t H. specialize (I1 j t H). lra.
    + intros j a' H.
      destruct (last_spoke_times_nth _ _ _ Hl H) as (a & Hn & <-).
      specialize (I2 j a Hn). lra.
    + intros j t H. destruct (I3 j t H) as (a & Hn & Hle).
      destruct (last_spoke_times_nth _ _ j (eq_sym Hl) Hn) as (a' & Hn' & E).
      exists a'. split; [exact Hn'|]. rewrite E. exact Hle.
    + exact I6.
    + intros j d t H. destruct (I4 j d t (Hw j d t H)) as (A & B & C).
      split; [lra|]. split; assumption.
    + exact I5.
  - (* an approval for agent [i] at the new clock reading *)
    constructor; rewrite ?Ha, ?Hs.
    + intros j t H. apply in_app_or in H. destruct H as [H | [H | []]].
      * specialize (I1 j t H). lra.
      * injection H as _ <-. apply Qle_refl.
    + intros j a' H.
      destruct (last_spoke_times_nth _ _ _ Hl H) as (a0 & Hn & <-).
      specialize (I2 j a0 Hn). lra.
    + intros j t H. destruct (I3 j t H) as (a0 & Hn & Hle).
      destruct (last_spoke_times_nth _ _ j (eq_sym Hl) Hn) as (a' & Hn' & E).
      exists a'. split; [exact Hn'|]. rewrite E. exact Hle.
    + intros j t H. apply in_or_app. left. now apply I6.
    + intros j d0 t H. rewrite Hw in H.
      destruct (Nat.eq_dec i j) as [->|Hne].
      * rewrite nth_error_update_nth_eq in H.
        destruct (nth_error (workers s) j); cbn in H; [|discriminate].
        injection H as _ <-.
        split; [apply Qle_refl|].
        split; [apply in_or_app; right; left; reflexivity|].
        intros t2 H2. apply in_app_or in H2. destruct H2 as [H2 | [H2 | []]].
        -- specialize (I1 j t2 H2). lra.
        -- injection H2 as <-. apply Qle_refl.
      * rewrite nth_error_update_nth_neq in H by exact Hne.
        destruct (I4 j d0 t H) as (A & B & C).
        split; [lra|]. split; [apply in_or_app; now left|].
        intros t2 H2. apply in_app_or in H2. destruct H2 as [H2 | [H2 | []]].
        -- now apply C.
        -- injection H2 as E _. contradiction.
    + intros j t1 t2 H1 H2 Hlt. apply in_app_or in H2.
      destruct H2 as [H2 | [H2 | []]]; [now apply (I5 j)|].
      injection H2 as <- <-.
      destruct (I3 i t1 H1) as (a0 & Hn & Hle).
      rewrite Hnth in Hn. injection Hn as <-.
      unfold cooldown_active in Hcool.
      apply Qnot_lt_le in Hcool. lra.
  - (* the generation of agent [i], approved at [t], appended its message *)
    constructor; rewrite ?Ha, ?Hs.
    + intros j t0 H. specialize (I1 j t0 H). lra.
    + intros j a' H. rewrite Hag in H.
      destruct (Nat.eq_dec i j) as [->|Hne].
      * rewrite nth_error_update_nth_eq in H.
        destruct (nth_error (agents (orch s)) j); cbn in H; [|discriminate].
        injection H as <-. cbn. apply Qle_refl.
      * rewrite nth_error_update_nth_neq in H by exact Hne.
        specialize (I2 j a' H). lra.
    + intros j t0 H. rewrite Hag. apply in_app_or in H.
      destruct (I4 i d t Hgen) as (A & B & C).
      destruct (Nat.eq_dec i j) as [->|Hne].
      * rewrite nth_error_update_nth_eq.
        destruct (nth_error (agents (orch s)) j) as [a|] eqn:En;
          [|contradiction].
        exists (set_last_spoke_at (clock s') a). split; [reflexivity|]. cbn.
        destruct H as [H | [H | []]].
        -- destruct (I3 j t0 H) as (a0 & Hn & Hle).
           rewrite En in Hn. injection Hn as <-.
           specialize (I2 j a En). lra.
        -- injection H as <-. lra.
      * rewrite nth_error_update_nth_neq by exact Hne.
        destruct H as [H | [H | []]]; [now apply I3|].
        injection H as E _. contradiction.
    + intros j t0 H. apply in_app_or in H.
      destruct H as [H | [H | []]]; [now apply I6|].
      injection H as <- <-. apply (I4 i d t Hgen).
    + intros j d0 t0 H. destruct (I4 j d0 t0 (Hw j d0 t0 H)) as (A & B & C).
      split; [lra|]. split; assumption.
    + intros j t1 t2 H1 H2 Hlt. apply in_app_or in H1.
      destruct H1 as [H1 | [H1 | []]]; [now apply (I5 j)|].
      injection H1 as <- <-.
      destruct (I4 i d t Hgen) as (_ & _ & C).
      specialize (C t2 H2). lra.
Qed.

Lemma reachable_pacing_inv cfg infos s :
  reachable cfg infos s -> pacing_inv cfg s.
Proof.
  induction 1 as [|s l s' _ IH H]; [apply pacing_inv_initial|].
  destruct (@step_transition cfg l s s' H) as [Hc Ht].
  exact (@pacing_inv_step cfg s s' IH Hc Ht).
Qed.

(** A configuration without global interval: cooldown 2 s. *)
Definition cooldown_only : SessionConfig :=
  {| agent_cooldown_seconds := 2; global_speak_interval_seconds := 0;
     silence_end_seconds := 15; max_total_ai_messages := 50;
     pause_timeout_seconds := 600 |}.

Definition hello_again : ChatMessage :=
  {| m_id := u "u2"; m_author_type := u "user"; m_author_id := None;
     m_author_name := u "user"; m_content := u "Wait";
     m_target_message_id := None; m_target_author_name := None |}.

(** A user message wakes the worker, which decides and is approved at
    10 s; a second user message arrives at 10.2 s and cancels the
    generation, which had no output yet; the worker decides again and is
    approved at 10.5 s. *)
Definition interrupted_then_approved : list label :=
  handle_new_message hello 9
  ++ [ WorkerWait 0 false;
       WorkerDecided 0 (Ok comment_decision);
       WorkerApprove 0 10 ]
  ++ handle_new_message hello_again (51 # 5)
  ++ [ WorkerGenerated 0 cancelled_at_start (u "m1") (103 # 10);
       WorkerWait 0 false;
       WorkerDecided 0 (Ok comment_decision);
       WorkerApprove 0 (21 # 2) ].

(** C5, the claim as it stands fails: with a cooldown of 2 s and no global
    interval, the same agent is approved at 10 s and again at 10.5 s, the
    generation in between having been cancelled. *)
Lemma approvals_within_cooldown_after_cancel :
  option_map approvals
    (exec cooldown_only interrupted_then_approved (initial [agent_alice]))
  = Some [(0%nat, 10); (0%nat, 21 # 2)]
  /\ (21 # 2) - 10 < agent_cooldown_seconds cooldown_only.
Proof. split; [vm_compute; reflexivity | reflexivity]. Qed.

(** C5, amended. For every pacing configuration and every execution of
    the scheduler whose clock readings do not go back: an approval for an
    agent that comes after an approval for the same agent whose generation
    appended its message is at least [agent_cooldown_seconds] later. (The
    last-spoken time is written when the message is appended; after a
    cancelled generation nothing separates the next approval from the
    previous one.) Every generation that appended its message was started
    by a recorded approval. *)
Theorem approvals_respect_cooldown cfg infos s i t1 t2 :
  reachable cfg infos s ->
  In (i, t1) (spoken s) ->
  In (i, t2) (approvals s) ->
  t1 < t2 ->
  In (i, t1) (approvals s)
  /\ agent_cooldown_seconds cfg <= t2 - t1.
Proof.
  intros Hr H1 H2 Hlt.
  destruct (@reachable_pacing_inv cfg infos s Hr) as [_ _ _ I6 _ I5].
  split; [now apply I6 | now apply (I5 i)].
Qed.

(** The worker speaks at 11 s, having been approved at 10 s, and is
    approved again at 14 s. *)
Definition spoke_then_approved : list label :=
  handle_new_message hello 9
  ++ [ WorkerWait 0 false;
       WorkerDecided 0 (Ok pricing_decision);
       WorkerApprove 0 10;
       WorkerGenerated 0 (stream_of [u "Start with pricing."]) (u "m1") 11;
       WorkerWait 0 false;
       WorkerDecided 0 (Ok comment_decision);
       WorkerApprove 0 14 ].

Lemma approvals_respect_cooldown_witness :
  agent_cooldown_seconds default_config <= 14 - 10.
Proof.
  assert (E : exists s,
             exec default_config spoke_then_approved (initial [agent_alice])
             = Some s
             /\ In (0%nat, 10) (spoken s) /\ In (0%nat, 14) (approvals s)).
  { eexists. split; [vm_compute; reflexivity|].
    split; cbn; auto. }
  destruct E as (s & E & H1 & H2).
  assert (Hr : reachable default_config [agent_alice] s).
  { exact (@exec_reachable default_config [agent_alice] spoke_then_approved
             (initial [agent_alice]) s
             (reach_initial default_config [agent_alice]) E). }
  assert (Hlt : 10 < 14) by reflexivity.
  exact (proj2 (@approvals_respect_cooldown default_config [agent_alice] s
                  0%nat 10 14 Hr H1 H2 Hlt)).
Defined.

End SchedulerProperties.

(* ================================================================== *)
(** * Invariants of the scheduler *)
(* ================================================================== *)

Section SchedulerInvariants.

Import AgentReplyStage Orchestrator Scheduler.

(** Case analysis on the piece a label runs, down to the branches of the
    orchestrator's methods. *)
Local Ltac open_step H :=
  unfold step, at_time, _wait_for_new_message, _generate_reply,
    _approve_speech, monitor_tick, shutdown, start_runtime, stop in H;
  repeat first
    [ match goal with
      | E : (_, _) = (_, _) |- _ => inversion E; clear E; subst
      end
    | match goal with
      | E : context [match ?x with _ => _ end] |- _ => destruct x eqn:?
      end ];
  try discriminate;
  injection H as <-.

(** The [finally] blocks of the cancelled workers only touch the count of
    pending decisions. *)
Definition same_but_pending (o o' : SessionOrchestrator) : Prop :=
  o' = with_pending (_pending_decisions o') o.

Lemma with_pending_idem v w o :
  with_pending v (with_pending w o) = with_pending v o.
Proof. reflexivity. Qed.

Lemma finally_fold_same (w : list pc) o :
  same_but_pending o
    (fold_left
       (fun o p => match p with Deciding => decision_finally o | _ => o end)
       w o).
Proof.
  revert o. induction w as [|p w IH]; intros o; cbn.
  - destruct o; reflexivity.
  - specialize (IH (match p with Deciding => decision_finally o | _ => o end)).
    unfold same_but_pending in *. rewrite IH at 1.
    destruct p; try reflexivity.
Qed.

(** ** The pause flag and the pause time go together *)

Definition pause_inv (o : SessionOrchestrator) : Prop :=
  (_generation_paused o = true /\ _paused_since o <> None)
  \/ (_generation_paused o = false /\ _paused_since o = None).

Local Ltac fold_case :=
  match goal with
  | |- context [fold_left ?f ?w ?o] =>
      let E := fresh "Efold" in
      pose proof (finally_fold_same w o) as E;
      unfold same_but_pending in E; rewrite E
  end.

Lemma pause_inv_step cfg l s s' :
  pause_inv (orch s) -> step cfg l s = Some s' -> pause_inv (orch s').
Proof.
  intros Hinv H. unfold pause_inv in *.
  destruct l; open_step H;
    cbn [orch set_orch set_worker set_workers set_clock log_approval
         log_spoken start_workers workers_cancelled workers];
    try fold_case; cbn; intuition congruence.
Qed.

Lemma reachable_pause_inv cfg infos s :
  reachable cfg infos s -> pause_inv (orch s).
Proof.
  induction 1 as [|s l s' _ IH H]; [right; split; reflexivity|].
  exact (@pause_inv_step cfg l s s' IH H).
Qed.

(** ** Counting the workers at a program point *)

Definition is_deciding (p : pc) : bool :=
  match p with Deciding => true | _ => false end.

Definition count_if (f : pc -> bool) (w : list pc) : nat :=
  List.length (filter f w).

Lemma count_if_update f w i p q :
  nth_error w i = Some p ->
  (count_if f (update_nth i (fun _ => q) w) + (if f p then 1 else 0)
   = count_if f w + (if f q then 1 else 0))%nat.
Proof.
  unfold count_if. revert i. induction w as [|x w IH]; intros [|i] H;
    cbn in *; try discriminate.
  - injection H as ->. destruct (f p), (f q); cbn; lia.
  - specialize (IH i H). destruct (f x); cbn; lia.
Qed.

Lemma count_if_const {A} f (w : list A) q :
  f q = false -> count_if f (List.map (fun _ => q) w) = 0%nat.
Proof.
  intros Hq. unfold count_if. induction w; cbn; [reflexivity|].
  now rewrite Hq.
Qed.

Lemma count_if_le f w : (count_if f w <= List.length w)%nat.
Proof. unfold count_if. apply filter_length_le. Qed.

Lemma length_update_nth {A} (f : A -> A) l i :
  List.length (update_nth i f l) = List.length l.
Proof.
  revert i. induction l as [|x l IH]; intros [|i]; cbn; auto.
Qed.

Lemma finally_fold_pending (w : list pc) o :
  (0 <= _pending_decisions o)%Z ->
  _pending_decisions
    (fold_left
       (fun o p => match p with Deciding => decision_finally o | _ => o end)
       w o)
  = Z.max 0 (_pending_decisions o - Z.of_nat (count_if is_deciding w)).
Proof.
  revert o. induction w as [|p w IH]; intros o Ho; cbn.
  - lia.
  - rewrite IH.
    + unfold count_if. destruct p; cbn; lia.
    + destruct p; cbn; lia.
Qed.

(** ** The counters of the monitor and the workers' program points *)

Definition quiescent (p : pc) : Prop := p = NotStarted \/ p = Exited.

Record busy_inv (s : System) : Prop := {
  pending_counts :
    _pending_decisions (orch s)
    = Z.of_nat (count_if is_deciding (workers s));
  tasks_generating :
    forall i, In i (_generation_tasks (orch s))
              <-> exists d t, nth_error (workers s) i = Some (Generating d t);
  quiescent_before_start :
    _runtime_started (orch s) = false ->
    forall i p, nth_error (workers s) i = Some p -> quiescent p
}.

Lemma generating_update w i p q j :
  nth_error w i = Some p ->
  (exists d t, nth_error (update_nth i (fun _ => q) w) j
               = Some (Generating d t))
  <-> ((j = i /\ is_generating q = true)
       \/ (j <> i /\ exists d t, nth_error w j = Some (Generating d t))).
Proof.
  intros Hp. destruct (Nat.eq_dec i j) as [->|Hne].
  - rewrite nth_error_update_nth_eq, Hp. cbn. split.
    + intros (d & t & E). injection E as ->. left. split; reflexivity.
    + intros [[_ Hq] | [Hne _]]; [|contradiction].
      destruct q; try discriminate. eauto.
  - rewrite nth_error_update_nth_neq by exact Hne. split.
    + intros H. right. split; [congruence | exact H].
    + intros [[E _] | [_ H]]; [congruence | exact H].
Qed.

Lemma busy_keep s s' :
  busy_inv s ->
  workers s' = workers s ->
  _pending_decisions (orch s') = _pending_decisions (orch s) ->
  _generation_tasks (orch s') = _generation_tasks (orch s) ->
  (_runtime_started (orch s') = false -> _runtime_started (orch s) = false) ->
  busy_inv s'.
Proof.
  intros [Hp Ht Hq] Hw Hpe Hta Hst.
  constructor; rewrite ?Hw, ?Hpe, ?Hta; auto.
  intros E. exact (Hq (Hst E)).
Qed.

Lemma busy_move s s' i p q :
  busy_inv s ->
  nth_error (workers s) i = Some p ->
  is_generating p = false -> is_generating q = false ->
  workers s' = update_nth i (fun _ => q) (workers s) ->
  (_pending_decisions (orch s') + (if is_deciding p then 1 else 0)
   = _pending_decisions (orch s) + (if is_deciding q then 1 else 0))%Z ->
  _generation_tasks (orch s') = _generation_tasks (orch s) ->
  _runtime_started (orch s') = _runtime_started (orch s) ->
  (_runtime_started (orch s) = false -> quiescent q) ->
  busy_inv s'.
Proof.
  intros [Hp Ht Hq] Hnth Hgp Hgq Hw Hpe Hta Hst Hqq.
  pose proof (@count_if_update is_deciding _ i _ q Hnth) as Hc.
  constructor; rewrite ?Hw, ?Hta.
  - destruct (is_deciding p), (is_deciding q); lia.
  - intros j. rewrite (@generating_update _ _ _ q j Hnth), Hgq, Ht.
    split.
    + intros H. right. split; [|exact H].
      intros ->. destruct H as (d & t & E). rewrite Hnth in E.
      injection E as ->. discriminate.
    + intros [[_ E] | [_ H]]; [discriminate | exact H].
  - rewrite Hst. intros Hs j r Hr.
    destruct (Nat.eq_dec i j) as [->|Hne].
    + rewrite nth_error_update_nth_eq, Hnth in Hr. injection Hr as <-. auto.
    + rewrite nth_error_update_nth_neq in Hr by exact Hne. eauto.
Qed.

Lemma busy_start_generation s s' i p d t :
  busy_inv s ->
  nth_error (workers s) i = Some p ->
  is_generating p = false -> is_deciding p = false ->
  _runtime_started (orch s) = true ->
  workers s' = update_nth i (fun _ => Generating d t) (workers s) ->
  _pending_decisions (orch s') = _pending_decisions (orch s) ->
  _generation_tasks (orch s') = i :: _generation_tasks (orch s) ->
  _runtime_started (orch s') = true ->
  busy_inv s'.
Proof.
  intros [Hp Ht Hq] Hnth Hgp Hdp Hs Hw Hpe Hta Hst.
  pose proof (@count_if_update is_deciding _ i _ (Generating d t) Hnth) as Hc.
  rewrite Hdp in Hc. cbn in Hc.
  constructor; rewrite ?Hw, ?Hta, ?Hpe.
  - rewrite Hp. lia.
  - intros j. rewrite (@generating_update _ _ _ (Generating d t) j Hnth).
    cbn [In is_generating]. rewrite Ht. split.
    + intros [E | H]; [left; split; [congruence | reflexivity]|].
      destruct (Nat.eq_dec j i); [left; split; [assumption | reflexivity]|].
      right. split; assumption.
    + intros [[E _] | [_ H]]; [left; congruence | right; exact H].
  - rewrite Hst. discriminate.
Qed.

Lemma busy_end_generation s s' i q d t :
  busy_inv s ->
  nth_error (workers s) i = Some (Generating d t) ->
  is_generating q = false -> is_deciding q = false ->
  _runtime_started (orch s) = true ->
  workers s' = update_nth i (fun _ => q) (workers s) ->
  _pending_decisions (orch s') = _pending_decisions (orch s) ->
  _generation_tasks (orch s') = remove_task i (_generation_tasks (orch s)) ->
  _runtime_started (orch s') = true ->
  busy_inv s'.
Proof.
  intros [Hp Ht Hq] Hnth Hgq Hdq Hs Hw Hpe Hta Hst.
  pose proof (@count_if_update is_deciding _ i _ q Hnth) as Hc.
  rewrite Hdq in Hc. cbn in Hc.
  constructor; rewrite ?Hw, ?Hta, ?Hpe.
  - rewrite Hp. lia.
  - intros j. rewrite (@generating_update _ _ _ q j Hnth), Hgq.
    unfold remove_task. rewrite filter_In, Ht, negb_true_iff, Nat.eqb_neq.
    split.
    + intros [H Hne]. right. split; assumption.
    + intros [[_ E] | [Hne H]]; [discriminate | split; assumption].
  - rewrite Hst. discriminate.
Qed.

Lemma busy_workers_cancelled s s0 :
  busy_inv s ->
  workers s0 = workers s ->
  _pending_decisions (orch s0) = _pending_decisions (orch s) ->
  busy_inv (workers_cancelled s0).
Proof.
  intros [Hp Ht Hq] Hw Hpe.
  constructor; unfold workers_cancelled;
    cbn [orch workers set_workers set_orch with_generation_tasks
         _pending_decisions _generation_tasks _runtime_started].
  - rewrite finally_fold_pending by lia.
    rewrite count_if_const by reflexivity. rewrite Hw, Hpe, Hp. lia.
  - intros j. split; [intros []|].
    intros (d & t & E). apply nth_error_map_const in E. discriminate.
  - intros _ j p E. apply nth_error_map_const in E. right. exact E.
Qed.

Lemma quiescent_count w :
  (forall i p, nth_error w i = Some p -> quiescent p) ->
  count_if is_deciding w = 0%nat.
Proof.
  unfold count_if. induction w as [|x w IH]; intros H; [reflexivity|].
  cbn. destruct (H 0%nat x eq_refl) as [-> | ->]; cbn;
    apply IH; intros i p Hp; exact (H (S i) p Hp).
Qed.

Lemma busy_all_idle s s' :
  busy_inv s ->
  _runtime_started (orch s) = false ->
  workers s' = List.map (fun _ => Idle) (workers s) ->
  _pending_decisions (orch s') = _pending_decisions (orch s) ->
  _generation_tasks (orch s') = _generation_tasks (orch s) ->
  _runtime_started (orch s') = true ->
  busy_inv s'.
Proof.
  intros [Hp Ht Hq] Hs Hw Hpe Hta Hst.
  constructor; rewrite ?Hw, ?Hta, ?Hpe.
  - rewrite count_if_const by reflexivity.
    rewrite Hp, (quiescent_count _ (Hq Hs)). reflexivity.
  - intros j. rewrite Ht. split.
    + intros (d & t & E). destruct (Hq Hs j _ E); discriminate.
    + intros (d & t & E). apply nth_error_map_const in E. discriminate.
  - rewrite Hst. discriminate.
Qed.

Lemma busy_pending_pos s i :
  busy_inv s -> nth_error (workers s) i = Some Deciding ->
  (1 <= _pending_decisions (orch s))%Z.
Proof.
  intros [Hp _ _] Hnth.
  pose proof (@count_if_update is_deciding _ i _ Idle Hnth) as Hc.
  cbn in Hc. lia.
Qed.

Lemma busy_inv_step cfg l s s' :
  busy_inv s -> step cfg l s = Some s' -> busy_inv s'.
Proof.
  intros Hinv H.
  assert (Hstart : forall i p, nth_error (workers s) i = Some p ->
                     quiescent p \/ _runtime_started (orch s) = true).
  { intros i p Hp. destruct (_runtime_started (orch s)) eqn:E; [now right|].
    left. exact (quiescent_before_start Hinv E i Hp). }
  destruct l; open_step H.
  all: try (apply (@busy_keep s); [exact Hinv | reflexivity ..]).
  all: try (apply (@busy_keep s); cbn; solve [auto | congruence]).
  all: try (apply (@busy_workers_cancelled s); [exact Hinv | reflexivity ..]).
  all: try match goal with
       | Hn : nth_error (workers ?s0) ?i = Some ?p |- _ =>
           destruct (Hstart _ _ Hn) as [[?|?]|Hs]; try discriminate;
           try pose proof (@busy_pending_pos _ _ Hinv Hn);
           first
             [ eapply (@busy_move s0 _ i p); try exact Hinv; try exact Hn;
               try reflexivity; cbn; solve [auto | lia | congruence]
             | eapply (@busy_start_generation s0 _ i p);
               try exact Hinv; try exact Hn; try reflexivity; cbn;
               solve [auto | lia | congruence]
             | eapply (@busy_end_generation s0 _ i);
               try exact Hinv; try exact Hn; try reflexivity; cbn;
               solve [auto | lia | congruence] ]
       end.
  apply orb_false_iff in Heqb0 as [Hs He].
  apply (@busy_all_idle s); [exact Hinv | exact Hs | reflexivity ..].
Qed.

Lemma busy_inv_initial infos : busy_inv (initial infos).
Proof.
  constructor; cbn -[count_if].
  - rewrite count_if_const by reflexivity. reflexivity.
  - intros i. split; [intros []|].
    intros (d & t & E). apply nth_error_map_const in E. discriminate.
  - intros _ i p E. apply nth_error_map_const in E. left. exact E.
Qed.

Lemma reachable_busy_inv cfg infos s :
  reachable cfg infos s -> busy_inv s.
Proof.
  induction 1 as [|s l s' _ IH Hstep].
  - apply busy_inv_initial.
  - eapply busy_inv_step; eassumption.
Qed.

(** ** The end of the session *)








(** ** The recent key points *)

Definition recent_inv (o : SessionOrchestrator) : Prop :=
  NoDup (_recent_key_points o)
  /\ (List.length (_recent_key_points o) <= deque_maxlen)%nat
  /\ ~ In [] (_recent_key_points o).

Lemma NoDup_skipn {A} n (l : list A) : NoDup l -> NoDup (skipn n l).
Proof.
  revert l. induction n as [|n IH]; intros [|x l] H; cbn; auto.
  apply IH. now inversion H.
Qed.

Lemma In_skipn {A} n (l : list A) x : In x (skipn n l) -> In x l.
Proof.
  intros H. rewrite <- (firstn_skipn n l). apply in_or_app. now right.
Qed.

Lemma NoDup_snoc {A} (l : list A) x : NoDup l -> ~ In x l -> NoDup (l ++ [x]).
Proof.
  induction l as [|y l IH]; intros Hn Hx; cbn.
  - constructor; [intros [] | constructor].
  - inversion Hn as [|? ? Hy Hl]; subst. constructor.
    + intros Hin. apply in_app_or in Hin as [Hin | [-> | []]]; [auto|].
      apply Hx. now left.
    + apply IH; [exact Hl|]. intros Hin. apply Hx. now right.
Qed.

Lemma deque_append_recent x d :
  x <> [] -> ~ In x d -> NoDup d -> ~ In [] d ->
  NoDup (deque_append x d)
  /\ (List.length (deque_append x d) <= deque_maxlen)%nat
  /\ ~ In [] (deque_append x d).
Proof.
  intros Hx Hnin Hnd Hne. split; [|split].
  - unfold deque_append. apply NoDup_skipn, NoDup_snoc; assumption.
  - apply deque_append_length.
  - intros Hin. apply deque_append_In in Hin as [E | Hin]; auto.
Qed.

Lemma recent_keep o o' :
  recent_inv o -> _recent_key_points o' = _recent_key_points o ->
  recent_inv o'.
Proof. unfold recent_inv. intros H ->. exact H. Qed.

Lemma approve_speech_recent cfg now a d o ok o' :
  recent_inv o -> _approve_speech cfg now a d o = (ok, o') -> recent_inv o'.
Proof.
  intros Hinv H.
  destruct (approve_speech_cases cfg now a d o) as [[_ E] | (_ & _ & _ & Hk & E)];
    rewrite E in H; injection H as <- <-; [exact Hinv|].
  cbv zeta in Hk. unfold recent_inv. cbn.
  destruct (truthy (normalized_key_points d)) eqn:Et; [|exact Hinv].
  apply truthy_true in Et. destruct Hinv as (H1 & H2 & H3).
  apply deque_append_recent; auto.
Qed.

Lemma recent_inv_step cfg l s s' :
  recent_inv (orch s) -> step cfg l s = Some s' -> recent_inv (orch s').
Proof.
  intros Hinv H.
  destruct l;
    unfold step, at_time, _wait_for_new_message, _generate_reply,
      monitor_tick, shutdown, start_runtime, stop in H;
    repeat first
      [ match goal with
        | E : (_, _) = (_, _) |- _ => inversion E; clear E; subst
        end
      | match goal with
        | E : context [match ?x with _ => _ end] |- _ => destruct x eqn:?
        end ];
    try discriminate; injection H as <-.
  all: try (apply (@recent_keep _ _ Hinv); reflexivity).
  all: try (apply (@recent_keep _ _ Hinv);
            cbn [orch set_orch set_worker set_workers set_clock log_approval
                 log_spoken start_workers workers_cancelled workers];
            try fold_case; reflexivity).
  all: try match goal with
       | E : _approve_speech _ _ _ _ _ = _ |- _ =>
           apply (@approve_speech_recent _ _ _ _ _ _ _ Hinv) in E; exact E
       end.
Qed.

Lemma reachable_recent_inv cfg infos s :
  reachable cfg infos s -> recent_inv (orch s).
Proof.
  induction 1 as [|s l s' _ IH Hstep].
  - repeat split; cbn; [constructor | unfold deque_maxlen; lia | auto].
  - eapply recent_inv_step; eassumption.
Qed.

(** ** Approvals and the global speak interval *)

Local Ltac open_step_upto_approve H :=
  unfold step, at_time, _wait_for_new_message, _generate_reply,
    monitor_tick, shutdown, start_runtime, stop in H;
  repeat first
    [ match goal with
      | E : (_, _) = (_, _) |- _ => inversion E; clear E; subst
      end
    | match goal with
      | E : context [match ?x with _ => _ end] |- _ => destruct x eqn:?
      end ];
  try discriminate;
  injection H as <-.

Lemma approve_speech_refused cfg now a d o o' :
  _approve_speech cfg now a d o = (false, o') -> o' = o.
Proof.
  intros H.
  destruct (approve_speech_cases cfg now a d o) as [[_ E] | (_ & _ & _ & _ & E)];
    rewrite E in H; congruence.
Qed.

Lemma approve_speech_granted cfg now a d o o' :
  _approve_speech cfg now a d o = (true, o') ->
  ~ cooldown_active cfg now a
  /\ ~ global_interval_active cfg now o
  /\ ~ cap_reached cfg o
  /\ o' = with_pacing now (_recent_key_points o') o.
Proof.
  intros H.
  destruct (approve_speech_cases cfg now a d o)
    as [[_ E] | (H1 & H2 & H3 & _ & E)];
    rewrite E in H; [discriminate|].
  injection H as <-. auto.
Qed.

Definition spaced (cfg : SessionConfig) (a b : nat * Q) : Prop :=
  snd a <= snd b
  /\ (0 < global_speak_interval_seconds cfg ->
      global_speak_interval_seconds cfg <= snd b - snd a).

Record global_inv (cfg : SessionConfig) (s : System) : Prop := {
  approvals_before_last :
    forall i t, In (i, t) (approvals s) ->
                t <= _last_global_speak_at (orch s);
  last_global_past : _last_global_speak_at (orch s) <= clock s;
  approvals_spaced : ForallOrdPairs (spaced cfg) (approvals s)
}.

Lemma ForallOrdPairs_snoc {A} (R : A -> A -> Prop) l x :
  ForallOrdPairs R l -> Forall (fun a => R a x) l ->
  ForallOrdPairs R (l ++ [x]).
Proof.
  induction 1 as [|a l Ha Hl IH]; intros Hx; cbn.
  - constructor; constructor.
  - inversion Hx as [|? ? Hax Hlx]; subst. constructor.
    + apply Forall_app. split; [exact Ha | constructor; [exact Hax | constructor]].
    + apply IH. exact Hlx.
Qed.

Lemma ForallOrdPairs_split {A} (R : A -> A -> Prop) l1 a l2 b l3 :
  ForallOrdPairs R (l1 ++ a :: l2 ++ b :: l3) -> R a b.
Proof.
  induction l1 as [|x l1 IH]; cbn; intros H; inversion H as [|? ? Ha Hl]; subst.
  - rewrite Forall_forall in Ha. apply Ha, in_or_app. right. now left.
  - apply IH. exact Hl.
Qed.

Lemma global_keep cfg s s' :
  global_inv cfg s ->
  approvals s' = approvals s ->
  _last_global_speak_at (orch s') = _last_global_speak_at (orch s) ->
  clock s <= clock s' ->
  global_inv cfg s'.
Proof.
  intros [H1 H2 H3] Ea El Hc. constructor; rewrite ?Ea, ?El; auto.
  lra.
Qed.

Lemma global_approved cfg s s' i now :
  global_inv cfg s ->
  clock s <= now ->
  ~ global_interval_active cfg now (orch s) ->
  approvals s' = approvals s ++ [(i, now)] ->
  _last_global_speak_at (orch s') == now ->
  clock s' == now ->
  global_inv cfg s'.
Proof.
  intros [H1 H2 H3] Hc Hg Ea El Ec. constructor; rewrite ?Ea.
  - intros j t Hin. apply in_app_or in Hin as [Hin | [E | []]].
    + specialize (H1 j t Hin). lra.
    + injection E as _ <-. lra.
  - lra.
  - apply ForallOrdPairs_snoc; [exact H3|].
    apply Forall_forall. intros [j t] Hin. specialize (H1 j t Hin).
    unfold spaced. cbn. split; [lra|].
    intros Hpos. unfold global_interval_active in Hg.
    destruct (Qlt_le_dec (now - _last_global_speak_at (orch s))
                (global_speak_interval_seconds cfg)) as [Hlt | Hle].
    + elim Hg. split; assumption.
    + lra.
Qed.

Lemma global_inv_step cfg l s s' :
  global_inv cfg s -> step cfg l s = Some s' -> global_inv cfg s'.
Proof.
  intros Hinv H.
  destruct l; open_step_upto_approve H.
  all: repeat match goal with
       | E : Qle_bool _ _ = true |- _ => apply Qle_bool_iff in E
       | E : _approve_speech _ _ _ _ _ = (false, _) |- _ =>
           apply approve_speech_refused in E; subst
       end.
  all: try (apply (@global_keep cfg s); [exact Hinv | reflexivity | | ];
            cbn [orch set_orch set_worker set_workers set_clock log_approval
                 log_spoken start_workers workers_cancelled workers clock];
            [ try fold_case; reflexivity | first [assumption | apply Qle_refl] ]).
  - destruct b; [discriminate|]. apply approve_speech_refused in Heqp1.
    subst s0. apply (@global_keep cfg s); [exact Hinv | reflexivity ..| exact Heqb].
  - destruct b; [|discriminate].
    apply approve_speech_granted in Heqp1 as (_ & Hg & _ & E).
    apply (@global_approved cfg s _ i now Hinv Heqb Hg); cbn;
      [reflexivity | rewrite E; reflexivity | reflexivity].
Qed.

Lemma global_inv_initial cfg infos : global_inv cfg (initial infos).
Proof.
  constructor; cbn; [contradiction | apply Qle_refl | constructor].
Qed.

Lemma reachable_global_inv cfg infos s :
  reachable cfg infos s -> global_inv cfg s.
Proof.
  induction 1 as [|s l s' _ IH Hstep].
  - apply global_inv_initial.
  - eapply global_inv_step; eassumption.
Qed.

(** ** The cap on AI messages *)

Record cap_inv (cfg : SessionConfig) (s : System) : Prop := {
  total_spoken :
    _total_ai_messages (orch s) = Z.of_nat (List.length (spoken s));
  cap_bound :
    (0 < max_total_ai_messages cfg ->
     _total_ai_messages (orch s)
     + Z.of_nat (count_if is_generating (workers s))
     <= max_total_ai_messages cfg - 1 + Z.of_nat (List.length (workers s)))%Z
}.

Lemma count_update_le f w i (p q : pc) :
  nth_error w i = Some p -> f q = false ->
  (count_if f (update_nth i (fun _ => q) w) <= count_if f w)%nat.
Proof.
  intros Hn Hq. pose proof (@count_if_update f w i p q Hn) as H.
  rewrite Hq in H. lia.
Qed.

Lemma cap_keep cfg s s' :
  cap_inv cfg s ->
  spoken s' = spoken s ->
  _total_ai_messages (orch s') = _total_ai_messages (orch s) ->
  List.length (workers s') = List.length (workers s) ->
  (count_if is_generating (workers s')
   <= count_if is_generating (workers s))%nat ->
  cap_inv cfg s'.
Proof.
  intros [H1 H2] Es Et El Hc. constructor; rewrite ?Es, ?Et, ?El; auto.
  intros Hpos. specialize (H2 Hpos). lia.
Qed.

Lemma cap_approved cfg s s' i p d t :
  cap_inv cfg s ->
  ~ cap_reached cfg (orch s) ->
  nth_error (workers s) i = Some p -> is_generating p = false ->
  workers s' = update_nth i (fun _ => Generating d t) (workers s) ->
  spoken s' = spoken s ->
  _total_ai_messages (orch s') = _total_ai_messages (orch s) ->
  cap_inv cfg s'.
Proof.
  intros [H1 H2] Hcap Hn Hp Ew Es Et.
  constructor; rewrite ?Es, ?Et, ?Ew; auto.
  intros Hpos. rewrite length_update_nth.
  pose proof (@count_if_update is_generating _ i p (Generating d t) Hn) as Hc.
  rewrite Hp in Hc. cbn in Hc.
  pose proof (count_if_le is_generating
                (update_nth i (fun _ => Generating d t) (workers s))) as Hl.
  rewrite length_update_nth in Hl.
  unfold cap_reached in Hcap. lia.
Qed.

Lemma cap_spoke cfg s s' i d t x q :
  cap_inv cfg s ->
  nth_error (workers s) i = Some (Generating d t) ->
  is_generating q = false ->
  workers s' = update_nth i (fun _ => q) (workers s) ->
  spoken s' = spoken s ++ [x] ->
  _total_ai_messages (orch s') = (_total_ai_messages (orch s) + 1)%Z ->
  cap_inv cfg s'.
Proof.
  intros [H1 H2] Hn Hq Ew Es Et.
  constructor; rewrite ?Es, ?Et, ?Ew; auto.
  - rewrite length_app, H1. cbn. lia.
  - intros Hpos. rewrite length_update_nth.
    pose proof (@count_if_update is_generating _ i _ q Hn) as Hc.
    rewrite Hq in Hc. cbn in Hc. specialize (H2 Hpos). lia.
Qed.

Lemma cap_inv_step cfg l s s' :
  cap_inv cfg s -> step cfg l s = Some s' -> cap_inv cfg s'.
Proof.
  intros Hinv H.
  destruct l; open_step_upto_approve H.
  all: repeat match goal with
       | E : negb ?b = _ |- _ => destruct b; try discriminate; clear E
       | E : _approve_speech _ _ _ _ _ = (false, _) |- _ =>
           apply approve_speech_refused in E; subst
       end.
  all: try (apply (@cap_keep cfg s); [exact Hinv | reflexivity | ..];
            cbn [orch set_orch set_worker set_workers set_clock log_approval
                 log_spoken start_workers workers_cancelled workers clock];
            [ try fold_case; reflexivity
            | first [ reflexivity | apply length_update_nth | apply length_map ]
            | first [ apply le_n
                    | eapply count_update_le; [eassumption | reflexivity]
                    | rewrite count_if_const by reflexivity; lia ] ]).
  - apply approve_speech_granted in Heqp1 as (_ & _ & Hc & E).
    eapply (@cap_approved cfg s _ i _ decision now Hinv Hc Heqo);
      [reflexivity | reflexivity | reflexivity | cbn; rewrite E; reflexivity].
  - eapply (@cap_spoke cfg s _ i _ _ (i, approved_at) Idle Hinv Heqo);
      reflexivity.
Qed.

Lemma cap_inv_initial cfg infos : cap_inv cfg (initial infos).
Proof.
  constructor; cbn -[count_if]; [reflexivity|].
  rewrite count_if_const by reflexivity. lia.
Qed.

Lemma reachable_cap_inv cfg infos s :
  reachable cfg infos s -> cap_inv cfg s.
Proof.
  induction 1 as [|s l s' _ IH Hstep].
  - apply cap_inv_initial.
  - eapply cap_inv_step; eassumption.
Qed.

Lemma workers_length_step cfg l s s' :
  step cfg l s = Some s' -> List.length (workers s') = List.length (workers s).
Proof.
  intros H. destruct l; open_step_upto_approve H;
    cbn [orch set_orch set_worker set_workers set_clock log_approval
         log_spoken start_workers workers_cancelled workers clock];
    first [ reflexivity | apply length_update_nth | apply length_map ].
Qed.

Lemma reachable_workers_length cfg infos s :
  reachable cfg infos s -> List.length (workers s) = List.length infos.
Proof.
  induction 1 as [|s l s' _ IH Hstep].
  - cbn. apply length_map.
  - rewrite (@workers_length_step _ _ _ _ Hstep). exact IH.
Qed.

(** ** The last activity *)


Lemma Forall_update_nth {A} (P : A -> Prop) (f : A -> A) l i :
  Forall P l -> (forall x, In x l -> P (f x)) -> Forall P (update_nth i f l).
Proof.
  revert i. induction l as [|x l IH]; intros [|i] H Hf; cbn;
    inversion H; subst; constructor; auto.
  - apply Hf. now left.
  - apply IH; [assumption|]. intros y Hy. apply Hf. now right.
Qed.





(** ** What the invariants say about sessions *)

Lemma reachable_exec cfg infos ls s :
  exec cfg ls (initial infos) = Some s -> reachable cfg infos s.
Proof.
  intros E.
  exact (@exec_reachable cfg infos ls (initial infos) s
           (reach_initial cfg infos) E).
Qed.

Definition agent_ann : AgentInfo :=
  {| id := u "a1"; nickname := u "Ann"; persona := u "sceptic";
     style := u "dry"; model_name := None |}.

Definition agent_ben : AgentInfo :=
  {| id := u "a2"; nickname := u "Ben"; persona := u "optimist";
     style := u "warm"; model_name := None |}.

Definition question : ChatMessage :=
  {| m_id := u "u1"; m_author_type := u "user"; m_author_id := None;
     m_author_name := u "user"; m_content := u "Where do we start?";
     m_target_message_id := None; m_target_author_name := None |}.

Definition idea (points : string) : AgentDecision :=
  {| action := COMMENT; reason := None; target_message_id := None;
     target_author_name := None; stance := None;
     key_points := Some (u points); confidence := None |}.

Definition says (chunks : list str) : AgentReplyStage.Env :=
  {| streams := fun _ => List.map Token chunks; cancel_at := None |}.

(** The defaults of [SessionConfig]. *)
Definition session_defaults : SessionConfig :=
  {| agent_cooldown_seconds := 2; global_speak_interval_seconds := 3;
     silence_end_seconds := 15; max_total_ai_messages := 50;
     pause_timeout_seconds := 600 |}.

(** No pacing, and a cap of one agent message. *)
Definition one_message_cap : SessionConfig :=
  {| agent_cooldown_seconds := 0; global_speak_interval_seconds := 0;
     silence_end_seconds := 15; max_total_ai_messages := 1;
     pause_timeout_seconds := 600 |}.

(** Both workers wake on the question; Ann is deciding, Ben is generating. *)
Definition ann_deciding_ben_generating : list label :=
  handle_new_message question 9
  ++ [ WorkerWait 0 false;
       WorkerWait 1 false;
       WorkerDecided 1 (Ok (idea "start small"));
       WorkerApprove 1 10 ].

(** X1. In every state the scheduler reaches, [_pending_decisions] is the
    number of workers between the increment of line 183 and the [finally]
    of line 218, so it lies between 0 and the number of agents, and the
    [max(0, ...)] of the [finally] never clamps: a deciding worker finds
    the counter at 1 or more. The generation tasks registered are those of
    the workers awaiting a generation. *)
Theorem pending_decisions_counts_deciding cfg infos s :
  reachable cfg infos s ->
  _pending_decisions (orch s) = Z.of_nat (count_if is_deciding (workers s))
  /\ (0 <= _pending_decisions (orch s) <= Z.of_nat (List.length infos))%Z
  /\ (forall i, nth_error (workers s) i = Some Deciding ->
        _pending_decisions (decision_finally (orch s))
        = (_pending_decisions (orch s) - 1)%Z)
  /\ (forall i, In i (_generation_tasks (orch s))
                <-> exists d t,
                      nth_error (workers s) i = Some (Generating d t)).
Proof.
  intros Hr. destruct (reachable_busy_inv Hr) as [Hp Ht _].
  pose proof (count_if_le is_deciding (workers s)) as Hle.
  rewrite (reachable_workers_length Hr) in Hle.
  split; [exact Hp|]. split; [lia|]. split; [|exact Ht].
  intros i Hi.
  pose proof (@count_if_update is_deciding _ i _ Idle Hi) as Hc.
  cbn in Hc. cbn. lia.
Qed.

Lemma pending_decisions_counts_deciding_witness :
  match exec session_defaults ann_deciding_ben_generating
          (initial [agent_ann; agent_ben]) with
  | Some s =>
      _pending_decisions (orch s) = 1%Z /\ _generation_tasks (orch s) = [1%nat]
  | None => False
  end.
Proof.
  destruct (exec session_defaults ann_deciding_ben_generating
              (initial [agent_ann; agent_ben])) as [s|] eqn:E;
    [|vm_compute in E; discriminate].
  destruct (@pending_decisions_counts_deciding session_defaults
              [agent_ann; agent_ben] s (@reachable_exec _ _ _ _ E)) as (Hp & _).
  rewrite Hp. vm_compute in E. injection E as <-. split; reflexivity.
Defined.



(** The user stops the generation twice, at 10 s and at 12 s. *)
Definition stopped_twice : list label :=
  handle_new_message question 9 ++ [Stop true 10; Stop true 12].

(** X3. In every state the scheduler reaches, generation is paused exactly
    when a pause time is recorded: [stop(force=True)] sets both, a user
    message clears both, and nothing else writes them. So the monitor's
    pause time-out always has a time to measure from, and a further forced
    stop while paused keeps the time of the first. *)
Theorem paused_iff_paused_since cfg infos s :
  reachable cfg infos s ->
  (_generation_paused (orch s) = true <-> _paused_since (orch s) <> None)
  /\ (_generation_paused (orch s) = true ->
      exists since,
        _paused_since (orch s) = Some since
        /\ forall now, _paused_since (stop true now (orch s)) = Some since).
Proof.
  intros Hr.
  destruct (reachable_pause_inv Hr) as [[Hp H] | [Hp Hs]]; rewrite Hp.
  - split; [split; [intros _; exact H | reflexivity]|].
    intros _. destruct (_paused_since (orch s)) as [since|] eqn:E;
      [|now elim H].
    exists since. split; [reflexivity|]. intros now. cbn. now rewrite E.
  - split; [|discriminate]. rewrite Hs.
    split; [discriminate | intros H; now elim H].
Qed.

Lemma paused_iff_paused_since_witness :
  match exec session_defaults stopped_twice (initial [agent_ann]) with
  | Some s =>
      _generation_paused (orch s) = true /\ _paused_since (orch s) = Some 10
  | None => False
  end.
Proof.
  destruct (exec session_defaults stopped_twice (initial [agent_ann]))
    as [s|] eqn:E; [|vm_compute in E; discriminate].
  destruct (@paused_iff_paused_since session_defaults [agent_ann] s
              (@reachable_exec _ _ _ _ E)) as (Hp & _).
  assert (Hs : _paused_since (orch s) = Some 10).
  { vm_compute in E. injection E as <-. reflexivity. }
  split; [|exact Hs]. apply Hp. rewrite Hs. discriminate.
Defined.

(** Ann speaks about ["Start Small"], then decides for the same points in
    other letter case. *)
Definition same_points_again : list label :=
  handle_new_message question 9
  ++ [ WorkerWait 0 false;
       WorkerDecided 0 (Ok (idea " Start Small "));
       WorkerApprove 0 10;
       WorkerGenerated 0 (says [u "Small steps."]) (u "m1") 11;
       WorkerWait 0 false;
       WorkerDecided 0 (Ok (idea "start small"));
       WorkerApprove 0 20 ].

(** X4. In every state the scheduler reaches, the buffer of recent key
    points holds at most 8 entries, no entry twice and never the empty
    string: [_approve_speech] pushes only non-empty normalised key points
    that are not in the buffer. *)
Theorem recent_key_points_distinct cfg infos s :
  reachable cfg infos s ->
  NoDup (_recent_key_points (orch s))
  /\ (List.length (_recent_key_points (orch s)) <= 8)%nat
  /\ ~ In [] (_recent_key_points (orch s)).
Proof. intros Hr. exact (reachable_recent_inv Hr). Qed.

Lemma recent_key_points_distinct_witness :
  match exec session_defaults same_points_again (initial [agent_ann]) with
  | Some s =>
      _recent_key_points (orch s) = [u "start small"]
      /\ NoDup (_recent_key_points (orch s))
  | None => False
  end.
Proof.
  destruct (exec session_defaults same_points_again (initial [agent_ann]))
    as [s|] eqn:E; [|vm_compute in E; discriminate].
  destruct (@recent_key_points_distinct session_defaults [agent_ann] s
              (@reachable_exec _ _ _ _ E)) as (Hn & _).
  split; [|exact Hn]. vm_compute in E. injection E as <-. reflexivity.
Defined.

(** Ben is approved at 10 s; Ann, who decided at the same time, at 13 s. *)
Definition ben_then_ann : list label :=
  handle_new_message question 9
  ++ [ WorkerWait 0 false;
       WorkerWait 1 false;
       WorkerDecided 1 (Ok (idea "start small"));
       WorkerDecided 0 (Ok (idea "ask users"));
       WorkerApprove 1 10;
       WorkerApprove 0 13 ].

(** X5. For every execution of the scheduler whose clock readings do not
    go back: approvals are granted in the order of their clock readings,
    and with a positive [global_speak_interval_seconds] any two approvals
    of a session, whichever agents they are for, lie at least that
    interval apart. *)
Theorem approvals_respect_global_interval cfg infos s l1 a l2 b l3 :
  reachable cfg infos s ->
  approvals s = l1 ++ a :: l2 ++ b :: l3 ->
  snd a <= snd b
  /\ (0 < global_speak_interval_seconds cfg ->
      global_speak_interval_seconds cfg <= snd b - snd a).
Proof.
  intros Hr E. destruct (reachable_global_inv Hr) as [_ _ H].
  rewrite E in H. exact (ForallOrdPairs_split _ _ _ _ _ H).
Qed.

Lemma approvals_respect_global_interval_witness :
  global_speak_interval_seconds session_defaults <= 13 - 10.
Proof.
  assert (E : exists s,
             exec session_defaults ben_then_ann (initial [agent_ann; agent_ben])
             = Some s
             /\ approvals s = [] ++ (1%nat, 10) :: [] ++ (0%nat, 13) :: []).
  { eexists. split; [vm_compute; reflexivity | reflexivity]. }
  destruct E as (s & E & Ha).
  destruct (@approvals_respect_global_interval session_defaults
              [agent_ann; agent_ben] s [] (1%nat, 10) [] (0%nat, 13) []
              (@reachable_exec _ _ _ _ E) Ha) as (_ & H).
  apply H. reflexivity.
Defined.

(** With a cap of one message and no pacing, both agents are approved
    before either has spoken, and both speak. *)
Definition both_speak : list label :=
  handle_new_message question 9
  ++ [ WorkerWait 0 false;
       WorkerWait 1 false;
       WorkerDecided 0 (Ok (idea "ask users"));
       WorkerDecided 1 (Ok (idea "start small"));
       WorkerApprove 0 10;
       WorkerApprove 1 10;
       WorkerGenerated 0 (says [u "Ask them."]) (u "m1") 11;
       WorkerGenerated 1 (says [u "Small steps."]) (u "m2") 11 ].

(** X6. [_total_ai_messages] counts the generations that appended their
    message. The cap is checked when speech is approved and the count is
    raised when the message is appended, so with a positive cap the count
    can pass the cap, by at most the number of agents less one. *)
Theorem total_ai_messages_bound cfg infos s :
  reachable cfg infos s ->
  _total_ai_messages (orch s) = Z.of_nat (List.length (spoken s))
  /\ ((0 < max_total_ai_messages cfg)%Z ->
      (_total_ai_messages (orch s)
       <= max_total_ai_messages cfg + Z.of_nat (List.length infos) - 1)%Z).
Proof.
  intros Hr. destruct (reachable_cap_inv Hr) as [H1 H2].
  split; [exact H1|]. intros Hpos. specialize (H2 Hpos).
  rewrite (reachable_workers_length Hr) in H2. lia.
Qed.

Lemma total_ai_messages_bound_witness :
  match exec one_message_cap both_speak (initial [agent_ann; agent_ben]) with
  | Some s => _total_ai_messages (orch s) = 2%Z
  | None => False
  end.
Proof.
  destruct (exec one_message_cap both_speak (initial [agent_ann; agent_ben]))
    as [s|] eqn:E; [|vm_compute in E; discriminate].
  destruct (@total_ai_messages_bound one_message_cap [agent_ann; agent_ben] s
              (@reachable_exec _ _ _ _ E)) as (Ht & Hb).
  assert (Hpos : (0 < max_total_ai_messages one_message_cap)%Z)
    by reflexivity.
  specialize (Hb Hpos). rewrite Ht in *.
  vm_compute in E. injection E as <-. reflexivity.
Defined.

(** ** After the end, and around a new message *)





Lemma at_time_due now s k :
  clock s <= now -> at_time now s k = k (set_clock now s).
Proof.
  intros H. unfold at_time. apply Qle_bool_iff in H. now rewrite H.
Qed.

Lemma step_user_turn cfg now s :
  clock s <= now ->
  step cfg (UserTurn now) s
  = Some (set_orch (stop false now (with_pause false None (orch s)))
            (set_clock now s)).
Proof. intros H. unfold step. now rewrite (at_time_due _ _ H). Qed.

Lemma step_add_message cfg msg now s :
  clock s <= now ->
  step cfg (AddMessage msg now) s
  = Some (set_orch (with_last_activity now (add_message msg (orch s)))
            (set_clock now s)).
Proof. intros H. unfold step. now rewrite (at_time_due _ _ H). Qed.

(** [handle_new_message(msg)], piece by piece. *)
Lemma handle_new_message_runs cfg msg now s :
  clock s <= now ->
  exists s',
    exec cfg (handle_new_message msg now) s = Some s'
    /\ messages (orch s') = messages (orch s) ++ [msg]
    /\ _message_version (orch s') = (_message_version (orch s) + 1)%Z
    /\ _last_activity_at (orch s') = now
    /\ clock s' = now
    /\ _ended (orch s') = _ended (orch s)
    /\ (_ended (orch s) = false -> _runtime_started (orch s') = true)
    /\ approvals s' = approvals s
    /\ spoken s' = spoken s
    /\ (m_author_type msg = u "user" ->
        _generation_paused (orch s') = false
        /\ _paused_since (orch s') = None)
    /\ (m_author_type msg <> u "user" ->
        _generation_paused (orch s') = _generation_paused (orch s)
        /\ _paused_since (orch s') = _paused_since (orch s)).
Proof.
  intros Hnow. unfold handle_new_message.
  assert (Hrefl : forall s0 : System, clock (set_clock now s0) <= now)
    by (intros; apply Qle_refl).
  assert (Hstart : exists s1,
            step cfg (StartRuntime now) s = Some s1
            /\ clock s1 = now
            /\ messages (orch s1) = messages (orch s)
            /\ _message_version (orch s1) = _message_version (orch s)
            /\ _ended (orch s1) = _ended (orch s)
            /\ (_ended (orch s) = false -> _runtime_started (orch s1) = true)
            /\ approvals s1 = approvals s /\ spoken s1 = spoken s
            /\ _generation_paused (orch s1) = _generation_paused (orch s)
            /\ _paused_since (orch s1) = _paused_since (orch s)).
  { unfold step. rewrite (at_time_due _ _ Hnow). unfold start_runtime.
    destruct (_runtime_started (orch s)) eqn:Es;
      destruct (_ended (orch s)) eqn:Ee; cbn [orb];
      eexists; (split; [reflexivity|]); cbn; rewrite ?Es, ?Ee;
      repeat split; congruence. }
  destruct Hstart as (s1 & E1 & Hc1 & Hm1 & Hv1 & He1 & Hr1 & Ha1 & Hs1
                        & Hp1 & Hq1).
  assert (Hnow1 : clock s1 <= now) by (rewrite Hc1; apply Qle_refl).
  cbn [exec]. rewrite E1.
  destruct (PyStr.eqb (m_author_type msg) (u "user")) eqn:Eu.
  - apply eqb_eq in Eu. cbn [app exec].
    rewrite (@step_user_turn cfg _ _ Hnow1).
    rewrite step_add_message by (cbn; apply Qle_refl).
    eexists. split; [reflexivity|]. cbn.
    rewrite Hm1, Hv1, He1, Ha1, Hs1.
    repeat split; try reflexivity; try assumption;
      exfalso; match goal with H : _ <> _ |- _ => apply H end; assumption.
  - assert (Hne : m_author_type msg <> u "user").
    { intros E. apply eqb_eq in E. congruence. }
    cbn [app exec]. rewrite (@step_add_message cfg msg _ _ Hnow1).
    eexists. split; [reflexivity|]. cbn.
    rewrite Hm1, Hv1, He1, Ha1, Hs1, Hp1, Hq1.
    repeat split; try reflexivity; try assumption;
      exfalso; apply Hne; assumption.
Qed.

(** X8. [handle_new_message(msg)] always runs to its end when the clock
    does not go back: it appends exactly [msg], raises the version by one
    and sets the last activity to the time of the call; it starts the
    runtime unless the session has ended, never ends or revives a session,
    and grants no approval itself. A message of author type ["user"]
    leaves generation unpaused with no pause time; any other message
    leaves the pause as it was. *)
Theorem handle_new_message_effect cfg msg now s :
  clock s <= now ->
  exists s',
    exec cfg (handle_new_message msg now) s = Some s'
    /\ messages (orch s') = messages (orch s) ++ [msg]
    /\ _message_version (orch s') = (_message_version (orch s) + 1)%Z
    /\ _last_activity_at (orch s') = now
    /\ clock s' = now
    /\ _ended (orch s') = _ended (orch s)
    /\ (_ended (orch s) = false -> _runtime_started (orch s') = true)
    /\ approvals s' = approvals s
    /\ spoken s' = spoken s
    /\ (m_author_type msg = u "user" ->
        _generation_paused (orch s') = false
        /\ _paused_since (orch s') = None)
    /\ (m_author_type msg <> u "user" ->
        _generation_paused (orch s') = _generation_paused (orch s)
        /\ _paused_since (orch s') = _paused_since (orch s)).
Proof. exact (@handle_new_message_runs cfg msg now s). Qed.


Lemma handle_new_message_effect_witness :
  exists s',
    exec session_defaults (handle_new_message question 9) (initial [agent_ann])
    = Some s'
    /\ messages (orch s') = [question].
Proof.
  assert (Hnow : clock (initial [agent_ann]) <= 9) by (vm_compute; discriminate).
  destruct (@handle_new_message_effect session_defaults question 9
              (initial [agent_ann]) Hnow) as (s' & E & Hm & _).
  exists s'. split; [exact E | exact Hm].
Defined.



(** X10. The first end wins: a [shutdown] of a session that has ended
    changes nothing, whatever reason it is given, so the end reason is
    the reason of the first [shutdown]; [start_runtime] changes nothing
    once the session has ended or the runtime has started. *)
Theorem shutdown_first_reason_wins why emit_ev now why2 emit_ev2 now2 self :
  let ended := shutdown why emit_ev now self in
  _ended ended = true
  /\ (_ended self = false -> _end_reason ended = Some why)
  /\ shutdown why2 emit_ev2 now2 ended = ended
  /\ start_runtime now2 ended = ended
  /\ start_runtime now2 (start_runtime now self) = start_runtime now self.
Proof.
  cbv zeta.
  assert (He : _ended (shutdown why emit_ev now self) = true).
  { unfold shutdown. destruct (_ended self) eqn:E; [exact E|].
    destruct emit_ev; reflexivity. }
  split; [exact He|]. split; [|split; [|split]].
  - intros E. unfold shutdown. rewrite E. destruct emit_ev; reflexivity.
  - unfold shutdown at 1. now rewrite He.
  - unfold start_runtime at 1. rewrite He. now rewrite orb_true_r.
  - unfold start_runtime at 1.
    destruct (_runtime_started (start_runtime now self)
              || _ended (start_runtime now self)) eqn:E; [reflexivity|].
    exfalso. unfold start_runtime in E.
    destruct (_runtime_started self || _ended self) eqn:E0.
    + congruence.
    + cbn in E. discriminate.
Qed.

End SchedulerInvariants.

(* ================================================================== *)
(** * The events and the text of a reply run *)
(* ================================================================== *)

Section ReplyStageEvents.

Import AgentReplyStage Orchestrator.

Variable env : AgentReplyStage.Env.
Variable message_id : str.
Variable info : AgentInfo.

(** What a run does after its [message_started] event: deltas with text,
    at most a [message_cancelled] or an [error] event, all for the message
    of the run; stream calls; back-offs of one second. *)
Definition streamed (x : effect) : Prop :=
  match x with
  | Emitted (message_delta m tok) => m = message_id /\ tok <> []
  | Emitted (message_cancelled m _) => m = message_id
  | Emitted (error_event m _) => m = message_id
  | Emitted _ => False
  | StreamOpened _ => True
  | Slept seconds => seconds = 1
  end.

(** The effects of a piece of the run are all in [P]. *)
Definition Emits (P : effect -> Prop) {A} (m : M A) : Prop :=
  forall st r st', m st = (r, st') ->
    exists new, effects st' = effects st ++ new /\ Forall P new.

Section Pieces.
Variable P : effect -> Prop.

Lemma Emits_nothing {A} (m : M A) :
  (forall st r st', m st = (r, st') -> effects st' = effects st) ->
  Emits P m.
Proof.
  intros H st r st' E. exists []. rewrite app_nil_r.
  split; [exact (H _ _ _ E) | constructor].
Qed.

Lemma Emits_ret {A} (a : A) : Emits P (ret a).
Proof. apply Emits_nothing. intros st r st' E. now injection E as _ <-. Qed.

Lemma Emits_raise {A} e : Emits P (@raise A e).
Proof. apply Emits_nothing. intros st r st' E. now injection E as _ <-. Qed.

Lemma Emits_get : Emits P get.
Proof. apply Emits_nothing. intros st r st' E. now injection E as _ <-. Qed.

Lemma Emits_suspend : Emits P (suspend env).
Proof.
  apply Emits_nothing. intros st r st' E.
  apply suspend_inv in E as [-> _]. reflexivity.
Qed.

Lemma Emits_modify f :
  (forall st, effects (f st) = effects st) -> Emits P (modify f).
Proof.
  intros Hf. apply Emits_nothing. intros st r st' E.
  injection E as _ <-. apply Hf.
Qed.

Lemma Emits_record x : P x -> Emits P (modify (record_effect x)).
Proof.
  intros Hx st r st' E. injection E as _ <-. exists [x].
  split; [reflexivity | constructor; [exact Hx | constructor]].
Qed.

Lemma Emits_bind {A B} (m : M A) (k : A -> M B) :
  Emits P m -> (forall a, Emits P (k a)) -> Emits P (bind m k).
Proof.
  intros Hm Hk st r st' E. apply bind_inv in E.
  destruct E as [(a & st1 & E1 & E2) | (e & E1 & _)].
  - destruct (Hm _ _ _ E1) as (n1 & E1' & H1).
    destruct (Hk a _ _ _ E2) as (n2 & E2' & H2).
    exists (n1 ++ n2). rewrite E2', E1', app_assoc.
    split; [reflexivity | now apply Forall_app].
  - exact (Hm _ _ _ E1).
Qed.

Lemma Emits_emit e : P (Emitted e) -> Emits P (emit env e).
Proof.
  intros He. unfold emit.
  apply Emits_bind; [apply Emits_suspend | intros _; now apply Emits_record].
Qed.

Lemma Emits_sleep q : P (Slept q) -> Emits P (sleep env q).
Proof.
  intros He. unfold sleep.
  apply Emits_bind; [apply Emits_suspend | intros _; now apply Emits_record].
Qed.

Hypothesis P_delta :
  forall tok, tok <> [] -> P (Emitted (message_delta message_id tok)).
Hypothesis P_stream : forall attempt, P (StreamOpened attempt).
Hypothesis P_backoff : P (Slept 1).

Lemma Emits_forward tok : Emits P (forward env message_id tok).
Proof.
  unfold forward. apply Emits_bind; [|intros _].
  - apply Emits_modify. reflexivity.
  - destruct (truthy tok) eqn:Et; [|apply Emits_ret].
    apply Emits_bind; [apply Emits_modify; reflexivity | intros _].
    apply Emits_emit, P_delta. now apply truthy_true.
Qed.

Lemma Emits_process_token name tok :
  Emits P (process_token env message_id name tok).
Proof.
  unfold process_token. apply Emits_bind; [apply Emits_get | intros st0].
  destruct (negb (mention_guard_resolved st0) && truthy name);
    [|apply Emits_forward].
  destruct (_consume_leading_duplicate_mention _ _) as [resolved out].
  apply Emits_bind; [apply Emits_modify; reflexivity | intros _].
  destruct (negb resolved); [apply Emits_ret | apply Emits_forward].
Qed.

Lemma Emits_consume_stream name items :
  Emits P (consume_stream env message_id name items).
Proof.
  induction items as [|[tok|text] rest IH]; cbn [consume_stream].
  - apply Emits_suspend.
  - apply Emits_bind; [apply Emits_suspend | intros _].
    apply Emits_bind; [|intros _; exact IH].
    destruct (truthy tok); [apply Emits_process_token | apply Emits_ret].
  - apply Emits_bind; [apply Emits_suspend | intros _; apply Emits_raise].
Qed.

Lemma Emits_flush_guard : Emits P (flush_guard env message_id).
Proof.
  unfold flush_guard. apply Emits_bind; [apply Emits_get | intros st0].
  cbv zeta.
  destruct (negb (mention_guard_resolved st0)
            && truthy (mention_guard_buffer st0)) eqn:E; [|apply Emits_ret].
  apply andb_true_iff in E as [_ E]. apply truthy_true in E.
  apply Emits_bind; [apply Emits_modify; reflexivity | intros _].
  apply Emits_bind; [apply Emits_modify; reflexivity | intros _].
  apply Emits_bind; [now apply Emits_emit, P_delta | intros _].
  apply Emits_modify. reflexivity.
Qed.

Lemma Emits_attempts_loop name remaining attempt :
  Emits P (attempts_loop env message_id name remaining attempt).
Proof.
  revert attempt. induction remaining as [|remaining IH]; intros attempt.
  - apply Emits_ret.
  - assert (Hbody : Emits P (attempt_body env message_id name attempt)).
    { unfold attempt_body.
      apply Emits_bind; [apply Emits_record, P_stream | intros _].
      apply Emits_bind; [apply Emits_consume_stream | intros _].
      apply Emits_flush_guard. }
    intros st r st' E. rewrite attempts_loop_unfold in E.
    destruct (attempt_body env message_id name attempt st)
      as [[[]|[|text]] st1] eqn:E1;
      destruct (Hbody _ _ _ E1) as (n1 & E1' & H1).
    + injection E as <- <-. now exists n1.
    + injection E as <- <-. now exists n1.
    + destruct (Common.is_transient_timeout_error text && no_output_yet st1
                && (attempt <? AgentReplyStage.max_attempts - 1)%nat).
      * assert (Hrest : Emits P (sleep env 1 ;;
                  attempts_loop env message_id name remaining (S attempt))).
        { apply Emits_bind; [apply Emits_sleep, P_backoff | intros _; apply IH]. }
        destruct (Hrest _ _ _ E) as (n2 & E2 & H2).
        exists (n1 ++ n2). rewrite app_assoc, <- E1'.
        split; [exact E2 | now apply Forall_app].
      * injection E as <- <-. now exists n1.
Qed.

End Pieces.

Lemma streamed_delta tok :
  tok <> [] -> streamed (Emitted (message_delta message_id tok)).
Proof. intros H. split; [reflexivity | exact H]. Qed.

Lemma handlers_effects r st r' st' :
  handlers env message_id (r, st) = (r', st') ->
  exists new, effects st' = effects st ++ new /\ Forall streamed new.
Proof.
  intros E. destruct r as [[]|[|text]]; cbn [handlers] in E.
  - injection E as <- <-. exists []. rewrite app_nil_r. split; [reflexivity | constructor].
  - assert (Hm : Emits streamed
                   (emit env (message_cancelled message_id (full_content st)) ;;
                    @raise (str * str) CancelledError)).
    { apply Emits_bind; [apply Emits_emit; reflexivity | intros _; apply Emits_raise]. }
    exact (Hm _ _ _ E).
  - assert (Hm : Emits streamed
                   (emit env (error_event message_id text) ;;
                    st' <- get ;; ret (message_id, full_content st'))).
    { apply Emits_bind; [apply Emits_emit; reflexivity | intros _].
      apply Emits_bind; [apply Emits_get | intros ?; apply Emits_ret]. }
    exact (Hm _ _ _ E).
Qed.

Lemma reply_run_effects d r st :
  generate_agent_reply env message_id info d = (r, st) ->
  (effects st = [] /\ cancel_at env = Some 0%nat /\ r = Raise CancelledError)
  \/ (exists rest,
        effects st = Emitted (message_started message_id (id info)) :: rest
        /\ Forall streamed rest).
Proof.
  unfold generate_agent_reply, preamble. intros H.
  unfold bind at 1 in H.
  destruct (emit env (message_started message_id (id info)) initial_rstate)
    as [r0 st0] eqn:E0.
  apply emit_inv in E0.
  destruct E0 as [(Hc & -> & ->) | (Hc & -> & ->)].
  { left. injection H as <- <-. cbn. auto. }
  right.
  set (st1 := record_effect (Emitted (message_started message_id (id info)))
                (count_await initial_rstate)) in *.
  cbv zeta in H.
  set (rest_of_preamble :=
         (modify (set_full_content (mention_prefix_of (mention_target d))) ;;
          (if truthy (mention_prefix_of (mention_target d))
           then mark_output_started ;;
                emit env (message_delta message_id
                            (mention_prefix_of (mention_target d)))
           else ret tt) ;;
          modify (set_guard (negb (truthy (mention_target d))) []))) in H.
  assert (Hpre : Emits streamed rest_of_preamble).
  { unfold rest_of_preamble.
    apply Emits_bind; [apply Emits_modify; reflexivity | intros _].
    apply Emits_bind; [|intros _; apply Emits_modify; reflexivity].
    destruct (truthy (mention_prefix_of (mention_target d))) eqn:Et;
      [|apply Emits_ret].
    apply Emits_bind; [apply Emits_modify; reflexivity | intros _].
    apply Emits_emit, streamed_delta. now apply truthy_true. }
  destruct (rest_of_preamble st1) as [r2 st2] eqn:E2.
  destruct (Hpre _ _ _ E2) as (n2 & H2 & F2).
  change (effects st1) with [Emitted (message_started message_id (id info))]
    in H2.
  destruct r2 as [[]|e].
  2:{ injection H as <- <-. exists n2. split; assumption. }
  destruct (streaming env message_id d st2) as [r3 st3] eqn:E3.
  assert (Hs : Emits streamed (streaming env message_id d)).
  { unfold streaming. apply Emits_attempts_loop.
    - exact streamed_delta.
    - intros; exact I.
    - reflexivity. }
  destruct (Hs _ _ _ E3) as (n3 & H3 & F3).
  destruct (handlers_effects _ _ H) as (n4 & H4 & F4).
  exists (n2 ++ n3 ++ n4). rewrite H4, H3, H2. cbn.
  split; [now rewrite <- !app_assoc|].
  apply Forall_app; split; [assumption|]. apply Forall_app; split; assumption.
Qed.

(** X11. The events of a reply run. Either the run is cancelled on its
    first [emit] and nothing goes out, or the first effect is the
    [message_started] event of the run, with the run's message id and the
    agent's id, and everything after it is a delta with non-empty text, a
    [message_cancelled] or an [error] event, each carrying the run's
    message id, a stream call or a back-off of one second: the stage never
    emits a second [message_started], an empty delta, or an event of
    another kind or for another message. *)
Theorem reply_events_shape d :
  let run := generate_agent_reply env message_id info d in
  (effects (snd run) = []
   /\ cancel_at env = Some 0%nat
   /\ fst run = Raise CancelledError)
  \/ (exists rest,
        effects (snd run)
        = Emitted (message_started message_id (id info)) :: rest
        /\ Forall streamed rest).
Proof.
  cbv zeta.
  destruct (generate_agent_reply env message_id info d) as [r st] eqn:E.
  exact (reply_run_effects _ E).
Qed.

Lemma reply_content_forwarded d mid content st :
  generate_agent_reply env message_id info d = (Ok (mid, content), st) ->
  mid = message_id /\ content = List.concat (deltas (effects st)).
Proof.
  intros H.
  destruct (generate_agent_reply_cases env message_id info d)
    as [(st1 & _ & Hg) | (st1 & r2 & st2 & Hp & Hs & Hg)];
    [congruence|].
  destruct (preamble_spec _ _ _ _ Hp) as (_ & _ & [(_ & Hcf & _) | (Hr & _)]);
    [|discriminate].
  destruct (attempts_loop_spec _ _ _ _ Hs) as (_ & _ & Hkeep & _).
  destruct r2 as [[]|[|text]].
  - rewrite Hg in H. injection H as <- <- <-.
    split; [reflexivity|]. apply Hkeep; [exact Hcf | intros []].
  - rewrite Hg in H. discriminate.
  - destruct Hg as [[_ Hg] | [_ Hg]]; rewrite Hg in H; [discriminate|].
    injection H as <- <- <-. split; [reflexivity|].
    cbn. rewrite deltas_app. cbn. rewrite app_nil_r.
    apply Hkeep; [exact Hcf | intros []].
Qed.

End ReplyStageEvents.

Section CompletedReply.

Import AgentReplyStage Orchestrator.

(** The reply streams two chunks and ends. *)
Definition two_chunks : AgentReplyStage.Env :=
  {| streams := fun _ => [Token (u "Small "); Token (u "steps.")];
     cancel_at := None |}.

Definition ann : AgentState :=
  {| info := {| id := u "a1"; nickname := u "Ann"; persona := u "sceptic";
                style := u "dry"; model_name := None |};
     last_spoke_at := 0; last_seen_message_version := 0 |}.

Definition plain_comment : AgentDecision :=
  {| action := COMMENT; reason := None; target_message_id := None;
     target_author_name := None; stance := None; key_points := None;
     confidence := None |}.

(** X12. What a completed generation appends is what it streamed. When
    [_generate_reply] returns, the id it returns is the id of the run, and
    the message appended to the log, an ["ai"] message of the agent with
    the decision's target, has as content the concatenation, in order, of
    the tokens of all [message_delta] events of the run (the canonical
    mention prefix included); the [message_completed] event emitted last
    carries the same id and content; the count of agent messages goes up by
    one and the last activity and the agent's last-spoken time are set to
    the time of the append. *)
Theorem completed_reply_is_streamed_text env message_id now i a d self mid o' :
  _generate_reply env message_id now i a d self = (Ok mid, o') ->
  let run := generate_agent_reply env message_id (info a) d in
  let content := List.concat (deltas (effects (snd run))) in
  mid = message_id
  /\ fst run = Ok (message_id, content)
  /\ messages o'
     = messages self
       ++ [ {| m_id := message_id; m_author_type := u "ai";
               m_author_id := Some (id (info a));
               m_author_name := nickname (info a);
               m_content := content;
               m_target_message_id := target_message_id d;
               m_target_author_name := target_author_name d |} ]
  /\ emitted o'
     = emitted self ++ events_of (effects (snd run))
       ++ [message_completed message_id content]
  /\ _message_version o' = (_message_version self + 1)%Z
  /\ _total_ai_messages o' = (_total_ai_messages self + 1)%Z
  /\ _last_activity_at o' = now
  /\ agents o' = update_nth i (set_last_spoke_at now) (agents self).
Proof.
  unfold _generate_reply. cbv zeta.
  destruct (generate_agent_reply env message_id (info a) d) as [r st] eqn:E.
  destruct r as [[m c]|e]; [|discriminate].
  destruct (reply_content_forwarded _ _ _ _ E) as [-> ->].
  intros H. injection H as <- <-. cbn.
  rewrite <- app_assoc. repeat split; reflexivity.
Qed.

Lemma completed_reply_is_streamed_text_witness :
  fst (generate_agent_reply two_chunks (u "m1") (info ann) plain_comment)
  = Ok (u "m1", u "Small steps.").
Proof.
  destruct (_generate_reply two_chunks (u "m1") 11 0 ann plain_comment
              (new_orchestrator [info ann])) as [r o'] eqn:E.
  destruct r as [mid|e]; [|vm_compute in E; discriminate].
  destruct (@completed_reply_is_streamed_text two_chunks (u "m1") 11 0%nat ann
              plain_comment (new_orchestrator [info ann]) mid o' E)
    as (_ & H & _).
  rewrite H. reflexivity.
Defined.

End CompletedReply.

Section MentionFilterSuffix.

Import AgentReplyStage.

Definition suffix_of (out s : str) : Prop := exists pre, s = pre ++ out.

Lemma suffix_of_refl s : suffix_of s s.
Proof. now exists []. Qed.

Lemma suffix_of_trans a b c : suffix_of a b -> suffix_of b c -> suffix_of a c.
Proof.
  intros [p ->] [q ->]. exists (q ++ p). now rewrite app_assoc.
Qed.

Lemma suffix_of_nil s : suffix_of [] s.
Proof. exists s. now rewrite app_nil_r. Qed.

Lemma lstrip_suffix s : suffix_of (lstrip s) s.
Proof.
  induction s as [|c s IH]; cbn; [apply suffix_of_refl|].
  destruct (is_space c); [|apply suffix_of_refl].
  destruct IH as [p Hp]. exists (c :: p). cbn. now rewrite <- Hp.
Qed.

Lemma drop_suffix n s : suffix_of (drop n s) s.
Proof. exists (take n s). symmetry. apply firstn_skipn. Qed.

Lemma suffix_of_length out s :
  suffix_of out s -> (List.length out <= List.length s)%nat.
Proof. intros [p ->]. rewrite length_app. lia. Qed.

Lemma suffix_of_app out s r : suffix_of out s -> suffix_of (out ++ r) (s ++ r).
Proof. intros [p ->]. exists p. now rewrite app_assoc. Qed.

Lemma consume_suffix buffer name resolved out :
  _consume_leading_duplicate_mention buffer name = (resolved, out) ->
  suffix_of out buffer /\ (resolved = false -> out = []).
Proof.
  unfold _consume_leading_duplicate_mention. intros H.
  destruct (negb (truthy (lstrip buffer))).
  { injection H as <- <-. split; [apply suffix_of_nil | reflexivity]. }
  destruct (startswith (expected_mention name) (lstrip buffer)
            && (List.length (lstrip buffer)
                <? List.length (expected_mention name))%nat).
  { injection H as <- <-. split; [apply suffix_of_nil | reflexivity]. }
  destruct (startswith (lstrip buffer) (expected_mention name)).
  2:{ injection H as <- <-. split; [apply suffix_of_refl | discriminate]. }
  cbv zeta in H.
  set (remainder := lstrip (drop (List.length (expected_mention name))
                              (lstrip buffer))) in *.
  assert (Hrem : suffix_of remainder buffer).
  { apply (@suffix_of_trans _ (drop (List.length (expected_mention name))
                                 (lstrip buffer)));
      [apply lstrip_suffix|].
    apply (@suffix_of_trans _ (lstrip buffer));
      [apply drop_suffix | apply lstrip_suffix]. }
  destruct (mem (take 1 remainder) mention_punctuation);
    injection H as <- <-; (split; [|discriminate]); [|exact Hrem].
  apply (@suffix_of_trans _ (drop 1 remainder)); [apply lstrip_suffix|].
  apply (@suffix_of_trans _ remainder); [apply drop_suffix | exact Hrem].
Qed.

Lemma consume_stream_suffix env message_id name chunks st :
  cancel_at env = None ->
  mention_guard_resolved st = false -> truthy name = true ->
  exists st',
    consume_stream env message_id name (List.map Token chunks) st = (Ok tt, st')
    /\ ((mention_guard_resolved st' = false
         /\ mention_guard_buffer st'
            = mention_guard_buffer st ++ List.concat chunks
         /\ sent st' = sent st)
        \/ (mention_guard_resolved st' = true
            /\ exists out,
                 sent st' = sent st ++ out
                 /\ suffix_of out
                      (mention_guard_buffer st ++ List.concat chunks))).
Proof.
  intros Hc Hres Hname. revert st Hres.
  induction chunks as [|tok rest IH]; intros st Hres;
    cbn [List.map consume_stream].
  - rewrite (suspend_uncancelled env Hc). eexists. split; [reflexivity|].
    left. cbn. rewrite app_nil_r. auto.
  - unfold bind at 1. rewrite (suspend_uncancelled env Hc).
    destruct (truthy tok) eqn:Et.
    2:{ apply truthy_false in Et. subst tok. unfold bind at 1, ret.
        destruct (IH (count_await st) Hres) as (st2 & -> & Hcase).
        exists st2. split; [reflexivity|]. exact Hcase. }
    unfold bind at 1. unfold process_token, bind at 1, get.
    assert (Hg : negb (mention_guard_resolved (count_await st))
                 && truthy name = true).
    { cbn. rewrite Hres, Hname. reflexivity. }
    rewrite Hg. cbn [mention_guard_buffer count_await].
    destruct (_consume_leading_duplicate_mention
                (mention_guard_buffer st ++ tok) name)
      as [resolved out] eqn:Ec.
    destruct (consume_suffix _ _ Ec) as [Hsuf _].
    unfold bind at 1, modify.
    destruct resolved; cbn [negb].
    + destruct (forward_uncancelled env message_id Hc out
                  (set_guard true (mention_guard_buffer st ++ tok)
                             (count_await st)))
        as (st1 & -> & S1 & R1 & B1).
      destruct (consume_stream_resolved env message_id Hc name rest st1)
        as (st2 & -> & S2 & R2 & B2).
      { left. rewrite R1. reflexivity. }
      exists st2. split; [reflexivity|]. right.
      split; [now rewrite R2, R1|].
      exists (out ++ List.concat rest). split.
      * rewrite S2, S1. unfold sent. cbn. now rewrite <- app_assoc.
      * cbn [List.concat]. rewrite app_assoc. now apply suffix_of_app.
    + unfold ret.
      destruct (IH (set_guard false (mention_guard_buffer st ++ tok)
                              (count_await st)) eq_refl)
        as (st2 & -> & Hcase).
      exists st2. split; [reflexivity|].
      cbn [mention_guard_buffer set_guard List.concat] in *.
      rewrite <- !app_assoc in Hcase. exact Hcase.
Qed.

(** X13. The mention filter only ever removes a prefix. Whatever the
    buffer and the target, what [_consume_leading_duplicate_mention]
    returns is a suffix of the buffer, and the empty string while it keeps
    buffering; and for every stream of chunks that ends normally, the text
    forwarded after the canonical prefix is a suffix of the text streamed:
    nothing is reordered, duplicated or dropped after the start. *)
Theorem mention_filter_removes_prefix_only name :
  (forall buffer,
     let r := _consume_leading_duplicate_mention buffer name in
     suffix_of (snd r) buffer /\ (fst r = false -> snd r = []))
  /\ (forall chunks,
        suffix_of (forwarded name chunks) (List.concat chunks)
        /\ (List.length (forwarded name chunks)
            <= List.length (List.concat chunks))%nat).
Proof.
  split.
  { intros buffer. cbv zeta.
    destruct (_consume_leading_duplicate_mention buffer name) as [b out] eqn:E.
    exact (consume_suffix _ _ E). }
  intros chunks.
  assert (H : suffix_of (forwarded name chunks) (List.concat chunks)).
  2:{ split; [exact H | now apply suffix_of_length]. }
  unfold forwarded. cbv zeta. unfold bind.
  set (st0 := set_guard (negb (truthy name)) [] initial_rstate).
  assert (Hc : cancel_at uncancelled = None) by reflexivity.
  destruct (truthy name) eqn:En.
  - destruct (@consume_stream_suffix uncancelled [] name chunks st0 Hc
                eq_refl En) as (st1 & -> & Hcase).
    destruct (flush_guard_uncancelled uncancelled [] st1 Hc) as (st2 & -> & Hs).
    cbn [snd]. fold (sent st2). rewrite Hs.
    destruct Hcase as [(R & B & S) | (R & out & S & Hsuf)].
    + rewrite R, B, S. cbn [negb andb mention_guard_buffer st0 set_guard app].
      destruct (List.concat chunks); cbn; apply suffix_of_refl.
    + rewrite R. cbn [negb andb]. rewrite S. exact Hsuf.
  - destruct (consume_stream_resolved uncancelled [] Hc name chunks st0
                (or_introl eq_refl)) as (st1 & -> & S & R & B).
    destruct (flush_guard_uncancelled uncancelled [] st1 Hc) as (st2 & -> & Hs).
    cbn [snd]. fold (sent st2). rewrite Hs, R. cbn [negb andb].
    rewrite S. apply suffix_of_refl.
Qed.

End MentionFilterSuffix.

(* ================================================================== *)
(** * src/utils/common.py: the classification of timeouts *)
(* ================================================================== *)

Section TimeoutClassification.

Lemma contains_spec hay needle :
  contains hay needle = true <-> exists pre post, hay = pre ++ needle ++ post.
Proof.
  induction hay as [|c hay IH]; cbn [contains].
  - rewrite orb_false_r, startswith_spec. split.
    + intros [r Hr]. exists [], r. exact Hr.
    + intros (pre & post & H). destruct pre; [|discriminate].
      exists post. exact H.
  - rewrite orb_true_iff, startswith_spec, IH. split.
    + intros [[r Hr] | (pre & post & H)].
      * exists [], r. exact Hr.
      * exists (c :: pre), post. cbn. now rewrite H.
    + intros (pre & post & H). destruct pre as [|c' pre].
      * left. exists post. exact H.
      * right. injection H as _ H. now exists pre, post.
Qed.

Lemma lower_char_idem c : lower_char (lower_char c) = lower_char c.
Proof.
  unfold lower_char.
  destruct ((65 <=? c) && (c <=? 90))%N eqn:E; [|now rewrite E].
  apply andb_true_iff in E as [E1 E2].
  apply N.leb_le in E1. apply N.leb_le in E2.
  replace ((65 <=? c + 32) && (c + 32 <=? 90))%N with false; [reflexivity|].
  symmetry. apply andb_false_iff. right. apply N.leb_gt. lia.
Qed.

Lemma lower_idem s : lower (lower s) = lower s.
Proof.
  unfold lower. rewrite map_map. apply map_ext. apply lower_char_idem.
Qed.

Lemma lower_app a b : lower (a ++ b) = lower a ++ lower b.
Proof. apply map_app. Qed.

(** The three texts [is_transient_timeout_error] looks for. *)
Definition timeout_markers : list str :=
  [u "timeout"; u "deadline exceeded"; u "awaiting headers"].

(** X14. [is_transient_timeout_error] says yes exactly when the lower-cased
    text of the exception contains ["timeout"], ["deadline exceeded"] or
    ["awaiting headers"]. So the answer does not depend on letter case, and
    a text classified as a timeout stays one when other text is put before
    and after it (an exception message that quotes another). *)
Theorem is_transient_timeout_error_spec text :
  (Common.is_transient_timeout_error text = true
   <-> exists marker pre post,
         In marker timeout_markers /\ lower text = pre ++ marker ++ post)
  /\ Common.is_transient_timeout_error (lower text)
     = Common.is_transient_timeout_error text
  /\ (forall pre post,
        Common.is_transient_timeout_error text = true ->
        Common.is_transient_timeout_error (pre ++ text ++ post) = true).
Proof.
  assert (Hiff : forall t,
            Common.is_transient_timeout_error t = true
            <-> exists marker pre post,
                  In marker timeout_markers /\ lower t = pre ++ marker ++ post).
  { intros t. unfold Common.is_transient_timeout_error. cbv zeta.
    rewrite !orb_true_iff, !contains_spec. unfold timeout_markers. split.
    - intros [[(pre & post & H) | (pre & post & H)] | (pre & post & H)].
      + exists (u "timeout"), pre, post. split; [now left | exact H].
      + exists (u "deadline exceeded"), pre, post.
        split; [right; now left | exact H].
      + exists (u "awaiting headers"), pre, post.
        split; [right; right; now left | exact H].
    - intros (marker & pre & post & [<- | [<- | [<- | []]]] & H).
      + left; left. now exists pre, post.
      + left; right. now exists pre, post.
      + right. now exists pre, post. }
  split; [apply Hiff|]. split.
  - unfold Common.is_transient_timeout_error. cbv zeta.
    now rewrite lower_idem.
  - intros pre post H. apply Hiff in H as (marker & p & q & Hin & E).
    apply Hiff. exists marker, (lower pre ++ p), (q ++ lower post).
    split; [exact Hin|]. rewrite !lower_app, E. now rewrite <- !app_assoc.
Qed.

End TimeoutClassification.

(* ================================================================== *)
(** * src/services/orchestrator.py: the window of recent messages *)
(* ================================================================== *)

Module RecentMessages.

Import Orchestrator.

(** [l[start:]] for a list and an integer [start], negative or not. *)
Definition slice_from {A} (start : Z) (l : list A) : list A :=
  let len := Z.of_nat (List.length l) in
  let start :=
    if (start <? 0)%Z then Z.max 0 (start + len) else Z.min start len in
  skipn (Z.to_nat start) l.

(** [_get_recent_messages(limit)] on [self.messages] *)
Definition _get_recent_messages (limit : Z) (messages : list ChatMessage)
  : list ChatMessage :=
  if (limit <? Z.of_nat (List.length messages))%Z
  then slice_from (- limit) messages
  else messages.

(** [recent_messages[-1].author_name if recent_messages else None] *)
Definition last_speaker (recent_messages : list ChatMessage) : option str :=
  match rev recent_messages with
  | [] => None
  | m :: _ => Some (m_author_name m)
  end.

End RecentMessages.

Section RecentMessagesProperties.

Import Orchestrator RecentMessages.

Lemma rev_skipn_head {A} n (l : list A) :
  (n < List.length l)%nat ->
  hd_error (rev (skipn n l)) = hd_error (rev l).
Proof.
  intros Hn. rewrite <- (firstn_skipn n l) at 2. rewrite rev_app_distr.
  destruct (rev (skipn n l)) as [|x r] eqn:E; [|reflexivity].
  exfalso. apply (f_equal (@List.length A)) in E.
  rewrite length_rev, length_skipn in E. cbn in E. lia.
Qed.

Lemma last_speaker_hd l :
  last_speaker l = option_map m_author_name (hd_error (rev l)).
Proof. unfold last_speaker. destruct (rev l); reflexivity. Qed.

(** A positive limit: the last [limit] messages. *)
Lemma get_recent_messages_positive limit messages :
  (0 < limit)%Z ->
  _get_recent_messages limit messages
  = skipn (List.length messages - Z.to_nat limit) messages
  /\ last_speaker (_get_recent_messages limit messages)
     = last_speaker messages.
Proof.
  intros Hpos. unfold _get_recent_messages, slice_from.
  destruct (limit <? Z.of_nat (List.length messages))%Z eqn:E.
  - apply Z.ltb_lt in E.
    replace (- limit <? 0)%Z with true by (symmetry; apply Z.ltb_lt; lia).
    replace (Z.to_nat (Z.max 0 (- limit + Z.of_nat (List.length messages))))
      with (List.length messages - Z.to_nat limit)%nat by lia.
    split; [reflexivity|].
    rewrite !last_speaker_hd. f_equal. apply rev_skipn_head. lia.
  - apply Z.ltb_ge in E.
    replace (List.length messages - Z.to_nat limit)%nat with 0%nat by lia.
    split; reflexivity.
Qed.

(** X15. [_get_recent_messages(limit)] with a positive limit returns the
    last [limit] messages in order (all of them when there are no more
    than [limit]): never more than [limit], always a suffix of the log, and
    with the same last speaker as the whole log. With limit 0 it returns
    the whole log, not the empty list, since [messages[-0:]] is
    [messages[0:]]. *)
Theorem get_recent_messages_window limit messages :
  let recent := _get_recent_messages limit messages in
  (exists older, messages = older ++ recent)
  /\ ((0 < limit)%Z ->
      recent
      = skipn (List.length messages - Z.to_nat limit) messages
      /\ List.length recent
         = Nat.min (List.length messages) (Z.to_nat limit)
      /\ last_speaker recent = last_speaker messages)
  /\ (limit = 0%Z -> recent = messages).
Proof.
  cbv zeta. unfold _get_recent_messages, slice_from.
  destruct (limit <? Z.of_nat (List.length messages))%Z eqn:E.
  - apply Z.ltb_lt in E. split; [|split].
    + eexists. symmetry. apply firstn_skipn.
    + intros Hpos.
      replace (- limit <? 0)%Z with true by (symmetry; apply Z.ltb_lt; lia).
      replace (Z.to_nat (Z.max 0 (- limit + Z.of_nat (List.length messages))))
        with (List.length messages - Z.to_nat limit)%nat by lia.
      split; [reflexivity|]. split.
      * rewrite length_skipn. lia.
      * rewrite !last_speaker_hd. f_equal. apply rev_skipn_head. lia.
    + intros ->. cbn [Z.opp Z.ltb Z.compare].
      replace (Z.to_nat (Z.min 0 (Z.of_nat (List.length messages))))
        with 0%nat by lia.
      reflexivity.
  - apply Z.ltb_ge in E. split; [|split].
    + exists []. reflexivity.
    + intros Hpos.
      replace (List.length messages - Z.to_nat limit)%nat with 0%nat by lia.
      split; [reflexivity|]. split; [lia | reflexivity].
    + reflexivity.
Qed.

Definition note (name : string) : ChatMessage :=
  {| m_id := u name; m_author_type := u "ai"; m_author_id := None;
     m_author_name := u name; m_content := u "..";
     m_target_message_id := None; m_target_author_name := None |}.

Lemma get_recent_messages_window_witness :
  _get_recent_messages 2 [note "a"; note "b"; note "c"] = [note "b"; note "c"]
  /\ _get_recent_messages 0 [note "a"; note "b"] = [note "a"; note "b"].
Proof.
  destruct (get_recent_messages_window 2 [note "a"; note "b"; note "c"])
    as (_ & H2 & _).
  destruct (get_recent_messages_window 0 [note "a"; note "b"])
    as (_ & _ & H0).
  assert (Hpos : (0 < 2)%Z) by reflexivity.
  destruct (H2 Hpos) as (-> & _). split; [reflexivity|].
  apply H0. reflexivity.
Defined.

End RecentMessagesProperties.

(* ================================================================== *)
(** * src/services/agent_reply.py: the text of a stream item *)
(* ================================================================== *)

Module TokenText.

(** The Python values [_extract_token_text] tells apart: a [str], a
    [dict] (its items, keys distinct), a [list], anything else ([None]
    included). *)
#[warnings="-register-all"] Inductive pyobj :=
| PyStr (s : str)
| PyDict (items : list (str * pyobj))
| PyList (items : list pyobj)
| PyOther.

(** [getattr(token, "text", None)]: absent or not callable, or a callable
    with what calling it does. *)
Inductive text_attr :=
| NotCallable
| Returns (value : pyobj)
| RaisesException.

(** A stream item: a [str], or an object with its [content] and
    [content_blocks] attributes ([PyOther] when absent) and its [text]. *)
Record token_object := {
  content : pyobj;
  content_blocks : pyobj;
  text : text_attr
}.

Inductive token :=
| StrToken (s : str)
| ObjToken (o : token_object).





End TokenText.

Section TokenTextProperties.

Import TokenText.




End TokenTextProperties.

(* ================================================================== *)
(** * src/services/persona.py *)
(* ================================================================== *)

Module Persona.

(** One item of [personas]: what [persona.get(key)] returns for the three
    keys ([None] for a missing key or a [None] value). *)
Record persona_dict := {
  p_nickname : option str;
  p_style : option str;
  p_persona : option str
}.

(** The [ValueError]s of [_validate_persona_batch]. *)
Inductive persona_error :=
| WrongCount (expected : Z) (got : nat)
| EmptyRequiredFields (idx : nat)
| NicknameTooLong (idx : nat) (nickname : str)
| DuplicateNickname (nickname : str).

(** [(persona.get(key) or "").strip()] *)
Definition field (x : option str) : str := strip (or_empty x).

(** The loop of lines 18-28; [None] when it ends without raising. *)
Fixpoint validate_from (idx : nat) (nickname_set : list str)
         (personas : list persona_dict) : option persona_error :=
  match personas with
  | [] => None
  | persona :: rest =>
      let nickname := field (p_nickname persona) in
      let style := field (p_style persona) in
      let description := field (p_persona persona) in
      if negb (truthy nickname) || negb (truthy style)
         || negb (truthy description)
      then Some (EmptyRequiredFields idx)
      else if (6 <? List.length nickname)%nat
      then Some (NicknameTooLong idx nickname)
      else if mem nickname nickname_set
      then Some (DuplicateNickname nickname)
      else validate_from (S idx) (nickname :: nickname_set) rest
  end.

(** [_validate_persona_batch(personas, expected_count)]: the error raised,
    or [None]. *)
Definition _validate_persona_batch (personas : list persona_dict)
           (expected_count : Z) : option persona_error :=
  if negb (Z.of_nat (List.length personas) =? expected_count)%Z
  then Some (WrongCount expected_count (List.length personas))
  else validate_from 1 [] personas.

End Persona.

Section PersonaProperties.

Import Persona.

(** A persona the loop accepts on its own. *)
Definition well_formed (p : persona_dict) : Prop :=
  field (p_nickname p) <> [] /\ field (p_style p) <> []
  /\ field (p_persona p) <> []
  /\ (List.length (field (p_nickname p)) <= 6)%nat.

Definition nicknames (personas : list persona_dict) : list str :=
  List.map (fun p => field (p_nickname p)) personas.

Lemma validate_from_ok idx seen personas :
  validate_from idx seen personas = None
  <-> Forall well_formed personas
      /\ NoDup (nicknames personas)
      /\ (forall n, In n (nicknames personas) -> ~ In n seen).
Proof.
  revert idx seen. induction personas as [|p rest IH]; intros idx seen.
  - cbn. split; [|reflexivity]. intros _.
    split; [constructor|]. split; [constructor | intros n []].
  - cbn [validate_from nicknames List.map]. cbv zeta.
    destruct (truthy (field (p_nickname p))) eqn:E1; cbn [negb orb].
    2:{ apply truthy_false in E1. split; [discriminate|].
        intros (H & _). inversion H as [|? ? (Hn & _) _]; subst.
        contradiction. }
    destruct (truthy (field (p_style p))) eqn:E2; cbn [negb orb].
    2:{ apply truthy_false in E2. split; [discriminate|].
        intros (H & _). inversion H as [|? ? (_ & Hs & _) _]; subst.
        contradiction. }
    destruct (truthy (field (p_persona p))) eqn:E3; cbn [negb orb].
    2:{ apply truthy_false in E3. split; [discriminate|].
        intros (H & _). inversion H as [|? ? (_ & _ & Hd & _) _]; subst.
        contradiction. }
    apply truthy_true in E1, E2, E3.
    destruct (6 <? List.length (field (p_nickname p)))%nat eqn:E4.
    { apply Nat.ltb_lt in E4. split; [discriminate|].
      intros (H & _). inversion H as [|? ? (_ & _ & _ & Hl) _]; subst. lia. }
    apply Nat.ltb_ge in E4.
    destruct (mem (field (p_nickname p)) seen) eqn:E5.
    { apply mem_In in E5. split; [discriminate|].
      intros (_ & _ & H). elim (H (field (p_nickname p))); [now left | exact E5]. }
    assert (E5' : ~ In (field (p_nickname p)) seen).
    { intros H. apply mem_In in H. congruence. }
    rewrite IH. fold (nicknames rest). split.
    + intros (Hwf & Hnd & Hseen). split; [|split].
      * constructor; [repeat split; assumption | exact Hwf].
      * constructor; [|exact Hnd]. intros Hin.
        apply (Hseen _ Hin). now left.
      * intros n [<- | Hin]; [exact E5'|].
        intros Hs. apply (Hseen n Hin). now right.
    + intros (Hwf & Hnd & Hseen).
      inversion Hwf as [|? ? _ Hwf']; subst.
      inversion Hnd as [|? ? Hnotin Hnd']; subst.
      split; [exact Hwf'|]. split; [exact Hnd'|].
      intros n Hin [<- | Hs]; [contradiction|].
      apply (Hseen n); [now right | exact Hs].
Qed.

Definition persona_of (nickname style description : string) : persona_dict :=
  {| p_nickname := Some (u nickname); p_style := Some (u style);
     p_persona := Some (u description) |}.

(** X17. [_validate_persona_batch] accepts a batch exactly when it has the
    expected number of personas, every persona's nickname, style and
    persona text are non-blank, every nickname is at most 6 characters
    long after stripping, and no two stripped nicknames are equal. The
    comparison of nicknames is after stripping and exact in letter case. *)
Theorem validate_persona_batch_accepts personas expected_count :
  _validate_persona_batch personas expected_count = None
  <-> Z.of_nat (List.length personas) = expected_count
      /\ Forall (fun p =>
                   blank (or_empty (p_nickname p)) = false
                   /\ blank (or_empty (p_style p)) = false
                   /\ blank (or_empty (p_persona p)) = false
                   /\ (List.length (strip (or_empty (p_nickname p))) <= 6)%nat)
                personas
      /\ NoDup (List.map (fun p => strip (or_empty (p_nickname p))) personas).
Proof.
  assert (Hnb : forall s, strip s <> [] <-> blank s = false).
  { intros s. rewrite strip_nil_blank. destruct (blank s); split; congruence. }
  assert (Hwf : Forall well_formed personas
                <-> Forall (fun p =>
                   blank (or_empty (p_nickname p)) = false
                   /\ blank (or_empty (p_style p)) = false
                   /\ blank (or_empty (p_persona p)) = false
                   /\ (List.length (strip (or_empty (p_nickname p))) <= 6)%nat)
                personas).
  { rewrite !Forall_forall. unfold well_formed, field.
    split; intros H p Hp; specialize (H p Hp);
      rewrite !Hnb in *; exact H. }
  unfold _validate_persona_batch.
  destruct (Z.of_nat (List.length personas) =? expected_count)%Z eqn:E;
    cbn [negb].
  - apply Z.eqb_eq in E. rewrite validate_from_ok, Hwf.
    unfold nicknames, field. split.
    + intros (H1 & H2 & _). auto.
    + intros (_ & H1 & H2). split; [exact H1|]. split; [exact H2|].
      intros n _ [].
  - apply Z.eqb_neq in E. split; [discriminate|]. intros (H & _). contradiction.
Qed.

Lemma validate_persona_batch_accepts_witness :
  _validate_persona_batch
    [persona_of "Ann" "dry" "sceptic"; persona_of " Ann " "warm" "optimist"] 2
  = Some (DuplicateNickname (u "Ann"))
  /\ _validate_persona_batch
       [persona_of "Ann" "dry" "sceptic"; persona_of "ann" "warm" "optimist"] 2
     = None.
Proof.
  split; [reflexivity|].
  apply validate_persona_batch_accepts.
  split; [reflexivity|]. split.
  - repeat constructor.
  - constructor; [|constructor; [intros [] | constructor]].
    intros [H | []]. vm_compute in H. discriminate.
Defined.

End PersonaProperties.

(* ================================================================== *)
(** * src/services/session.py: the checks of [create_session] *)
(* ================================================================== *)

Module Session.

(** [AgentConfig]: the per-agent model override. *)
Record AgentConfig := { ac_model_name : option str }.

(** [AgentConfig()] *)
Definition default_agent_config : AgentConfig := {| ac_model_name := None |}.

(** The two [ValueError]s of lines 39-59; the second carries the names its
    message lists. *)
Inductive create_error :=
| AgentCountOutOfRange
| UnsupportedModelNames (invalid_models : list str).

(** [a <= b] on strings, by code points. *)
Fixpoint str_leb (a b : str) : bool :=
  match a, b with
  | [], _ => true
  | _ :: _, [] => false
  | x :: a', y :: b' =>
      if (x <? y)%N then true
      else if (y <? x)%N then false
      else str_leb a' b'
  end.

Fixpoint insert_sorted (x : str) (l : list str) : list str :=
  match l with
  | [] => [x]
  | y :: r =>
      if eqb x y then l
      else if str_leb x y then x :: l
      else y :: insert_sorted x r
  end.

(** [sorted({...})] of the names in [l] *)
Definition sorted_set (l : list str) : list str :=
  fold_right insert_sorted [] l.

(** Lines 43-45 *)
Definition normalized_configs (agent_count : Z)
           (agent_configs : option (list AgentConfig)) : list AgentConfig :=
  let configs :=
    match agent_configs with
    | Some (c :: cs) => c :: cs
    | _ => repeat default_agent_config (Z.to_nat agent_count)
    end in
  if (Z.of_nat (List.length configs) <? agent_count)%Z
  then configs
       ++ repeat default_agent_config
            (Z.to_nat (agent_count - Z.of_nat (List.length configs)))
  else configs.

(** Lines 48-54 *)
Definition invalid_models (allowed_models : list str)
           (configs : list AgentConfig) : list str :=
  sorted_set
    (flat_map
       (fun cfg =>
          match ac_model_name cfg with
          | Some name =>
              if truthy name && negb (mem name allowed_models)
              then [name] else []
          | None => []
          end)
       configs).

(** Lines 38-59 of [create_session]: the error raised, or the configs the
    rest of the function works with. *)
Definition create_session_checks (max_agents : Z)
           (available_models : list str) (agent_count : Z)
           (agent_configs : option (list AgentConfig))
  : create_error + list AgentConfig :=
  if (agent_count <? 1)%Z || (max_agents <? agent_count)%Z
  then inl AgentCountOutOfRange
  else
    let configs := normalized_configs agent_count agent_configs in
    match available_models with
    | [] => inr configs
    | _ :: _ =>
        match invalid_models available_models configs with
        | [] => inr configs
        | invalid => inl (UnsupportedModelNames invalid)
        end
    end.

End Session.

Section SessionProperties.

Import Session.

Lemma insert_sorted_In x y l : In x (insert_sorted y l) <-> x = y \/ In x l.
Proof.
  induction l as [|z l IH]; cbn.
  - intuition congruence.
  - destruct (eqb y z) eqn:E.
    + apply eqb_eq in E. subst. cbn. intuition congruence.
    + destruct (str_leb y z); cbn; [intuition congruence|].
      rewrite IH. intuition congruence.
Qed.

Lemma sorted_set_In x l : In x (sorted_set l) <-> In x l.
Proof.
  induction l as [|y l IH]; cbn; [reflexivity|].
  rewrite insert_sorted_In, IH. intuition congruence.
Qed.

Definition given_configs (agent_configs : option (list AgentConfig))
  : list AgentConfig :=
  match agent_configs with Some l => l | None => [] end.

Lemma normalized_configs_spec agent_count agent_configs :
  normalized_configs agent_count agent_configs
  = given_configs agent_configs
    ++ repeat default_agent_config
         (Z.to_nat agent_count - List.length (given_configs agent_configs)).
Proof.
  unfold normalized_configs, given_configs.
  set (given := match agent_configs with Some l => l | None => [] end).
  assert (E : match agent_configs with
              | Some (c :: cs) => c :: cs
              | _ => repeat default_agent_config (Z.to_nat agent_count)
              end
              = match given with
                | [] => repeat default_agent_config (Z.to_nat agent_count)
                | _ => given
                end).
  { unfold given. destruct agent_configs as [[|c cs]|]; reflexivity. }
  rewrite E. clear E. destruct given as [|c cs].
  - cbn [app List.length]. rewrite repeat_length, Nat.sub_0_r.
    destruct (Z.of_nat (Z.to_nat agent_count) <? agent_count)%Z eqn:E;
      [|reflexivity].
    apply Z.ltb_lt in E. lia.
  - destruct (Z.of_nat (List.length (c :: cs)) <? agent_count)%Z eqn:E.
    + f_equal. f_equal. lia.
    + apply Z.ltb_ge in E.
      replace (Z.to_nat agent_count - List.length (c :: cs))%nat
        with 0%nat by lia.
      cbn [repeat]. now rewrite app_nil_r.
Qed.

Lemma invalid_models_In allowed configs n :
  In n (invalid_models allowed configs)
  <-> n <> [] /\ ~ In n allowed
      /\ exists cfg, In cfg configs /\ ac_model_name cfg = Some n.
Proof.
  unfold invalid_models. rewrite sorted_set_In, in_flat_map. split.
  - intros (cfg & Hin & H). destruct (ac_model_name cfg) as [name|] eqn:E;
      [|destruct H].
    destruct (truthy name && negb (mem name allowed)) eqn:Et; [|destruct H].
    destruct H as [<- | []].
    apply andb_true_iff in Et as [Et Em]. apply truthy_true in Et.
    apply negb_true_iff in Em.
    split; [exact Et|]. split; [|now exists cfg].
    intros Hin'. apply mem_In in Hin'. congruence.
  - intros (Hne & Hnot & cfg & Hin & E). exists cfg. split; [exact Hin|].
    rewrite E.
    replace (truthy n && negb (mem n allowed)) with true; [now left|].
    symmetry. apply andb_true_iff. split; [now apply truthy_true|].
    apply negb_true_iff. destruct (mem n allowed) eqn:Em; [|reflexivity].
    apply mem_In in Em. contradiction.
Qed.

(** X18. The checks of [create_session]. It raises for an agent count
    outside [1, max_agents]; otherwise the configs it works with are the
    given ones (none when [agent_configs] is [None] or empty) followed by
    as many default configs as are missing, so there is one for each agent
    (line 91 never indexes out of range), and surplus configs are kept.
    With a non-empty [available_models] it raises exactly when one of
    those configs, surplus ones included, names a non-empty model that is
    not available, and the error lists exactly these names; with an empty
    [available_models] every model name passes. *)
Theorem create_session_checks_spec max_agents available_models agent_count
        agent_configs :
  let configs :=
    given_configs agent_configs
    ++ repeat default_agent_config
         (Z.to_nat agent_count - List.length (given_configs agent_configs)) in
  match create_session_checks max_agents available_models agent_count
          agent_configs with
  | inl AgentCountOutOfRange =>
      (agent_count < 1 \/ max_agents < agent_count)%Z
  | inl (UnsupportedModelNames invalid) =>
      (1 <= agent_count <= max_agents)%Z
      /\ available_models <> [] /\ invalid <> []
      /\ forall n,
           In n invalid
           <-> n <> [] /\ ~ In n available_models
               /\ exists cfg, In cfg configs /\ ac_model_name cfg = Some n
  | inr accepted =>
      (1 <= agent_count <= max_agents)%Z
      /\ accepted = configs
      /\ (Z.to_nat agent_count <= List.length accepted)%nat
      /\ (forall i, (i < Z.to_nat agent_count)%nat ->
                    nth_error accepted i <> None)
      /\ (available_models <> [] ->
          forall cfg n,
            In cfg accepted -> ac_model_name cfg = Some n -> n <> [] ->
            In n available_models)
  end.
Proof.
  cbv zeta. unfold create_session_checks.
  destruct ((agent_count <? 1)%Z || (max_agents <? agent_count)%Z) eqn:E.
  { apply orb_true_iff in E as [E | E]; apply Z.ltb_lt in E; auto. }
  apply orb_false_iff in E as [E1 E2].
  apply Z.ltb_ge in E1. apply Z.ltb_ge in E2.
  rewrite normalized_configs_spec.
  set (configs := given_configs agent_configs
                  ++ repeat default_agent_config
                       (Z.to_nat agent_count
                        - List.length (given_configs agent_configs))).
  assert (Hlen : (Z.to_nat agent_count <= List.length configs)%nat).
  { unfold configs. rewrite length_app, repeat_length. lia. }
  assert (Hnth : forall i, (i < Z.to_nat agent_count)%nat ->
                           nth_error configs i <> None).
  { intros i Hi. apply nth_error_Some. lia. }
  destruct available_models as [|m ms].
  { split; [lia|]. split; [reflexivity|]. split; [exact Hlen|].
    split; [exact Hnth|]. intros H. now elim H. }
  destruct (invalid_models (m :: ms) configs) as [|x invalid] eqn:Ei.
  - split; [lia|]. split; [reflexivity|]. split; [exact Hlen|].
    split; [exact Hnth|]. intros _ cfg n Hin Hn Hne.
    destruct (in_dec (list_eq_dec N.eq_dec) n (m :: ms)) as [Hy | Hno];
      [exact Hy|].
    exfalso.
    assert (H : In n (invalid_models (m :: ms) configs)).
    { apply invalid_models_In. split; [exact Hne|]. split; [exact Hno|].
      now exists cfg. }
    rewrite Ei in H. destruct H.
  - split; [lia|]. split; [discriminate|]. split; [discriminate|].
    intros n. rewrite <- Ei. apply invalid_models_In.
Qed.

End SessionProperties.

(* ================================================================== *)
(** * src/api/ws.py: the receive loop, one client event at a time *)
(* ================================================================== *)

Module Ws.

Import AgentReplyStage Orchestrator Scheduler.

(** [WSClientEvent] *)
Record WSClientEvent := {
  ev_type : str;
  ev_content : option str
}.

(** The author name the handler gives user messages (U+7528 U+6237). *)
Definition user_name : str := [29992%N; 25143%N].

(** The [ChatMessage] of lines 148-154. *)
Definition user_chat_message (msg_id content : str) : ChatMessage :=
  {| m_id := msg_id; m_author_type := u "user"; m_author_id := None;
     m_author_name := user_name; m_content := content;
     m_target_message_id := None; m_target_author_name := None |}.

(** What the loop sends back to the client for one event. *)
Inductive ws_reply :=
| NoReply
| UserMessageCompleted (msg_id content : str)
| GenerationStopped
| SessionEnded
| UnknownEventType (type : str).

(** [session.end_session(session_id)] for the session of the connection:
    the orchestrator is shut down if the registry still holds it. *)
Definition end_session (registered : bool) (now : Q) : list label :=
  if registered then [Shutdown (u "manual_end") false now] else [].

(** One pass of the receive loop for a well-formed client event: the
    pieces of the orchestrator it runs, what it sends back, whether the
    session stays registered and whether the loop goes on. Persisting and
    sending are taken to succeed. *)
Record outcome := {
  labels : list label;
  reply : ws_reply;
  registered_after : bool;
  continues : bool
}.

Definition on_client_event (msg_id : str) (now : Q) (registered : bool)
           (client_event : WSClientEvent) : outcome :=
  if eqb (ev_type client_event) (u "user_message") then
    let content := strip (or_empty (ev_content client_event)) in
    if negb (truthy content) then
      {| labels := []; reply := NoReply; registered_after := registered;
         continues := true |}
    else
      {| labels := handle_new_message (user_chat_message msg_id content) now;
         reply := UserMessageCompleted msg_id content;
         registered_after := registered; continues := true |}
  else if eqb (ev_type client_event) (u "stop") then
    {| labels := [Stop true now]; reply := GenerationStopped;
       registered_after := registered; continues := true |}
  else if eqb (ev_type client_event) (u "end_session") then
    {| labels := end_session registered now; reply := SessionEnded;
       registered_after := false; continues := false |}
  else
    {| labels := []; reply := UnknownEventType (ev_type client_event);
       registered_after := registered; continues := true |}.

End Ws.

Section WsProperties.

Import AgentReplyStage Orchestrator Scheduler Ws.

Lemma step_stop cfg force now s :
  clock s <= now ->
  step cfg (Stop force now) s
  = Some (set_orch (stop force now (orch s)) (set_clock now s)).
Proof. intros H. unfold step. now rewrite (at_time_due _ _ H). Qed.

Lemma step_shutdown cfg why emit_ev now s :
  clock s <= now ->
  step cfg (Shutdown why emit_ev now) s
  = Some (if _ended (orch s) then set_clock now s
          else workers_cancelled
                 (set_orch (shutdown why emit_ev now (orch s))
                    (set_clock now s))).
Proof.
  intros H. unfold step. rewrite (at_time_due _ _ H).
  now destruct (_ended (orch s)).
Qed.

Lemma workers_cancelled_frame s0 :
  let o := orch (workers_cancelled s0) in
  _ended o = _ended (orch s0)
  /\ _end_reason o = _end_reason (orch s0)
  /\ emitted o = emitted (orch s0)
  /\ messages o = messages (orch s0)
  /\ _generation_paused o = _generation_paused (orch s0)
  /\ approvals (workers_cancelled s0) = approvals s0.
Proof.
  cbv zeta. unfold workers_cancelled. cbn [orch set_workers set_orch approvals].
  pose proof (finally_fold_same (workers s0) (orch s0)) as E.
  unfold same_but_pending in E. rewrite E. cbn. repeat split; reflexivity.
Qed.

Lemma shutdown_quietly why now o :
  _ended o = false ->
  let o' := shutdown why false now o in
  _ended o' = true /\ _end_reason o' = Some why
  /\ emitted o' = emitted o /\ messages o' = messages o.
Proof.
  intros H. cbv zeta. unfold shutdown. rewrite H. cbn. repeat split.
Qed.

(** X19. One client event on the WebSocket, for every event and every
    state of the session, when persisting and sending succeed. The pass
    always runs to its end and grants no approval. It appends at most one
    message: only for a [user_message] whose content is not blank, and
    then a user message carrying the content stripped, after which
    generation is not paused. A blank [user_message] and an unknown event
    type leave the session as it is. [stop] pauses generation and appends
    nothing. [end_session] ends a registered session by [shutdown] with
    reason [manual_end] (unless it had ended before), without the
    orchestrator emitting [session_ended], unregisters it and leaves the
    loop. *)
Theorem ws_client_event_effect cfg msg_id now registered client_event s :
  clock s <= now ->
  let out := on_client_event msg_id now registered client_event in
  let content := strip (or_empty (ev_content client_event)) in
  exists s',
    exec cfg (labels out) s = Some s'
    /\ approvals s' = approvals s
    /\ (messages (orch s') = messages (orch s)
        \/ (ev_type client_event = u "user_message" /\ content <> []
            /\ messages (orch s')
               = messages (orch s) ++ [user_chat_message msg_id content]
            /\ _generation_paused (orch s') = false
            /\ reply out = UserMessageCompleted msg_id content))
    /\ (ev_type client_event = u "user_message" -> content = [] ->
        s' = s /\ reply out = NoReply)
    /\ (ev_type client_event = u "stop" ->
        _generation_paused (orch s') = true
        /\ messages (orch s') = messages (orch s)
        /\ _ended (orch s') = _ended (orch s))
    /\ (ev_type client_event = u "end_session" ->
        registered_after out = false /\ continues out = false
        /\ emitted (orch s') = emitted (orch s)
        /\ messages (orch s') = messages (orch s)
        /\ (registered = true ->
            _ended (orch s') = true
            /\ (_ended (orch s) = false ->
                _end_reason (orch s') = Some (u "manual_end"))))
    /\ (ev_type client_event <> u "user_message" ->
        ev_type client_event <> u "stop" ->
        ev_type client_event <> u "end_session" ->
        s' = s /\ reply out = UnknownEventType (ev_type client_event)).
Proof.
  intros Hnow. cbv zeta. unfold on_client_event.
  destruct (eqb (ev_type client_event) (u "user_message")) eqn:Eu.
  { apply eqb_eq in Eu.
    destruct (truthy (strip (or_empty (ev_content client_event)))) eqn:Et;
      cbn [negb labels reply registered_after continues].
    - apply truthy_true in Et.
      destruct (@handle_new_message_runs cfg
                  (user_chat_message msg_id
                     (strip (or_empty (ev_content client_event)))) now s Hnow)
        as (s' & E & Hm & _ & _ & _ & _ & _ & Ha & _ & Hu & _).
      exists s'. split; [exact E|]. split; [exact Ha|].
      split.
      { right. split; [exact Eu|]. split; [exact Et|]. split; [exact Hm|].
        split; [apply Hu; reflexivity | reflexivity]. }
      split; [intros _ H; contradiction|].
      split; [intros H; rewrite Eu in H; vm_compute in H; discriminate|].
      split; [intros H; rewrite Eu in H; vm_compute in H; discriminate|].
      intros H. contradiction.
    - apply truthy_false in Et. exists s. cbn [exec].
      split; [reflexivity|]. split; [reflexivity|]. split; [now left|].
      split; [intros _ _; split; reflexivity|].
      split; [intros H; rewrite Eu in H; vm_compute in H; discriminate|].
      split; [intros H; rewrite Eu in H; vm_compute in H; discriminate|].
      intros H. contradiction. }
  assert (Hnu : ev_type client_event <> u "user_message").
  { intros H. apply eqb_eq in H. congruence. }
  destruct (eqb (ev_type client_event) (u "stop")) eqn:Es.
  { apply eqb_eq in Es. cbn [labels reply registered_after continues exec].
    rewrite (@step_stop cfg true now s Hnow).
    eexists. split; [reflexivity|]. cbn.
    split; [reflexivity|]. split; [now left|].
    split; [intros H; contradiction|].
    split; [intros _; repeat split; reflexivity|].
    split; [intros H; rewrite Es in H; vm_compute in H; discriminate|].
    intros _ H. contradiction. }
  assert (Hns : ev_type client_event <> u "stop").
  { intros H. apply eqb_eq in H. congruence. }
  destruct (eqb (ev_type client_event) (u "end_session")) eqn:Ee.
  { apply eqb_eq in Ee. cbn [labels reply registered_after continues].
    unfold end_session. destruct registered; cbn [exec].
    - rewrite (@step_shutdown cfg (u "manual_end") false now s Hnow).
      eexists. split; [reflexivity|].
      destruct (_ended (orch s)) eqn:Hended.
      + cbn. split; [reflexivity|]. split; [now left|].
        split; [intros H; contradiction|].
        split; [intros H; contradiction|].
        split; [|intros _ _ H; contradiction].
        intros _. repeat split; try reflexivity; try assumption.
        discriminate.
      + destruct (workers_cancelled_frame
                    (set_orch (shutdown (u "manual_end") false now (orch s))
                       (set_clock now s)))
          as (F1 & F2 & F3 & F4 & F5 & F6).
        cbn [orch set_orch approvals set_clock] in F1, F2, F3, F4, F5, F6.
        destruct (@shutdown_quietly (u "manual_end") now (orch s) Hended)
          as (S1 & S2 & S3 & S4).
        split; [exact F6|]. split; [left; congruence|].
        split; [intros H; contradiction|].
        split; [intros H; contradiction|].
        split; [|intros _ _ H; contradiction].
        intros _. split; [reflexivity|]. split; [reflexivity|].
        split; [congruence|]. split; [congruence|].
        intros _. split; [congruence | intros _; congruence].
    - exists s. split; [reflexivity|]. split; [reflexivity|].
      split; [now left|].
      split; [intros H; contradiction|].
      split; [intros H; contradiction|].
      split; [|intros _ _ H; contradiction].
      intros _. repeat split; try reflexivity; discriminate. }
  assert (Hne : ev_type client_event <> u "end_session").
  { intros H. apply eqb_eq in H. congruence. }
  cbn [labels reply registered_after continues exec].
  exists s. split; [reflexivity|]. split; [reflexivity|]. split; [now left|].
  split; [intros H; contradiction|].
  split; [intros H; contradiction|].
  split; [intros H; contradiction|].
  intros _ _ _. split; reflexivity.
Qed.

Definition says_hello : WSClientEvent :=
  {| ev_type := u "user_message"; ev_content := Some (u "  hello ") |}.

Lemma ws_client_event_effect_witness :
  exists s',
    exec session_defaults
      (labels (on_client_event (u "u1") 9 true says_hello))
      (initial [agent_ann]) = Some s'
    /\ messages (orch s') = [user_chat_message (u "u1") (u "hello")].
Proof.
  assert (Hnow : clock (initial [agent_ann]) <= 9) by (vm_compute; discriminate).
  destruct (@ws_client_event_effect session_defaults (u "u1") 9 true says_hello
              (initial [agent_ann]) Hnow)
    as (s' & E & _ & [Hsame | (_ & _ & Hm & _)] & _).
  - exfalso. vm_compute in E. injection E as <-. discriminate.
  - exists s'. split; [exact E | exact Hm].
Defined.

End WsProperties.

(* ================================================================== *)
(** * What a worker decides on *)
(* ================================================================== *)

Section DecisionInput.

Import AgentReplyStage Orchestrator Scheduler RecentMessages.

(** No agent has observed a negative version. *)
Definition seen_inv (o : SessionOrchestrator) : Prop :=
  Forall (fun a => (0 <= last_seen_message_version a)%Z) (agents o).

Lemma seen_keep o o' :
  seen_inv o -> agents o' = agents o -> seen_inv o'.
Proof. unfold seen_inv. intros H ->. exact H. Qed.

Lemma seen_inv_step cfg l s s' :
  seen_inv (orch s) -> (0 <= _message_version (orch s))%Z ->
  step cfg l s = Some s' -> seen_inv (orch s').
Proof.
  intros Hinv Hv H.
  destruct l;
    unfold step, at_time, _wait_for_new_message, _generate_reply,
      monitor_tick, shutdown, start_runtime, stop in H;
    repeat first
      [ match goal with
        | E : (_, _) = (_, _) |- _ => inversion E; clear E; subst
        end
      | match goal with
        | E : context [match ?x with _ => _ end] |- _ => destruct x eqn:?
        end ];
    try discriminate; injection H as <-.
  all: repeat match goal with
       | E : negb ?b = _ |- _ => destruct b; try discriminate; clear E
       | E : _approve_speech _ _ _ _ _ = (false, _) |- _ =>
           apply approve_speech_refused in E; subst
       | E : _approve_speech _ _ _ _ _ = (true, _) |- _ =>
           apply approve_speech_granted in E as (_ & _ & _ & E)
       end.
  all: try (apply (@seen_keep (orch s)); [exact Hinv|];
            cbn [orch set_orch set_worker set_workers set_clock log_approval
                 log_spoken start_workers workers_cancelled workers clock];
            try match goal with
                | |- context [fold_left ?f ?w ?o] =>
                    let E := fresh "Efold" in
                    pose proof (finally_fold_same w o) as E;
                    unfold same_but_pending in E; rewrite E
                end;
            try match goal with E : ?o = with_pacing _ _ _ |- _ => rewrite E end;
            reflexivity).
  all: unfold seen_inv in *; cbn; apply Forall_update_nth;
    [ exact Hinv
    | intros x Hx; cbn;
      first [ exact Hv | rewrite Forall_forall in Hinv; exact (Hinv x Hx) ] ].
Qed.

Lemma reachable_seen_inv cfg infos s :
  reachable cfg infos s -> seen_inv (orch s).
Proof.
  induction 1 as [|s l s' Hr IH Hstep].
  - unfold seen_inv. cbn. apply Forall_forall. intros a Ha.
    apply in_map_iff in Ha as (i & <- & _). cbn. lia.
  - refine (@seen_inv_step cfg l s s' IH _ Hstep).
    destruct (reachable_log_inv Hr) as [-> _]. lia.
Qed.

(** Ann wakes on the first message of the session. *)
Definition first_wake : list label :=
  handle_new_message question 9 ++ [WorkerWait 0 false].

(** X20. A worker starts a decision only on news. When the wait of a
    worker of a reachable state leads to a decision, the wait did not time
    out, the session has not ended, generation is not paused, and the log
    has moved past the version the agent had seen, which is now the
    version of the log: an agent decides at most once for a version of the
    log. The log the decision reads is therefore not empty, and the
    [last_speaker] handed to the decision stage is the author of its last
    message, never [None]. *)
Theorem decision_needs_new_message cfg infos i timed_out s s' :
  reachable cfg infos s ->
  step cfg (WorkerWait i timed_out) s = Some s' ->
  nth_error (workers s') i = Some Deciding ->
  timed_out = false
  /\ _ended (orch s) = false
  /\ _generation_paused (orch s) = false
  /\ messages (orch s') = messages (orch s)
  /\ (exists a,
        nth_error (agents (orch s)) i = Some a
        /\ (0 <= last_seen_message_version a < _message_version (orch s))%Z
        /\ nth_error (agents (orch s')) i
           = Some (set_last_seen (_message_version (orch s)) a))
  /\ (exists m,
        hd_error (rev (messages (orch s))) = Some m
        /\ last_speaker (_get_recent_messages 50 (messages (orch s')))
           = Some (m_author_name m)).
Proof.
  intros Hr H Hd.
  pose proof (reachable_seen_inv Hr) as Hseen.
  destruct (reachable_log_inv Hr) as [Hlen _].
  unfold step in H.
  destruct (nth_error (workers s) i) as [[| | | | |]|] eqn:Hw; try discriminate.
  destruct (nth_error (agents (orch s)) i) as [a|] eqn:Ha; [|discriminate].
  destruct (negb timed_out
            && negb (_ended (orch s)
                     || (last_seen_message_version a
                         <? _message_version (orch s))%Z)) eqn:Hguard;
    [discriminate|].
  unfold _wait_for_new_message in H.
  destruct timed_out.
  { cbv beta iota zeta in H.
    destruct (_ended (orch s)); injection H as <-; cbn in Hd;
      rewrite ?nth_error_update_nth_eq, Hw in Hd; discriminate. }
  destruct (_ended (orch s)) eqn:He.
  { cbv beta iota zeta in H. rewrite He in H. injection H as <-. cbn in Hd.
    rewrite nth_error_update_nth_eq, Hw in Hd. discriminate. }
  cbv beta iota zeta in H.
  cbn [negb andb orb] in Hguard. apply negb_false_iff in Hguard.
  apply Z.ltb_lt in Hguard.
  cbn [_ended with_agents negb _generation_paused] in H.
  rewrite He in H.
  destruct (_generation_paused (orch s)) eqn:Hp.
  { injection H as <-. cbn in Hd. rewrite Hw in Hd. discriminate. }
  injection H as <-. cbn [orch set_orch set_worker messages with_pending
                            with_agents agents].
  assert (Hpos : (0 <= last_seen_message_version a)%Z).
  { unfold seen_inv in Hseen. rewrite Forall_forall in Hseen.
    apply Hseen. exact (nth_error_In _ _ Ha). }
  split; [reflexivity|]. split; [reflexivity|]. split; [reflexivity|].
  split; [reflexivity|]. split.
  { exists a. split; [reflexivity|]. split; [lia|].
    rewrite nth_error_update_nth_eq, Ha. reflexivity. }
  destruct (rev (messages (orch s))) as [|m r] eqn:Erev.
  { exfalso. apply (f_equal (@List.length ChatMessage)) in Erev.
    rewrite length_rev in Erev. cbn in Erev. lia. }
  exists m. split; [reflexivity|].
  assert (Hlimit : (0 < 50)%Z) by reflexivity.
  destruct (@get_recent_messages_positive 50 (messages (orch s)) Hlimit)
    as (_ & ->).
  unfold last_speaker. now rewrite Erev.
Qed.

Lemma decision_needs_new_message_witness :
  match exec session_defaults (handle_new_message question 9)
          (initial [agent_ann]) with
  | Some s =>
      match step session_defaults (WorkerWait 0 false) s with
      | Some s' =>
          last_speaker (_get_recent_messages 50 (messages (orch s')))
          = Some (u "user")
      | None => False
      end
  | None => False
  end.
Proof.
  destruct (exec session_defaults (handle_new_message question 9)
              (initial [agent_ann])) as [s|] eqn:E;
    [|vm_compute in E; discriminate].
  destruct (step session_defaults (WorkerWait 0 false) s) as [s'|] eqn:E';
    [|vm_compute in E; injection E as <-; vm_compute in E'; discriminate].
  assert (Hd : nth_error (workers s') 0 = Some Deciding).
  { vm_compute in E. injection E as <-. vm_compute in E'.
    injection E' as <-. reflexivity. }
  destruct (@decision_needs_new_message session_defaults [agent_ann] 0%nat
              false s s' (@reachable_exec _ _ _ _ E) E' Hd)
    as (_ & _ & _ & _ & _ & m & Hm & ->).
  vm_compute in E. injection E as <-. cbn in Hm. injection Hm as <-.
  reflexivity.
Defined.

End DecisionInput.
